(** * Smithy language server: lexer, parser and parsed-document model

    A shallow embedding of the analysis core of the Smithy VS Code language
    server (Lexer.ts, Parser.ts, ParsedDocument.ts, Identifier.ts and the
    schema table), with the properties stated about it.

    Conventions of the embedding.
    - A JavaScript string is the list of its UTF-16 code units, each a
      number in [N]; [js "abc"] turns a literal into that representation.
      The empty string that [charAt] returns out of range is [None].
    - Objects used as dictionaries ([shapes], [relativeShapes], [metadata],
      [controls]) are finite maps over their own properties; a lookup that
      finds no own property goes on to the names inherited from
      [Object.prototype], as [object[key]] does.  The object literal built
      by [expectNodeObject] is kept as an association list, because the
      order of its keys is observable through [Object.entries].
    - Loops and recursive descent take a [fuel] argument and answer [None]
      (or [OutOfFuel]) when it runs out; every statement that a function
      returns is proved with an explicit amount of fuel. *)

From Stdlib Require Import ZArith Lia Bool String Ascii.
From stdpp Require Import gmap strings list fin_maps pretty sorting.

Open Scope nat_scope.

Set Warnings "-register-all".

(** ** JavaScript strings *)

Abbreviation jstring := (list N).

Definition js (s : string) : jstring :=
  (λ a, N_of_ascii a) <$> list_ascii_of_string s.

(** Code units the sources name. *)
Module Ch.
Definition tab : N := 9.
Definition lf : N := 10.
Definition cr : N := 13.
Definition space : N := 32.
Definition quote : N := 34.
Definition hash : N := 35.
Definition dollar : N := 36.
Definition minus : N := 45.
Definition dot : N := 46.
Definition slash : N := 47.
Definition at_ : N := 64.
Definition backslash : N := 92.
Definition e : N := 101.
Definition u : N := 117.
End Ch.

(** [regExp.test] on the result of [charAt]: the empty string matches none
    of the one-character classes the lexer uses. *)
Definition matches (cls : N → bool) (c : option N) : bool :=
  from_option cls false c.

Definition isChar (x : N) (c : option N) : bool := bool_decide (c = Some x).

(** [String.prototype.substring]: both ends are clamped to the length and
    swapped when out of order. *)
Definition substring (s : jstring) (a b : nat) : jstring :=
  let a' := a `min` length s in
  let b' := b `min` length s in
  take ((a' `max` b') - (a' `min` b')) (drop (a' `min` b') s).

(** [String.prototype.indexOf] for a one-character needle; [None] is -1. *)
Definition indexOf (c : N) (s : jstring) (fromIndex : nat) : option nat :=
  (λ r, fromIndex + r.1) <$> list_find (λ x, x = c) (drop fromIndex s).

(** Truthiness of a value that is an object or [undefined]. *)
Definition defined {A} (o : option A) : bool :=
  match o with
  | Some _ => true
  | None => false
  end.

(** Truthiness of a string that may be [undefined]. *)
Definition truthy (s : option jstring) : bool :=
  match s with
  | Some (_ :: _) => true
  | _ => false
  end.

(** ** Plain objects and numbers of the language *)

(** The names that a plain object, made by [{}], inherits from
    [Object.prototype] in the engine that runs the server (V8).  Reading one
    of them from an object that has no property of its own by that name
    gives a function, or, for [__proto__], the prototype; each of these is
    truthy, has no method [push], and has no property [0] or [type]. *)
Definition inheritedNames : list jstring :=
  js <$> ["constructor"; "__defineGetter__"; "__defineSetter__"; "hasOwnProperty";
          "__lookupGetter__"; "__lookupSetter__"; "isPrototypeOf";
          "propertyIsEnumerable"; "toString"; "valueOf"; "__proto__";
          "toLocaleString"]%string.

Definition inherited (key : jstring) : bool := bool_decide (key ∈ inheritedNames).

(** A number that a comparison function answers with.  The search reads
    it for its sign only: it is kept as an integer of that sign, or as NaN,
    which is neither above nor below zero. *)
Inductive JsNumber := Num (z : Z) | NaN.

Definition aboveZero (n : JsNumber) : bool :=
  match n with
  | Num z => (z >? 0)%Z
  | NaN => false
  end.

Definition belowZero (n : JsNumber) : bool :=
  match n with
  | Num z => (z <? 0)%Z
  | NaN => false
  end.

(** ** Position.ts, TokenType.ts, Token.ts *)

Record Position := mkPosition { index : nat; line : nat; column : nat }.

Global Instance Position_eq_dec : EqDecision Position.
Proof. solve_decision. Defined.

Module TokenType.
Inductive t :=
| Error | Comment | DocumentationComment | Delimiter
| String | Number | Identifier | End.

Global Instance eq_dec : EqDecision t.
Proof. solve_decision. Defined.
End TokenType.

Record Range := mkRange { start : Position; end_ : Position }.

Global Instance Range_eq_dec : EqDecision Range.
Proof. solve_decision. Defined.

Module Token.
Record t := mk {
  type : TokenType.t;
  range : Range;
  text : jstring;
  value : jstring;
}.

Global Instance eq_dec : EqDecision t.
Proof. solve_decision. Defined.
End Token.

(** ** Lexer.ts *)

Module Lexer.

(** Character classes of the regular expressions in [getTokens]. *)
Definition isBlank (c : N) : bool :=                       (* /[ \t]/ *)
  bool_decide (c = Ch.space) || bool_decide (c = Ch.tab).
Definition isLineFeed (c : N) : bool :=                    (* /\n/ *)
  bool_decide (c = Ch.lf).
Definition isDelimiter (c : N) : bool :=                   (* /[(){}\[\],:=]/ *)
  bool_decide (c ∈ [40; 41; 123; 125; 91; 93; 44; 58; 61]%N).
Definition isDigit (c : N) : bool :=                       (* /[0-9]/ *)
  ((48 <=? c) && (c <=? 57))%N.
Definition isSign (c : N) : bool :=                        (* /[+\-]/ *)
  bool_decide (c = 43%N) || bool_decide (c = Ch.minus).
Definition isLetter (c : N) : bool :=                      (* /[a-z]/i *)
  ((97 <=? c) && (c <=? 122) || (65 <=? c) && (c <=? 90))%N.
Definition isIdentifierStart (c : N) : bool :=             (* /[a-z_.$#@]/i *)
  isLetter c || bool_decide (c ∈ [95%N; Ch.dot; Ch.dollar; Ch.hash; Ch.at_]).
Definition isIdentifierPart (c : N) : bool :=              (* /[a-z0-9_.$#@]/i *)
  isIdentifierStart c || isDigit c.

(** [Lexer.escapedCharacters]: the table of one-letter escapes. *)
Definition escapedCharacters (c : option N) : option N :=
  match c with
  | Some 92%N => Some 92%N      (* backslash *)
  | Some 34%N => Some 34%N      (* double quote *)
  | Some 98%N => Some 8%N       (* escape b *)
  | Some 102%N => Some 12%N     (* escape f *)
  | Some 110%N => Some 10%N     (* escape n *)
  | Some 114%N => Some 13%N     (* escape r *)
  | Some 116%N => Some 9%N      (* escape t *)
  | _ => None
  end.

(** [valueFromHexChar]; [charCodeAt(0)] of the empty string is NaN, which
    fails every comparison.  The letters are mapped as the source maps
    them (code minus the code of 'a' or 'A'). *)
Definition valueFromHexChar (c : option N) : option N :=
  match c with
  | None => None
  | Some code =>
      if ((48 <=? code) && (code <=? 57))%N then Some (code - 48)%N
      else if ((97 <=? code) && (code <=? 102))%N then Some (code - 97)%N
      else if ((65 <=? code) && (code <=? 70))%N then Some (code - 65)%N
      else None
  end.

(** What the lexer did with a stretch of the source: a token it yielded,
    or text it consumed without yielding anything.  The second kind is
    not a value of the program; it records which branch of [getTokens]
    consumed the text. *)
Inductive SpanKind := Whitespace | LineComment | LineBreak | UnterminatedString.

Inductive Piece :=
| Yield (t : Token.t)
| Skip (k : SpanKind) (s : jstring).

Definition pieceText (p : Piece) : jstring :=
  match p with
  | Yield t => Token.text t
  | Skip _ s => s
  end.

Definition yielded (ps : list Piece) : list Token.t :=
  omap (λ p, match p with Yield t => Some t | Skip _ _ => None end) ps.

Section WithSource.
Variable source : jstring.

Definition charAt (i : nat) : option N := source !! i.

Definition ended (p : Position) : bool :=
  bool_decide (length source ≤ index p).

Definition char (p : Position) : option N := charAt (index p).

(** [advance]: the line counter moves when the character now under the
    cursor is a line feed. *)
Definition advance (p : Position) : option N * Position :=
  let result := charAt (S (index p)) in
  (result,
   if isChar Ch.lf result
   then {| index := S (index p); line := S (line p); column := 0 |}
   else {| index := S (index p); line := line p; column := S (column p) |}).

(** [peek()] with its default arguments: [substr(index + 1, 1)]. *)
Definition peek (p : Position) : option N := charAt (index p + 1).

Definition textSince (start p : Position) : jstring :=
  substring source (index start) (index p).

Definition createToken (type : TokenType.t) (start : Position)
    (value : jstring) (p : Position) : Token.t :=
  {| Token.type := type;
     Token.text := textSince start p;
     Token.range := {| start := start; end_ := p |};
     Token.value := value |}.

Fixpoint skipUntil (cls : N → bool) (fuel : nat) (start p : Position)
    : option (jstring * Position) :=
  match fuel with
  | 0 => None
  | S fuel =>
      if negb (matches cls (char p))
      then skipUntil cls fuel start (advance p).2
      else Some (substring source (index start) (index p), p)
  end.

Fixpoint skipWhile (cls : N → bool) (fuel : nat) (start p : Position)
    : option (jstring * Position) :=
  match fuel with
  | 0 => None
  | S fuel =>
      if matches cls (char p)
      then skipWhile cls fuel start (advance p).2
      else Some (substring source (index start) (index p), p)
  end.

(** The loop that skips blanks; [false] is its [return] out of the
    generator when [advance] reaches the end of the source. *)
Fixpoint skipBlanks (fuel : nat) (p : Position) : option (Position * bool) :=
  match fuel with
  | 0 => None
  | S fuel =>
      if matches isBlank (char p)
      then match advance p with
           | (None, p') => Some (p', false)
           | (Some _, p') => skipBlanks fuel p'
           end
      else Some (p, true)
  end.

(** The [for] loop reading up to four hexadecimal digits. *)
Fixpoint unicodeEscape (n : nat) (escapedValue : N) (p : Position)
    : N * Position :=
  match n with
  | 0 => (escapedValue, p)
  | S n =>
      let '(c, p') := advance p in
      match valueFromHexChar c with
      | None => (escapedValue, p')
      | Some charValue => unicodeEscape n (escapedValue * 16 + charValue)%N p'
      end
  end.

(** The loop of the string branch.  [Some value] is the payload of the
    String token yielded at the closing quote; [None] means the loop
    ran into the end of the source and nothing was yielded. *)
Fixpoint stringLoop (fuel : nat) (p : Position) (value : jstring)
    : option (Position * option jstring) :=
  match fuel with
  | 0 => None
  | S fuel =>
      if ended p then Some (p, None)
      else
        let '(c, p1) := advance p in
        if isChar Ch.quote c then
          Some ((advance p1).2, Some value)
        else if isChar Ch.backslash c then
          let '(escapedChar, p2) := advance p1 in
          if isChar Ch.u escapedChar then
            let '(escapedValue, p3) := unicodeEscape 4 0%N p2 in
            stringLoop fuel p3 (value ++ [escapedValue mod 65536]%N)
          else
            match escapedCharacters escapedChar with
            | Some c' => stringLoop fuel p2 (value ++ [c'])
            | None => stringLoop fuel p2 (value ++ option_list escapedChar)
            end
        else stringLoop fuel p1 (value ++ option_list c)
  end.

(** The number branch, up to the token it yields. *)
Definition number (fuel : nat) (start : Position) : option Token.t :=
  let negated := isChar Ch.minus (char start) in
  let p := if negated then (advance start).2 else start in
  '(value, p) ← skipWhile isDigit fuel p p;
  '(fraction, p) ←
    (if isChar Ch.dot (char p) && matches isDigit (peek p)
     then let p := (advance p).2 in skipWhile isDigit fuel p p
     else Some ([], p));
  '(exponentSign, exponent, p) ←
    (if isChar Ch.e (char p) && (matches isSign (peek p) || matches isDigit (peek p))
     then
       let p := (advance p).2 in
       let '(exponentSign, p) :=
         if matches isSign (char p)
         then (option_list (char p), (advance p).2) else ([], p) in
       '(exponent, p) ← skipWhile isDigit fuel p p;
       Some (exponentSign, exponent, p)
     else Some ([], [], p));
  let number :=
    value
    ++ (if bool_decide (fraction = []) then [] else Ch.dot :: fraction)
    ++ (if bool_decide (exponent = []) then []
        else Ch.e :: exponentSign ++ exponent) in
  Some (createToken TokenType.Number start number p).

(** The main loop of [getTokens], from position [p] on. *)
Fixpoint getTokensFrom (fuel : nat) (p : Position) : option (list Piece) :=
  match fuel with
  | 0 => None
  | S fuel =>
      if ended p then Some []
      else
        '(start, continue) ← skipBlanks fuel p;
        let blanks := Skip Whitespace (textSince p start) in
        if negb continue then Some [blanks]
        else if isChar Ch.slash (char start) && isChar Ch.slash (peek start) then
          let p1 := (advance (advance start).2).2 in
          let tokenType :=
            if isChar Ch.slash (char p1)
            then TokenType.DocumentationComment else TokenType.Comment in
          let p2 :=
            if bool_decide (tokenType = TokenType.DocumentationComment)
            then (advance p1).2 else p1 in
          '(_, p3) ← skipUntil isLineFeed fuel p2 p2;
          let p4 := (advance p3).2 in
          rest ← getTokensFrom fuel p4;
          Some (blanks :: Skip LineComment (textSince start p4) :: rest)
        else if isChar Ch.lf (char start)
                || isChar Ch.cr (char start) && isChar Ch.lf (peek start) then
          let p1 := if isChar Ch.cr (char start) then (advance start).2 else start in
          let p2 := (advance p1).2 in
          rest ← getTokensFrom fuel p2;
          Some (blanks :: Skip LineBreak (textSince start p2) :: rest)
        else if matches isDelimiter (char start) then
          let value := option_list (char start) in
          let p1 := (advance start).2 in
          rest ← getTokensFrom fuel p1;
          Some (blanks :: Yield (createToken TokenType.Delimiter start value p1) :: rest)
        else if isChar Ch.quote (char start) then
          '(p1, closed) ← stringLoop fuel start [];
          rest ← getTokensFrom fuel p1;
          Some (blanks ::
                match closed with
                | Some value => Yield (createToken TokenType.String start value p1)
                | None => Skip UnterminatedString (textSince start p1)
                end :: rest)
        else if isChar Ch.minus (char start) && matches isDigit (peek start)
                || matches isDigit (char start) then
          tok ← number fuel start;
          rest ← getTokensFrom fuel (end_ (Token.range tok));
          Some (blanks :: Yield tok :: rest)
        else if matches isIdentifierStart (char start) then
          '(identifier, p1) ← skipWhile isIdentifierPart fuel start start;
          rest ← getTokensFrom fuel p1;
          Some (blanks :: Yield (createToken TokenType.Identifier start identifier p1) :: rest)
        else
          let value := option_list (char start) in
          let p1 := (advance start).2 in
          rest ← getTokensFrom fuel p1;
          Some (blanks ::
                Yield (createToken TokenType.Error start
                         (js "Unknown token: " ++ value ++ js ", "
                          ++ option_list (char p1)) p1) :: rest)
  end.

(** The generator run for as long as the fuel lasts: the pieces it got
    through, and whether it came to its end.  The tokens among the pieces
    are those it has yielded by then, also on a source on which it never
    returns: a token is yielded before the generator goes on. *)
Definition followedBy (pieces : list Piece) (rest : list Piece * bool)
    : list Piece * bool :=
  (pieces ++ rest.1, rest.2).

Fixpoint runWithin (fuel : nat) (p : Position) : list Piece * bool :=
  match fuel with
  | 0 => ([], false)
  | S fuel =>
      if ended p then ([], true)
      else
        match skipBlanks fuel p with
        | None => ([], false)
        | Some (start, continue) =>
            let blanks := Skip Whitespace (textSince p start) in
            if negb continue then ([blanks], true)
            else if isChar Ch.slash (char start) && isChar Ch.slash (peek start) then
              let p1 := (advance (advance start).2).2 in
              let tokenType :=
                if isChar Ch.slash (char p1)
                then TokenType.DocumentationComment else TokenType.Comment in
              let p2 :=
                if bool_decide (tokenType = TokenType.DocumentationComment)
                then (advance p1).2 else p1 in
              match skipUntil isLineFeed fuel p2 p2 with
              | None => ([blanks], false)
              | Some (_, p3) =>
                  let p4 := (advance p3).2 in
                  followedBy [blanks; Skip LineComment (textSince start p4)]
                    (runWithin fuel p4)
              end
            else if isChar Ch.lf (char start)
                    || isChar Ch.cr (char start) && isChar Ch.lf (peek start) then
              let p1 := if isChar Ch.cr (char start) then (advance start).2 else start in
              let p2 := (advance p1).2 in
              followedBy [blanks; Skip LineBreak (textSince start p2)] (runWithin fuel p2)
            else if matches isDelimiter (char start) then
              let value := option_list (char start) in
              let p1 := (advance start).2 in
              followedBy [blanks; Yield (createToken TokenType.Delimiter start value p1)]
                (runWithin fuel p1)
            else if isChar Ch.quote (char start) then
              match stringLoop fuel start [] with
              | None => ([blanks], false)
              | Some (p1, closed) =>
                  followedBy
                    [blanks;
                     match closed with
                     | Some value => Yield (createToken TokenType.String start value p1)
                     | None => Skip UnterminatedString (textSince start p1)
                     end]
                    (runWithin fuel p1)
              end
            else if isChar Ch.minus (char start) && matches isDigit (peek start)
                    || matches isDigit (char start) then
              match number fuel start with
              | None => ([blanks], false)
              | Some tok =>
                  followedBy [blanks; Yield tok] (runWithin fuel (end_ (Token.range tok)))
              end
            else if matches isIdentifierStart (char start) then
              match skipWhile isIdentifierPart fuel start start with
              | None => ([blanks], false)
              | Some (identifier, p1) =>
                  followedBy
                    [blanks; Yield (createToken TokenType.Identifier start identifier p1)]
                    (runWithin fuel p1)
              end
            else
              let value := option_list (char start) in
              let p1 := (advance start).2 in
              followedBy
                [blanks;
                 Yield (createToken TokenType.Error start
                          (js "Unknown token: " ++ value ++ js ", "
                           ++ option_list (char p1)) p1)]
                (runWithin fuel p1)
        end
  end.

Definition initialPosition : Position :=
  {| index := 0; line := 0; column := 0 |}.

(** The tokens the generator yields within the fuel, and whether it came
    to its end. *)
Definition yieldedWithin (fuel : nat) : list Token.t * bool :=
  let result := runWithin fuel initialPosition in
  (yielded result.1, result.2).

(** Everything the generator does on [source]: the pieces in order. *)
Definition run (fuel : nat) : option (list Piece) :=
  getTokensFrom fuel initialPosition.

(** The sequence of tokens [getTokens] yields. *)
Definition getTokens (fuel : nat) : option (list Token.t) :=
  yielded <$> run fuel.

End WithSource.
End Lexer.

(** ** Identifier.ts *)

Module Identifier.
Record t := mk {
  namespace : option jstring;
  name : jstring;
  member : option jstring;
}.

Global Instance eq_dec : EqDecision t.
Proof. solve_decision. Defined.

(** The constructor: the first [#] ends the namespace, the first [$] after
    it starts the member. *)
Definition new (value : jstring) : t :=
  let namespaceIndex := indexOf Ch.hash value 0 in
  let afterNamespace := from_option S 0 namespaceIndex in
  let memberIndex := indexOf Ch.dollar value afterNamespace in
  {| namespace := (λ i, take i value) <$> namespaceIndex;
     name := substring value afterNamespace (default (length value) memberIndex);
     member := (λ i, drop (i + 1) value) <$> memberIndex |}.

Definition toRelative (i : t) : jstring :=
  if truthy (member i)
  then name i ++ Ch.dollar :: default [] (member i)
  else name i.

Definition forMember (i : t) (memberName : jstring) : t :=
  new ((if truthy (namespace i) then default [] (namespace i) ++ [Ch.hash] else [])
       ++ name i ++ Ch.dollar :: memberName).
End Identifier.

(** ** ReferenceType.ts, Reference.ts *)

(** Modelled from the spec: the declaration of [ReferenceType] is not among
    the sources; its members are the five the parser uses and the data model
    of the specification lists. *)
Module ReferenceType.
Inductive t := Shape | Use | Apply | Trait | Member.

Global Instance eq_dec : EqDecision t.
Proof. solve_decision. Defined.
End ReferenceType.

Module Reference.
Record t := mk {
  token : Token.t;
  type : ReferenceType.t;
  identifier : Identifier.t;
}.

Global Instance eq_dec : EqDecision t.
Proof. solve_decision. Defined.
End Reference.

(** ** MessageType.ts, Message.ts *)

(** Modelled from the spec: the declaration of [MessageType] is not among
    the sources; the specification gives its four members. *)
Module MessageType.
Inductive t := Error | Warning | Information | Hint.

Global Instance eq_dec : EqDecision t.
Proof. solve_decision. Defined.
End MessageType.

Module Message.
Record t := mk {
  type : MessageType.t;
  startIndex : Z;
  endIndex : Z;
  text : jstring;
}.

Global Instance eq_dec : EqDecision t.
Proof. solve_decision. Defined.
End Message.

(** ** Section.ts *)

(** Modelled from the spec: the declaration of [Section] is not among the
    sources; the parser names its three members.  [sections] is the object
    that maps each of them to the token that opened it. *)
Module Section_.
Inductive t := Control | Metadata | Shape.

Record table := mkTable {
  control : option Token.t;
  metadata : option Token.t;
  shape : option Token.t;
}.

Definition get (s : t) (tbl : table) : option Token.t :=
  match s with
  | Control => control tbl
  | Metadata => metadata tbl
  | Shape => shape tbl
  end.

Definition set (s : t) (tok : Token.t) (tbl : table) : table :=
  match s with
  | Control => {| control := Some tok; metadata := metadata tbl; shape := shape tbl |}
  | Metadata => {| control := control tbl; metadata := Some tok; shape := shape tbl |}
  | Shape => {| control := control tbl; metadata := metadata tbl; shape := Some tok |}
  end.
End Section_.

(** ** Node.ts *)

(** Modelled from the spec: the declaration of [Node] is not among the
    sources.  A node is an object with optional [key], [value] and [token]
    properties; the values the parser stores are strings, numbers (kept
    here as the numeral handed to [Number]), object literals, arrays whose
    items may be [undefined], or nothing. *)
Record Key := mkKey { keyValue : jstring; keyToken : Token.t }.

Inductive Value :=
| VUndefined
| VString (s : jstring)
| VNumber (numeral : jstring)
| VObject (entries : list (jstring * Node))
| VArray (items : list (option Node))
with Node :=
| MkNode (key : option Key) (value : Value) (token : option Token.t).

Module Node.
Definition key (n : Node) : option Key := let 'MkNode k _ _ := n in k.
Definition value (n : Node) : Value := let 'MkNode _ v _ := n in v.
Definition token (n : Node) : option Token.t := let 'MkNode _ _ t := n in t.
End Node.

(** ** ParsedDocument.ts *)

Record ParsedDocument := mkParsedDocument {
  uri : jstring;
  sections : Section_.table;
  metadata : gmap jstring Value;
  namespace : option jstring;
  controls : gmap jstring Value;
  relativeShapes : gmap jstring (list jstring);
  shapes : gmap jstring (list Token.t);
  references : list Reference.t;
  messages : list Message.t;
  parsedMessageCount : nat;
}.

Module ParsedDocument.

Definition new (uri : jstring) : ParsedDocument :=
  {| uri := uri;
     sections := {| Section_.control := None; Section_.metadata := None;
                    Section_.shape := None |};
     metadata := ∅;
     namespace := None;
     controls := ∅;
     relativeShapes := ∅;
     shapes := ∅;
     references := [];
     messages := [];
     parsedMessageCount := 0 |}.

(** Assignments to one field. *)
Definition withSections (v : Section_.table) (d : ParsedDocument) :=
  mkParsedDocument (uri d) v (metadata d) (namespace d) (controls d)
    (relativeShapes d) (shapes d) (references d) (messages d) (parsedMessageCount d).
Definition withMetadata (v : gmap jstring Value) (d : ParsedDocument) :=
  mkParsedDocument (uri d) (sections d) v (namespace d) (controls d)
    (relativeShapes d) (shapes d) (references d) (messages d) (parsedMessageCount d).
Definition withNamespace (v : option jstring) (d : ParsedDocument) :=
  mkParsedDocument (uri d) (sections d) (metadata d) v (controls d)
    (relativeShapes d) (shapes d) (references d) (messages d) (parsedMessageCount d).
Definition withControls (v : gmap jstring Value) (d : ParsedDocument) :=
  mkParsedDocument (uri d) (sections d) (metadata d) (namespace d) v
    (relativeShapes d) (shapes d) (references d) (messages d) (parsedMessageCount d).
Definition withRelativeShapes (v : gmap jstring (list jstring)) (d : ParsedDocument) :=
  mkParsedDocument (uri d) (sections d) (metadata d) (namespace d) (controls d)
    v (shapes d) (references d) (messages d) (parsedMessageCount d).
Definition withShapes (v : gmap jstring (list Token.t)) (d : ParsedDocument) :=
  mkParsedDocument (uri d) (sections d) (metadata d) (namespace d) (controls d)
    (relativeShapes d) v (references d) (messages d) (parsedMessageCount d).
Definition withReferences (v : list Reference.t) (d : ParsedDocument) :=
  mkParsedDocument (uri d) (sections d) (metadata d) (namespace d) (controls d)
    (relativeShapes d) (shapes d) v (messages d) (parsedMessageCount d).
Definition withMessages (v : list Message.t) (d : ParsedDocument) :=
  mkParsedDocument (uri d) (sections d) (metadata d) (namespace d) (controls d)
    (relativeShapes d) (shapes d) (references d) v (parsedMessageCount d).
Definition withParsedMessageCount (v : nat) (d : ParsedDocument) :=
  mkParsedDocument (uri d) (sections d) (metadata d) (namespace d) (controls d)
    (relativeShapes d) (shapes d) (references d) (messages d) v.

(** [addMessage(text, { token, type, after })]; [type] defaults to Error
    and [after] to false. *)
Definition addMessage (text : jstring) (token : Token.t)
    (type : option MessageType.t) (after : bool) (d : ParsedDocument)
    : ParsedDocument :=
  let type := default MessageType.Error type in
  let range := Token.range token in
  let '(startIndex, endIndex) :=
    if negb after && bool_decide (Token.type token ≠ TokenType.End)
    then (Z.of_nat (index (start range)), Z.of_nat (index (end_ range)))
    else ((Z.of_nat (index (end_ range)) - 1)%Z, Z.of_nat (index (end_ range))) in
  withMessages
    (messages d ++ [{| Message.type := type; Message.text := text;
                       Message.startIndex := startIndex;
                       Message.endIndex := endIndex |}]) d.

Definition enterSection (section : Section_.t) (token : Token.t)
    (d : ParsedDocument) : ParsedDocument :=
  let d :=
    if Section_.get section (sections d) is None
    then withSections (Section_.set section token (sections d)) d else d in
  match section with
  | Section_.Control =>
      if defined (Section_.metadata (sections d))
         || defined (Section_.shape (sections d))
      then addMessage (js "Control section has to be defined first.") token None false d
      else d
  | Section_.Metadata =>
      if defined (Section_.shape (sections d))
      then addMessage (js "Metadata must be defined before shapes.") token None false d
      else d
  | Section_.Shape => d
  end.

(** [compareReferences], the order of [references.sort]. *)
Definition compareReferences (a b : Reference.t) : Z :=
  let aStart := start (Token.range (Reference.token a)) in
  let bStart := start (Token.range (Reference.token b)) in
  let byLine := (Z.of_nat (line aStart) - Z.of_nat (line bStart))%Z in
  if bool_decide (byLine ≠ 0%Z) then byLine
  else (Z.of_nat (column aStart) - Z.of_nat (column bStart))%Z.

(** [Array.prototype.sort] is stable; for a comparator that orders the
    items by a key, as [compareReferences] does, its result is the stable
    sorted arrangement, computed here by insertion. *)
Fixpoint insertSorted {A} (compare : A → A → Z) (x : A) (l : list A) : list A :=
  match l with
  | [] => [x]
  | y :: l' =>
      if (compare x y <=? 0)%Z then x :: l else y :: insertSorted compare x l'
  end.

Definition sort {A} (compare : A → A → Z) (l : list A) : list A :=
  foldr (insertSorted compare) [] l.

Definition finishParsing (d : ParsedDocument) : ParsedDocument :=
  let d := withParsedMessageCount (length (messages d)) d in
  withReferences (sort compareReferences (references d)) d.

(** [resolveId].  The source answers [undefined] where the relative name
    is one that [relativeShapes] inherits, and would where a list stored
    under it were empty; the answer is only ever used as a property name,
    and is kept as the string that [undefined] is then turned into. *)
Definition resolveId (identifier : Identifier.t) (d : ParsedDocument) : jstring :=
  let canonical :=
    (match Identifier.namespace identifier with
     | Some ns => ns
     | None => if truthy (namespace d) then default [] (namespace d)
               else js "smithy.api"
     end)
    ++ Ch.hash :: Identifier.name identifier
    ++ (match Identifier.member identifier with
        | Some m => Ch.dollar :: m
        | None => []
        end) in
  match Identifier.namespace identifier with
  | None =>
      match relativeShapes d !! Identifier.toRelative identifier with
      | Some resolvedId => default (js "undefined") (head resolvedId)
      | None =>
          if inherited (Identifier.toRelative identifier)
          then js "undefined" else canonical
      end
  | Some _ => canonical
  end.

(** [map[key]] is truthy: the map has a list of its own under the key, or
    inherits the name. *)
Definition has {TItem} (map : gmap jstring (list TItem)) (key : jstring) : bool :=
  defined (map !! key) || inherited key.

(** [putItem].  Under a name that the map inherits and has no list of its
    own for, [map[key].push] is not a function and the call throws, which
    is [None]. *)
Definition putItem {TItem} (map : gmap jstring (list TItem)) (key : jstring)
    (item : TItem) : option (gmap jstring (list TItem)) :=
  match map !! key with
  | Some items => Some (<[key := items ++ [item]]> map)
  | None => if inherited key then None else Some (<[key := [item]]> map)
  end.

(** [addShape]; [None] is the exception of [putItem]. *)
Definition addShape (identifier : Identifier.t) (token : Token.t)
    (d : ParsedDocument) : option ParsedDocument :=
  let resolvedId := resolveId identifier d in
  let relative := Identifier.toRelative identifier in
  let d :=
    if has (relativeShapes d) relative
    then addMessage (js "Shape is already defined.") token None false d else d in
  shapes' ← putItem (shapes d) resolvedId token;
  relativeShapes' ← putItem (relativeShapes d) relative resolvedId;
  Some (withRelativeShapes relativeShapes' (withShapes shapes' d)).

Definition addReference (identifier : Identifier.t) (token : Token.t)
    (type : ReferenceType.t) (d : ParsedDocument) : ParsedDocument :=
  withReferences
    (references d ++ [{| Reference.token := token;
                         Reference.identifier := identifier;
                         Reference.type := type |}]) d.

Definition validateNamespace (d : ParsedDocument) : ParsedDocument :=
  match Section_.shape (sections d) with
  | Some shapeToken =>
      if negb (truthy (namespace d))
      then addMessage
             (js "Missing namespace declaration. Namespace 'smithy.api' from Smithy prelude will be used.")
             shapeToken (Some MessageType.Warning) false d
      else d
  | None => d
  end.

(** [Object.values(SimpleShapes)]. *)
Definition simpleShapeNames : list jstring :=
  js <$> ["blob"; "boolean"; "string"; "byte"; "short"; "integer"; "long";
          "float"; "double"; "bigInteger"; "bigDecimal"; "timestamp";
          "document"]%string.

(** [Object.keys(Prelude.shapes)] followed by [Object.keys(Traits)]. *)
Definition preludeShapeNames : list jstring :=
  js <$> ["String"; "Blob"; "BigInteger"; "BigDecimal"; "Timestamp";
          "Document"; "Boolean"; "PrimitiveBoolean"; "Byte"; "PrimitiveByte";
          "Short"; "PrimitiveShort"; "Integer"; "PrimitiveInteger"; "Long";
          "PrimitiveLong"; "Float"; "PrimitiveFloat"; "Double";
          "PrimitiveDouble";
          "enum"; "idRef"; "length"; "pattern"; "private"; "range";
          "required"; "uniqueItems"; "deprecated"; "documentation";
          "examples"; "externalDocumentation"; "internal"; "recommended";
          "sensitive"; "since"; "tags"; "title"; "unstable"; "box"; "error";
          "sparse"; "protocolDefinition"; "jsonName"; "mediaType";
          "timestampFormat"; "authDefinition"; "httpBasicAuth";
          "httpDigestAuth"; "httpBearerAuth"; "httpApiKeyAuth";
          "optionalAuth"; "auth"; "idempotencyToken"; "idempotent";
          "readonly"; "retryable"; "paginated"; "httpChecksumRequired";
          "noReplace"; "references"; "resourceIdentifier"; "streaming";
          "requiresLength"; "eventHeader"; "eventPayload"; "http";
          "httpError"; "httpHeader"; "httpLabel"; "httpPayload";
          "httpPrefixHeaders"; "httpQuery"; "httpQueryParams";
          "httpResponseCode"; "cors"; "xmlAttribute"; "xmlFlattened";
          "xmlName"; "xmlNamespace"; "endpoint"; "hostLabel";
          "suppress"]%string.

Definition isKnownReference (identifier : Identifier.t) : bool :=
  negb (truthy (Identifier.namespace identifier))
  && negb (truthy (Identifier.member identifier))
  && (bool_decide (Identifier.name identifier ∈ simpleShapeNames)
      || bool_decide (Identifier.name identifier ∈ preludeShapeNames)).

(** [isExternalShape] called on document [d]. *)
Fixpoint isExternalShape (identifier : Identifier.t)
    (parsedFiles : list ParsedDocument) (d : ParsedDocument) : bool :=
  match parsedFiles with
  | [] => false
  | parsedDocument :: parsedFiles =>
      if (truthy (Identifier.namespace identifier)
          && bool_decide (namespace parsedDocument = Identifier.namespace identifier)
          || negb (truthy (Identifier.namespace identifier))
             && bool_decide (namespace parsedDocument = namespace d))
         && has (relativeShapes parsedDocument) (Identifier.toRelative identifier)
      then true
      else isExternalShape identifier parsedFiles d
  end.

(** The body of the loop of [validateReferences]. *)
Definition validateReference (parsedFiles : list ParsedDocument)
    (reference : Reference.t) (d : ParsedDocument) : ParsedDocument :=
  let resolvedId := resolveId (Reference.identifier reference) d in
  if negb (has (shapes d) resolvedId)
     && negb (isKnownReference (Reference.identifier reference))
     && negb (isExternalShape (Reference.identifier reference) parsedFiles d)
  then addMessage (js "Unknown shape.") (Reference.token reference)
         (Some MessageType.Error) false d
  else d.

Definition validateReferences (parsedFiles : list ParsedDocument)
    (d : ParsedDocument) : ParsedDocument :=
  let d := withReferences (sort compareReferences (references d)) d in
  foldl (λ d reference, validateReference parsedFiles reference d) d (references d).

(** [validate].  [messages.length = parsedMessageCount] cuts the array
    down; the count never exceeds the length ([finishParsing] sets it to the
    length and messages are only appended afterwards). *)
Definition validate (parsedFiles : list ParsedDocument) (d : ParsedDocument)
    : ParsedDocument :=
  let d := withMessages (take (parsedMessageCount d) (messages d)) d in
  let d := validateNamespace d in
  validateReferences parsedFiles d.

(** The comparator that [findSymbol] hands to [binarySearch]. *)
Definition comparePosition (position : nat * nat) (reference : Reference.t) : Z :=
  let '(line_, column_) := position in
  let range := Token.range (Reference.token reference) in
  if bool_decide (line (end_ range) < line_) then 1%Z
  else if bool_decide (line_ < line (start range)) then (-1)%Z
  else if bool_decide (line (end_ range) = line_)
          && bool_decide (column (end_ range) < column_) then 1%Z
  else if bool_decide (line (start range) = line_)
          && bool_decide (column_ < column (start range)) then (-1)%Z
  else 0%Z.

(** The loop of [binarySearch].  The answer is [None] when the fuel runs
    out, and also where [array[middleIndex]] would be [undefined], which the
    comparator of [findSymbol] cannot take; neither happens (see
    [binarySearch_total]). *)
Fixpoint binarySearchLoop {TItem TValue} (array : list TItem) (element : TValue)
    (compareFunction : TValue → TItem → JsNumber) (fuel : nat)
    (leftIndex rightIndex : Z) : option Z :=
  match fuel with
  | 0 => None
  | S fuel =>
      if (leftIndex <=? rightIndex)%Z then
        let middleIndex := (leftIndex + Z.shiftr (rightIndex - leftIndex) 1)%Z in
        item ← array !! Z.to_nat middleIndex;
        let cmp := compareFunction element item in
        if aboveZero cmp then
          binarySearchLoop array element compareFunction fuel (middleIndex + 1)%Z rightIndex
        else if belowZero cmp then
          binarySearchLoop array element compareFunction fuel leftIndex (middleIndex - 1)%Z
        else Some middleIndex
      else Some (- leftIndex - 1)%Z
  end.

Definition binarySearch {TItem TValue} (array : list TItem) (element : TValue)
    (compareFunction : TValue → TItem → JsNumber) : option Z :=
  binarySearchLoop array element compareFunction (S (length array))
    0%Z (Z.of_nat (length array) - 1)%Z.

(** [findSymbol]; the outer [option] is the fuel of the search, the inner
    one the [undefined] of the source. *)
Definition findSymbol (line_ column_ : nat) (d : ParsedDocument)
    : option (option Reference.t) :=
  index_ ← binarySearch (references d) (line_, column_)
             (λ position reference, Num (comparePosition position reference));
  Some (if (index_ >=? 0)%Z then references d !! Z.to_nat index_ else None).

End ParsedDocument.

(** ** schema.ts *)

(** A schema, with the properties the validator reads; the descriptions of
    the table are left out. *)
Inductive Schema :=
| MkSchema (type : jstring) (required : bool)
    (structure : option (list (jstring * Schema)))
    (anyMember member key value : option Schema).

Module SchemaTable.
Definition ofType (type : string) : Schema :=
  MkSchema (js type) false None None None None None.

Definition memberSchema : Schema := ofType "member".

Definition listOfMembers : Schema :=
  MkSchema (js "list") false None None (Some memberSchema) None None.

Definition structureOf (fields : list (string * Schema)) : Schema :=
  MkSchema (js "structure") false (Some (prod_map js id <$> fields))
    None None None None.

Definition anyMemberStructure : Schema :=
  MkSchema (js "structure") false None (Some memberSchema) None None None.

Definition mapOf (key value : Schema) : Schema :=
  MkSchema (js "map") false None None None (Some key) (Some value).

Definition table : list (jstring * Schema) :=
  prod_map js id <$>
  [ ("member", memberSchema);
    ("list", structureOf [("member", memberSchema)]);
    ("set", structureOf [("member", memberSchema)]);
    ("map", structureOf [("key", memberSchema); ("value", memberSchema)]);
    ("structure", anyMemberStructure);
    ("union", anyMemberStructure);
    ("service",
      structureOf
        [ ("version", MkSchema (js "string") true None None None None None);
          ("operations", listOfMembers);
          ("resources", listOfMembers);
          ("rename", mapOf (ofType "string") (ofType "string")) ]);
    ("operation",
      structureOf
        [ ("input", memberSchema);
          ("output", memberSchema);
          ("errors", listOfMembers) ]);
    ("resource",
      structureOf
        [ ("identifiers", mapOf (ofType "identifier") memberSchema);
          ("create", memberSchema);
          ("put", memberSchema);
          ("read", memberSchema);
          ("update", memberSchema);
          ("delete", memberSchema);
          ("list", memberSchema);
          ("operations", listOfMembers);
          ("collectionOperations", listOfMembers);
          ("resources", listOfMembers) ]) ]%string.

(** [Schema[name]]. *)
Definition Schema (name : jstring) : option Schema :=
  (λ found, found.2.2) <$> list_find (λ entry, entry.1 = name) table.
End SchemaTable.

(** ** Object literals *)

(** The object that [expectNodeObject] fills: its own properties in the
    order of their creation. *)
Module JsObject.
Section WithValue.
Context {V : Type}.

Definition get (key : jstring) (o : list (jstring * V)) : option V :=
  (λ found, found.2.2) <$> list_find (λ entry, entry.1 = key) o.

(** [o[key]] is truthy, for an object whose own properties are objects:
    it has the property, or inherits the name. *)
Definition has (key : jstring) (o : list (jstring * V)) : bool :=
  defined (get key o) || inherited key.

(** [o[key] = v]: an existing property keeps its place. *)
Fixpoint set (key : jstring) (v : V) (o : list (jstring * V)) : list (jstring * V) :=
  match o with
  | [] => [(key, v)]
  | (k, w) :: o' =>
      if bool_decide (k = key) then (k, v) :: o' else (k, w) :: set key v o'
  end.

(** A property name that is an array index: a canonical decimal numeral
    below 2^32 - 1. *)
Definition digitsValue (s : jstring) : N :=
  foldl (λ acc c, acc * 10 + (c - 48))%N 0%N s.

Definition arrayIndex (key : jstring) : option N :=
  match key with
  | [] => None
  | c :: rest =>
      if forallb (λ c, (48 <=? c) && (c <=? 57))%N key
         && (negb (bool_decide (c = 48%N)) || bool_decide (rest = []))
         && (digitsValue key <? 4294967295)%N
      then Some (digitsValue key) else None
  end.

Fixpoint insertByIndex (entry : N * (jstring * V)) (l : list (N * (jstring * V)))
    : list (N * (jstring * V)) :=
  match l with
  | [] => [entry]
  | e :: l' => if (entry.1 <=? e.1)%N then entry :: l else e :: insertByIndex entry l'
  end.

(** [Object.entries]: array indices first, in ascending order, then the
    other names in the order of their creation. *)
Definition entries (o : list (jstring * V)) : list (jstring * V) :=
  (snd <$> foldr insertByIndex []
             (omap (λ entry, (λ i, (i, entry)) <$> arrayIndex entry.1) o))
  ++ filter (λ entry, arrayIndex entry.1 = None) o.

End WithValue.
End JsObject.

(** ** Parser.ts *)

Record Parser := mkParser {
  currentToken : Token.t;
  tokens : list Token.t;
  parsedDocument : ParsedDocument;
}.

(** How a call ends: normally, with an exception, or cut short by the
    fuel of the embedding.  An exception comes with the parser as it was
    when the step that threw began; no caller catches it. *)
Inductive Outcome (A : Type) :=
| Done (a : A) (p : Parser)
| Thrown (p : Parser)
| OutOfFuel.
Arguments Done {A} a p.
Arguments Thrown {A} p.
Arguments OutOfFuel {A}.

(** Methods of the parser: functions of its state. *)
Definition M (A : Type) : Type := Parser → Outcome A.

Definition ret {A} (a : A) : M A := λ p, Done a p.

Definition bind {A B} (m : M A) (k : A → M B) : M B := λ p,
  match m p with
  | Done a p' => k a p'
  | Thrown p' => Thrown p'
  | OutOfFuel => OutOfFuel
  end.

Declare Scope parser_scope.
Delimit Scope parser_scope with parser.
Notation "x ← y ; z" := (bind y (λ x, z))
  (at level 20, y at level 100, z at level 200, only parsing) : parser_scope.
Notation "x ;; z" := (bind x (λ _, z))
  (at level 100, z at level 200, only parsing, right associativity) : parser_scope.

Module Parser.
Local Open Scope parser_scope.

(** The token [advanceToken] falls back on before any token was read; it
    has no [text] and no [value], and neither is ever read. *)
Definition noToken : Token.t :=
  {| Token.type := TokenType.End;
     Token.range := {| start := {| index := 0; line := 0; column := 0 |};
                       end_ := {| index := 0; line := 0; column := 0 |} |};
     Token.text := [];
     Token.value := [] |}.

Definition asEnd (t : Token.t) : Token.t :=
  {| Token.type := TokenType.End; Token.range := Token.range t;
     Token.text := Token.text t; Token.value := Token.value t |}.

(** The effect of [advanceToken] on the parser; [tokens] is what the
    generator has yet to yield. *)
Definition advanced (p : Parser) : Parser :=
  match tokens p with
  | t :: rest =>
      {| currentToken := t; tokens := rest; parsedDocument := parsedDocument p |}
  | [] =>
      {| currentToken := asEnd (currentToken p); tokens := [];
         parsedDocument := parsedDocument p |}
  end.

(** The constructor. *)
Definition new (tokens : list Token.t) (parsedDocument : ParsedDocument) : Parser :=
  advanced {| currentToken := noToken; tokens := tokens;
              parsedDocument := parsedDocument |}.

Definition advanceToken : M unit := λ p, Done () (advanced p).

Definition token : M Token.t := λ p, Done (currentToken p) p.

Definition document : M ParsedDocument := λ p, Done (parsedDocument p) p.

(** A method of the parsed document called for its effect. *)
Definition update (f : ParsedDocument → ParsedDocument) : M unit := λ p,
  Done () {| currentToken := currentToken p; tokens := tokens p;
             parsedDocument := f (parsedDocument p) |}.

(** The same for a call that may throw. *)
Definition updateOrThrow (f : ParsedDocument → option ParsedDocument) : M unit := λ p,
  match f (parsedDocument p) with
  | Some d => Done () {| currentToken := currentToken p; tokens := tokens p;
                         parsedDocument := d |}
  | None => Thrown p
  end.

Definition outOfFuel {A} : M A := λ _, OutOfFuel.

Definition throw {A} : M A := λ p, Thrown p.

Definition addMessage (text : jstring) (token : Token.t)
    (type : option MessageType.t) (after : bool) : M unit :=
  update (ParsedDocument.addMessage text token type after).

Definition isDelimiter (value : string) : M bool := λ p,
  Done (bool_decide (Token.type (currentToken p) = TokenType.Delimiter)
        && bool_decide (Token.value (currentToken p) = js value)) p.

Definition expectIdentifier : M (option Token.t) :=
  identifierToken ← token;
  if bool_decide (Token.type identifierToken = TokenType.Identifier)
  then advanceToken;; ret (Some identifierToken)
  else ret None.

(** The name of a token type, as a template string prints it. *)
Definition typeName (t : TokenType.t) : jstring :=
  js match t with
     | TokenType.Error => "Error"
     | TokenType.Comment => "Comment"
     | TokenType.DocumentationComment => "DocumentationComment"
     | TokenType.Delimiter => "Delimiter"
     | TokenType.String => "String"
     | TokenType.Number => "Number"
     | TokenType.Identifier => "Identifier"
     | TokenType.End => "End"
     end%string.

Definition isLiteral (t : TokenType.t) : bool :=
  match t with
  | TokenType.String | TokenType.Number | TokenType.Identifier => true
  | _ => false
  end.

Definition startsWith (c : N) (s : jstring) : bool := bool_decide (head s = Some c).

(** The look-ahead that keeps the loop of [expectKeyValuePair] going: an
    identifier that starts with an at sign. *)
Definition isTrait (t : Token.t) : bool :=
  bool_decide (Token.type t = TokenType.Identifier)
  && startsWith Ch.at_ (Token.value t).

(** A value that is [undefined] printed by a template string. *)
Definition printed (s : option jstring) : jstring := default (js "undefined") s.

Definition aggregateKeywords : list jstring :=
  js <$> ["list"; "set"; "map"; "structure"; "union"; "service"; "operation";
          "resource"]%string.

Definition simpleKeywords : list jstring :=
  js <$> ["string"; "blob"; "boolean"; "document"; "byte"; "short"; "integer";
          "long"; "float"; "double"; "bigInteger"; "bigDecimal";
          "timestamp"]%string.

(** The version format of a control statement: one digit, or two digits
    with a dot between them. *)
Definition isVersion (s : jstring) : bool :=
  match s with
  | [a] => Lexer.isDigit a
  | [a; dot; b] => Lexer.isDigit a && bool_decide (dot = Ch.dot) && Lexer.isDigit b
  | _ => false
  end.

Section WithBuiltins.

(** Built-in functions of the language that the parser calls:
    the truthiness of [Number(numeral)], [JSON.stringify], and
    [encodeURIComponent], which throws on some strings. *)
Variable numberIsTruthy : jstring → bool.
Variable JSON_stringify : option Node → jstring.
Variable encodeURIComponent : jstring → option jstring.

(** Whether a name is that of a method which arrays inherit from
    [Array.prototype]; which names are depends on the version of the
    engine. *)
Variable arrayMethod : jstring → bool.

Definition valueIsTruthy (v : option Value) : bool :=
  match v with
  | None | Some VUndefined => false
  | Some (VString s) => negb (bool_decide (s = []))
  | Some (VNumber numeral) => numberIsTruthy numeral
  | Some (VObject _) | Some (VArray _) => true
  end.

(** *** The dictionaries of metadata and of controls

    Both start as [{}], are read with [dictionary[key]] and written with
    [dictionary[key] = value].  Written under the key [__proto__], an
    object or an array becomes the prototype of the dictionary and any
    other value is dropped; no property is made.  The finite map keeps
    that prototype under the key [__proto__], which can name no property
    of the dictionary's own. *)

(** [prototype[key]] is truthy, for a prototype that is an object or an
    array made by the parser: own properties first, then what it inherits
    in its turn. *)
Definition readThrough (prototype : Value) (key : jstring) : bool :=
  match prototype with
  | VObject entries => JsObject.has key entries
  | VArray items =>
      match JsObject.arrayIndex key with
      | Some i => from_option defined false (items !! N.to_nat i)
      | None =>
          if bool_decide (key = js "length") then negb (bool_decide (items = []))
          else arrayMethod key || inherited key
      end
  | _ => inherited key
  end.

(** [dictionary[key]] is truthy. *)
Definition read (dictionary : gmap jstring Value) (key : jstring) : bool :=
  match dictionary !! key with
  | Some v => valueIsTruthy (Some v)
  | None =>
      match dictionary !! js "__proto__" with
      | Some prototype => readThrough prototype key
      | None => inherited key
      end
  end.

(** [dictionary[key] = value]. *)
Definition write (key : jstring) (value : Value) (dictionary : gmap jstring Value)
    : gmap jstring Value :=
  if bool_decide (key = js "__proto__") then
    match value with
    | VObject _ | VArray _ => <[key := value]> dictionary
    | _ => dictionary
    end
  else <[key := value]> dictionary.

(** Loops over document effects that may throw. *)
Definition forEach {A} (f : A → ParsedDocument → option ParsedDocument)
    (l : list A) (d : ParsedDocument) : option ParsedDocument :=
  foldl (λ acc a, acc ≫= f a) (Some d) l.

Definition addMemberReference (value : Node) (d : ParsedDocument) : ParsedDocument :=
  match Node.token value with
  | Some t =>
      if bool_decide (Token.type t = TokenType.Identifier)
      then ParsedDocument.addReference (Identifier.new (Token.value t)) t
             ReferenceType.Member d
      else ParsedDocument.addMessage (js "Expected shape identifier.") t None false d
  | None => d
  end.

Definition isBrace (value : string) (t : Token.t) : bool :=
  bool_decide (Token.type t = TokenType.Delimiter)
  && bool_decide (Token.value t = js value).

Definition keyAsNode (k : Key) : Node :=
  MkNode None (VString (keyValue k)) (Some (keyToken k)).

(** [validateValueAgainstSchema] where the schema is what the structure
    of a schema inherits under the name of a field: it is truthy and has
    no [type]. *)
Definition validateAgainstInherited (identifierToken : Token.t) (node : Node)
    (d : ParsedDocument) : ParsedDocument :=
  match Node.token node with
  | Some nodeToken =>
      ParsedDocument.addMessage (js "Not implemented yet undefined.") nodeToken
        None false d
  | None =>
      ParsedDocument.addMessage (js "Expected a value." ++ JSON_stringify (Some node))
        identifierToken None false d
  end.

(** [validateValueAgainstSchema] for a schema that is present.  Every
    recursive call is on a part of the schema.  [None] is an exception:
    reading a property of an item of a list that is [undefined], or of a
    value that is not an object where the token says it is one (a node
    whose token is an opening brace always carries an object). *)
Fixpoint validateAgainst (schema : Schema) (identifierToken : Token.t)
    (node : option Node) (d : ParsedDocument) {struct schema}
    : option ParsedDocument :=
  (let 'MkSchema type _ structure anyMember member key value := schema in
  let message text t := ParsedDocument.addMessage text t None false in
  match node with
  | Some (MkNode nodeKey nodeValue (Some nodeToken) as theNode) =>
      if bool_decide (type = js "identifier") then
        Some (if bool_decide (Token.type nodeToken ≠ TokenType.Identifier)
              then message (js "Expected an identifier.") nodeToken d else d)
      else if bool_decide (type = js "member") then
        Some (if bool_decide (Token.type nodeToken ≠ TokenType.Identifier)
              then message (js "Expected an identifier.") nodeToken d
              else addMemberReference theNode d)
      else if bool_decide (type = js "structure") then
        if negb (isBrace "{" nodeToken)
        then Some (message (js "Expected an object.") nodeToken d)
        else
          match nodeValue with
          | VObject fields =>
              let validateAny tok n d :=
                match anyMember with
                | Some s => validateAgainst s tok n d
                | None => Some d
                end in
              d ← match structure with
                  | Some fieldSchemas =>
                      let validators :=
                        (λ entry : jstring * Schema,
                           (entry.1, validateAgainst entry.2)) <$> fieldSchemas in
                      let d :=
                        foldl (λ d (entry : jstring * Schema),
                                 let 'MkSchema _ required _ _ _ _ _ := entry.2 in
                                 if required && negb (JsObject.has entry.1 fields)
                                 then message (js "Missing '" ++ entry.1 ++ js "' member.")
                                        identifierToken d
                                 else d)
                          d fieldSchemas in
                      forEach
                        (λ (entry : jstring * Node) d,
                           let '(fieldName, fieldValue) := entry in
                           let fieldToken := default identifierToken (Node.token fieldValue) in
                           match anyMember with
                           | Some s => validateAgainst s fieldToken (Some fieldValue) d
                           | None =>
                               match JsObject.get fieldName validators with
                               | Some validate => validate fieldToken (Some fieldValue) d
                               | None =>
                                   if inherited fieldName
                                   then Some (validateAgainstInherited fieldToken fieldValue d)
                                   else
                                     Some (message
                                             (js "Unexpected member '" ++ fieldName ++ js "'.")
                                             (from_option keyToken identifierToken
                                                (Node.key fieldValue)) d)
                               end
                           end)
                        (JsObject.entries fields) d
                  | None => Some d
                  end;
              forEach
                (λ (entry : jstring * Node) d,
                   validateAny (default identifierToken (Node.token entry.2))
                     (Some entry.2) d)
                (JsObject.entries fields) d
          | _ => None
          end
      else if bool_decide (type = js "list") then
        match nodeValue with
        | VArray items =>
            if negb (isBrace "[" nodeToken)
            then Some (message (js "Expected a list.") nodeToken d)
            else
              forEach
                (λ (itemValue : option Node) d,
                   match itemValue with
                   | Some item =>
                       match member with
                       | Some s =>
                           validateAgainst s (default identifierToken (Node.token item))
                             itemValue d
                       | None => Some d
                       end
                   | None => None
                   end)
                items d
        | _ => Some (message (js "Expected a list.") nodeToken d)
        end
      else if bool_decide (type = js "map") then
        if negb (isBrace "{" nodeToken)
        then Some (message (js "Expected a map.") nodeToken d)
        else
          match nodeValue with
          | VObject fields =>
              forEach
                (λ (entry : jstring * Node) d,
                   let fieldValue := entry.2 in
                   d ← match key with
                       | Some s =>
                           validateAgainst s
                             (from_option keyToken identifierToken (Node.key fieldValue))
                             (keyAsNode <$> Node.key fieldValue) d
                       | None => Some d
                       end;
                   match value with
                   | Some s =>
                       validateAgainst s
                         (default identifierToken (Node.token fieldValue))
                         (Some fieldValue) d
                   | None => Some d
                   end)
                (JsObject.entries fields) d
          | _ => None
          end
      else if bool_decide (type = js "string") then
        Some (if bool_decide (Token.type nodeToken ≠ TokenType.String)
              then message (js "Expected a string.") nodeToken d else d)
      else
        Some (message (js "Not implemented yet " ++ type ++ js ".") nodeToken d)
  | _ =>
      Some (message (js "Expected a value." ++ JSON_stringify node) identifierToken d)
  end)%stdpp.

Definition validateValueAgainstSchema (identifierToken : Token.t)
    (node : option Node) (schema : option Schema) (d : ParsedDocument)
    : option ParsedDocument :=
  match schema with
  | Some s => validateAgainst s identifierToken node d
  | None => Some d
  end.

(** [addMember]; a pair stored by [expectNodeObject] has a key, and
    reading the token of a missing one would throw. *)
Definition addMember (identifier : Identifier.t) (value : Node)
    (d : ParsedDocument) : option ParsedDocument :=
  (k ← Node.key value;
   let memberIdentifier := Identifier.forMember identifier (Token.value (keyToken k)) in
   d ← ParsedDocument.addShape memberIdentifier (keyToken k) d;
   Some (ParsedDocument.addReference memberIdentifier (keyToken k) ReferenceType.Shape
           d))%stdpp.

(** The result of [{ key, ...value }]. *)
Definition withKey (k : option Key) (value : option Node) : Node :=
  match value with
  | Some v => MkNode k (Node.value v) (Node.token v)
  | None => MkNode k VUndefined None
  end.

(** The literal of a token as a node value; a number is kept as the
    numeral handed to [Number]. *)
Definition literal (t : Token.t) : Value :=
  if bool_decide (Token.type t = TokenType.Number)
  then VNumber (Token.value t) else VString (Token.value t).

(** What [expectNodeObject] does with a pair it has parsed. *)
Definition storePair (pair : option Node) (value : list (jstring * Node))
    : M (list (jstring * Node)) :=
  match pair with
  | Some (MkNode (Some k) _ _ as thePair) =>
      if JsObject.has (keyValue k) value then
        addMessage (js "Key '" ++ keyValue k ++ js "' is already defined.")
          (keyToken k) None false;;
        ret (JsObject.set (keyValue k ++ js (pretty (length value))) thePair value)
      else ret (JsObject.set (keyValue k) thePair value)
  | _ => ret value
  end.

(** The recursive descent.  The loops of [expectTrait],
    [expectKeyValuePair], [expectArrayObject] and [expectNodeObject] are
    functions of their own. *)
Fixpoint expectTrait (fuel : nat) (previousToken : Token.t) : M unit :=
  match fuel with
  | 0 => outOfFuel
  | S fuel =>
      identifierToken ← expectIdentifier;
      match identifierToken with
      | Some t =>
          if negb (startsWith Ch.at_ (Token.text t))
             || bool_decide (length (Token.text t) = 1)
          then addMessage (js "Expected trait name.") previousToken None false
          else
            update (ParsedDocument.addReference
                      (Identifier.new (drop 1 (Token.value t))) t ReferenceType.Trait);;
            open ← isDelimiter "(";
            if open then
              traitArguments fuel;;
              closed ← isDelimiter ")";
              (if closed then ret ()
               else cur ← token; addMessage (js "Expected ')'.") cur None false);;
              advanceToken
            else ret ()
      | None => addMessage (js "Expected trait name.") previousToken None false
      end
  end

with traitArguments (fuel : nat) : M unit :=
  match fuel with
  | 0 => outOfFuel
  | S fuel =>
      advanceToken;;
      closed ← isDelimiter ")";
      if closed then ret ()
      else
        expectKeyValuePair fuel true None;;
        more ← isDelimiter ",";
        if more then traitArguments fuel else ret ()
  end

with leadingTraits (fuel : nat) : M unit :=
  match fuel with
  | 0 => outOfFuel
  | S fuel =>
      cur ← token;
      if isTrait cur then expectTrait fuel cur;; leadingTraits fuel else ret ()
  end

with expectKeyValuePair (fuel : nat) (optionalKey : bool)
    (delimiterOption : option string) : M (option Node) :=
  match fuel with
  | 0 => outOfFuel
  | S fuel =>
      leadingTraits fuel;;
      first ← token;
      let isKey := isLiteral (Token.type first) in
      if negb isKey && negb optionalKey then
        addMessage (js "Expected key.") first None false;; ret None
      else
        (if isKey then advanceToken else ret ());;
        let key :=
          if isKey then Some {| keyValue := Token.value first; keyToken := first |}
          else None in
        let delimiter := default ":"%string delimiterOption in
        hasKey ← isDelimiter delimiter;
        if negb optionalKey && negb hasKey then
          cur ← token;
          addMessage (js "Expected '" ++ js delimiter ++ js " ([object Object])'.")
            cur None false;;
          ret (Some (MkNode None VUndefined (Some first)))
        else
          (if hasKey then advanceToken else ret ());;
          cur ← token;
          let valueToken := if hasKey then cur else first in
          value ←
            (if isLiteral (Token.type valueToken) then
               (if hasKey then advanceToken else ret ());;
               ret (Some (MkNode None (literal valueToken) (Some valueToken)))
             else if bool_decide (Token.type valueToken = TokenType.Delimiter) then
               if bool_decide (Token.value valueToken = js "[") then
                 expectArrayObject fuel
               else if bool_decide (Token.value valueToken = js "{") then
                 expectNodeObject fuel valueToken
               else
                 cur ← token;
                 addMessage
                   (js "Expected value but found a delimiter. " ++ Token.value valueToken)
                   cur None false;;
                 ret None
             else
               cur ← token;
               addMessage (js "Expected value. " ++ typeName (Token.type valueToken))
                 cur None false;;
               ret None);
          ret (Some (withKey key value))
  end

with expectValue (fuel : nat) : M (option Node) :=
  match fuel with
  | 0 => outOfFuel
  | S fuel =>
      first ← token;
      if isLiteral (Token.type first) then
        advanceToken;; ret (Some (MkNode None VUndefined (Some first)))
      else if bool_decide (Token.type first = TokenType.Delimiter) then
        if bool_decide (Token.value first = js "[") then expectArrayObject fuel
        else if bool_decide (Token.value first = js "{") then
          expectNodeObject fuel first
        else ret None
      else
        addMessage (js "Expected value.") first None false;; ret None
  end

with expectArrayObject (fuel : nat) : M (option Node) :=
  match fuel with
  | 0 => outOfFuel
  | S fuel =>
      open ← isDelimiter "[";
      if negb open then
        cur ← token; addMessage (js "Expected '['.") cur None false;; ret None
      else
        first ← token;
        value ← arrayItems fuel [];
        closed ← isDelimiter "]";
        (if closed then ret ()
         else cur ← token; addMessage (js "Expected ']'.") cur None false);;
        advanceToken;;
        ret (Some (MkNode None (VArray value) (Some first)))
  end

with arrayItems (fuel : nat) (value : list (option Node)) : M (list (option Node)) :=
  match fuel with
  | 0 => outOfFuel
  | S fuel =>
      advanceToken;;
      closed ← isDelimiter "]";
      if closed then ret value
      else
        item ← expectValue fuel;
        let value := value ++ [item] in
        more ← isDelimiter ",";
        if more then arrayItems fuel value else ret value
  end

with expectNodeObject (fuel : nat) (afterToken : Token.t) : M (option Node) :=
  match fuel with
  | 0 => outOfFuel
  | S fuel =>
      open ← isDelimiter "{";
      if negb open then
        cur ← token;
        addMessage (js "Expected '{'. " ++ typeName (Token.type cur)) afterToken None true;;
        ret None
      else
        first ← token;
        value ← objectPairs fuel [];
        closed ← isDelimiter "}";
        (if closed then ret ()
         else cur ← token; addMessage (js "Expected '}'.") cur None false);;
        advanceToken;;
        ret (Some (MkNode None (VObject value) (Some first)))
  end

with objectPairs (fuel : nat) (value : list (jstring * Node))
    : M (list (jstring * Node)) :=
  match fuel with
  | 0 => outOfFuel
  | S fuel =>
      advanceToken;;
      closed ← isDelimiter "}";
      if closed then ret value
      else
        pair ← expectKeyValuePair fuel false None;
        value ← storePair pair value;
        more ← isDelimiter ",";
        if more then objectPairs fuel value else ret value
  end.

Definition expectControlStatement (fuel : nat) : M unit :=
  first ← token;
  (if negb (startsWith Ch.dollar (Token.value first))
   then addMessage (js "Expected control statement key.") first None false
   else ret ());;
  let separatedPrefix := bool_decide (length (Token.value first) = 1) in
  (if separatedPrefix then advanceToken else ret ());;
  node ← expectKeyValuePair fuel false None;
  cur ← token;
  let value := Node.value <$> node in
  let keyNode := node ≫= Node.key in
  let keyValue :=
    if negb separatedPrefix
       && bool_decide (Token.type <$> (keyToken <$> keyNode) = Some TokenType.Identifier)
    then drop 1 <$> (keyValue <$> keyNode)
    else keyValue <$> keyNode in
  (if bool_decide (keyValue = Some (js "version")) then
     match value with
     | Some (VString s) =>
         if negb (isVersion s)
         then addMessage
                (js "Version value must be in format 'major' or 'major.minor'.")
                (default cur (node ≫= Node.token)) None false
         else ret ()
     | _ =>
         addMessage (js "Version value must be a string.")
           (default cur (node ≫= Node.token)) None false
     end
   else
     addMessage (js "Only 'version' is supported.")
       (from_option keyToken cur keyNode) (Some MessageType.Warning) false);;
  d ← document;
  (if read (controls d) (printed keyValue)
   then addMessage (js "Control '" ++ printed keyValue ++ js "' is already defined.")
          (from_option keyToken cur keyNode) (Some MessageType.Error) false
   else ret ());;
  update (λ d, ParsedDocument.withControls
                 (write (printed keyValue) (default VUndefined value) (controls d)) d).

(** The body of the loop of [parse]: one statement. *)
Definition statement (fuel : nat) : M unit :=
  statementToken ← token;
  let keyword := Token.value statementToken in
  if bool_decide (Token.type statementToken = TokenType.Identifier) then
    if bool_decide (keyword = js "metadata") then
      update (ParsedDocument.enterSection Section_.Metadata statementToken);;
      advanceToken;;
      node ← expectKeyValuePair fuel false (Some "="%string);
      cur ← token;
      let value := Node.value <$> node in
      let keyNode := node ≫= Node.key in
      let keyValue := printed (keyValue <$> keyNode) in
      d ← document;
      (if read (metadata d) keyValue
       then addMessage (js "Metadata '" ++ keyValue ++ js "' is already defined.")
              (from_option keyToken cur keyNode) (Some MessageType.Warning) false
       else ret ());;
      update (λ d, ParsedDocument.withMetadata
                     (write keyValue (default VUndefined value) (metadata d)) d)
    else if bool_decide (keyword = js "namespace") then
      update (ParsedDocument.enterSection Section_.Shape statementToken);;
      d ← document;
      (if defined (namespace d)
       then addMessage (js "Namespace was already defined as '[object Object]'.")
              statementToken None false
       else ret ());;
      advanceToken;;
      cur ← token;
      if bool_decide (Token.type cur ≠ TokenType.Identifier) then
        addMessage (js "Expected namespace.") statementToken None false
      else
        update (ParsedDocument.withNamespace (Some (Token.value cur)));;
        advanceToken
    else if bool_decide (keyword = js "use") then
      update (ParsedDocument.enterSection Section_.Shape statementToken);;
      advanceToken;;
      identifierToken ← expectIdentifier;
      match identifierToken with
      | None => addMessage (js "Expected shape ID.") statementToken None true
      | Some t =>
          let identifier := Identifier.new (Token.value t) in
          (match Identifier.namespace identifier with
           | None => addMessage (js "Shape ID must be absolute.") t None false
           | Some [] => addMessage (js "Missing namespace.") t None false
           | Some _ => ret ()
           end);;
          (if defined (Identifier.member identifier)
           then addMessage
                  (js "Shapes IDs with member names cannot be imported with a use statement.")
                  t None false
           else ret ());;
          updateOrThrow (ParsedDocument.addShape identifier t);;
          update (ParsedDocument.addReference identifier t ReferenceType.Use)
      end
    else if bool_decide (keyword = js "apply") then
      update (ParsedDocument.enterSection Section_.Shape statementToken);;
      advanceToken;;
      identifierToken ← expectIdentifier;
      match identifierToken with
      | None => addMessage (js "Expected shape ID.") statementToken None true
      | Some t =>
          update (ParsedDocument.addReference (Identifier.new (Token.value t)) t
                    ReferenceType.Apply);;
          expectTrait fuel statementToken
      end
    else if bool_decide (keyword ∈ aggregateKeywords) then
      update (ParsedDocument.enterSection Section_.Shape statementToken);;
      advanceToken;;
      identifierToken ← expectIdentifier;
      (if defined identifierToken then ret ()
       else addMessage (js "Expected " ++ keyword ++ js " name.") statementToken None true);;
      node ← expectNodeObject fuel (default statementToken identifierToken);
      match identifierToken with
      | None => ret ()
      | Some t =>
          let identifier := Identifier.new (Token.value t) in
          updateOrThrow (ParsedDocument.addShape identifier t);;
          update (ParsedDocument.addReference identifier t ReferenceType.Shape);;
          match node with
          | None => ret ()
          | Some theNode =>
              updateOrThrow
                (validateValueAgainstSchema t node (SchemaTable.Schema keyword));;
              updateOrThrow
                (λ d, match Node.value theNode with
                      | VObject fields =>
                          forEach (λ entry : jstring * Node, addMember identifier entry.2)
                            (JsObject.entries fields) d
                      | _ => None
                      end)
          end
      end
    else if bool_decide (keyword ∈ simpleKeywords) then
      update (ParsedDocument.enterSection Section_.Shape statementToken);;
      advanceToken;;
      identifierToken ← expectIdentifier;
      match identifierToken with
      | None =>
          addMessage (js "Expected " ++ keyword ++ js " name.") statementToken None true
      | Some t =>
          let identifier := Identifier.new (Token.value t) in
          updateOrThrow (ParsedDocument.addShape identifier t);;
          update (ParsedDocument.addReference identifier t ReferenceType.Shape)
      end
    else if startsWith Ch.at_ keyword then
      expectTrait fuel statementToken
    else if startsWith Ch.dollar keyword then
      update (ParsedDocument.enterSection Section_.Control statementToken);;
      expectControlStatement fuel
    else
      addMessage (js "Unexpected identifier: " ++ keyword) statementToken None false;;
      advanceToken
  else
    match encodeURIComponent keyword with
    | Some encoded =>
        addMessage (js "Unexpected token: " ++ keyword ++ js " (" ++ encoded ++ js ")")
          statementToken None false;;
        advanceToken
    | None => throw
    end.

(** [parse]: statements until the look-ahead is the End token. *)
Fixpoint parse (fuel : nat) : M unit :=
  match fuel with
  | 0 => outOfFuel
  | S fuel =>
      cur ← token;
      if bool_decide (Token.type cur ≠ TokenType.End)
      then statement fuel;; parse fuel
      else update ParsedDocument.finishParsing
  end.

End WithBuiltins.
End Parser.

(** ** Model.ts *)

Module Model.
Section WithBuiltins.
Variable numberIsTruthy : jstring → bool.
Variable JSON_stringify : option Node → jstring.
Variable encodeURIComponent : jstring → option jstring.
Variable arrayMethod : jstring → bool.

(** How a call of [parseDocument] ends: with the parsed document, with an
    exception of the parser, or cut short by the fuel of the embedding. *)
Inductive Answer :=
| Returned (d : ParsedDocument)
| Threw
| Unfinished.

(** [parseDocument]: the lines handed to [log], and the answer.  The
    parser resumes the generator of the lexer once for every token it
    asks for.  It is given the tokens that the generator yields within the
    fuel; where the generator has not come to its end within the fuel, a
    parser that asks for a token after the last of these gets no answer.
    It has asked for one when its look-ahead is an End token, since the
    lexer yields none: always when it returns, and when it throws with
    that look-ahead. *)
Definition parseDocument (uri text : jstring) (fuel : nat) : list jstring * Answer :=
  ([js "Parsing document: " ++ uri],
   let '(tokens, finished) := Lexer.yieldedWithin text fuel in
   match Parser.parse numberIsTruthy JSON_stringify encodeURIComponent arrayMethod fuel
           (Parser.new tokens (ParsedDocument.new uri)) with
   | Done _ p => if finished then Returned (parsedDocument p) else Unfinished
   | Thrown p =>
       if finished || bool_decide (Token.type (currentToken p) ≠ TokenType.End)
       then Threw else Unfinished
   | OutOfFuel => Unfinished
   end).

End WithBuiltins.
End Model.

(** ** extension.ts *)

(** The part of the client that chooses the workspace folder a language
    server is started for.  A workspace folder is known by the string of
    its URI; [workspace.getWorkspaceFolder(Uri.parse(element))] belongs to
    the editor and is a parameter here.  [sortedWorkspaceFolders] caches
    its result until the folders of the workspace change, so that it is a
    function of the folders. *)
Module Extension.
Section WithWorkspace.
Variable WorkspaceFolder : Type.
Variable uriToString : WorkspaceFolder → jstring.
Variable getWorkspaceFolder : jstring → option WorkspaceFolder.

Definition appendTrailingSlash (text : jstring) : jstring :=
  if bool_decide (last text ≠ Some Ch.slash) then text ++ [Ch.slash] else text.

(** [workspace.workspaceFolders] is [undefined] when no folder is open. *)
Definition sortedWorkspaceFolders (workspaceFolders : option (list WorkspaceFolder))
    : list jstring :=
  match workspaceFolders with
  | Some folders =>
      ParsedDocument.sort
        (λ a b, (Z.of_nat (length a) - Z.of_nat (length b))%Z)
        ((λ folder, appendTrailingSlash (uriToString folder)) <$> folders)
  | None => []
  end.

(** The loop of [getOuterMostWorkspaceFolder] over the sorted URIs. *)
Fixpoint outerMost (uri : jstring) (elements : list jstring) : option jstring :=
  match elements with
  | [] => None
  | element :: elements =>
      if bool_decide (element `prefix_of` uri) then Some element
      else outerMost uri elements
  end.

Definition getOuterMostWorkspaceFolder
    (workspaceFolders : option (list WorkspaceFolder)) (folder : WorkspaceFolder)
    : option WorkspaceFolder :=
  match outerMost (appendTrailingSlash (uriToString folder))
          (sortedWorkspaceFolders workspaceFolders) with
  | Some element => getWorkspaceFolder element
  | None => Some folder
  end.

End WithWorkspace.
End Extension.

(** ** What the specification says of the lexer *)

Module LexerSpec.
Import Lexer.

(** The position a character offset has in a text: [line] counts the line
    feeds before the offset, [column] the characters after the last of
    them. *)
Fixpoint lastLine (s : jstring) : jstring :=
  match s with
  | [] => []
  | c :: s' => if bool_decide (Ch.lf ∈ s') then lastLine s'
               else if bool_decide (c = Ch.lf) then s' else s
  end.

Definition exactPosition (source : jstring) (i : nat) : Position :=
  let before := take i source in
  {| index := i;
     line := length (filter (λ c, c = Ch.lf) before);
     column := length (lastLine before) |}.

(** A token's range is exact when both ends are the positions of the
    offsets that delimit its text. *)
Definition exactRange (source : jstring) (t : Token.t) : Prop :=
  start (Token.range t) = exactPosition source (index (start (Token.range t)))
  ∧ end_ (Token.range t) = exactPosition source (index (end_ (Token.range t)))
  ∧ Token.text t
    = substring source (index (start (Token.range t))) (index (end_ (Token.range t))).

(** The text the round-trip property of the specification collects: token
    texts and the spans discarded as whitespace, comments and line
    breaks. *)
Definition tokenOrTrivia (p : Piece) : jstring :=
  match p with
  | Yield t => Token.text t
  | Skip UnterminatedString _ => []
  | Skip _ s => s
  end.

End LexerSpec.

(** ** What the specification says of the parsed document *)

Module DocumentSpec.
Import ParsedDocument.

(** The diagnostic [validateReferences] records for a reference. *)
Definition unknownShapeMessage (r : Reference.t) : Message.t :=
  let range := Token.range (Reference.token r) in
  {| Message.type := MessageType.Error;
     Message.text := js "Unknown shape.";
     Message.startIndex :=
       if bool_decide (Token.type (Reference.token r) ≠ TokenType.End)
       then Z.of_nat (index (start range))
       else (Z.of_nat (index (end_ range)) - 1)%Z;
     Message.endIndex := Z.of_nat (index (end_ range)) |}.

(** The test of [validateReferences]: a reference is reported when
    nothing is found under its resolved id in the shapes of [d], its
    identifier is not a recognised prelude, simple-shape or trait name, and
    no tracked document sharing the relevant namespace has something under
    its relative name. *)
Definition isUnknown (parsedFiles : list ParsedDocument) (d : ParsedDocument)
    (r : Reference.t) : bool :=
  negb (has (shapes d) (resolveId (Reference.identifier r) d))
  && negb (isKnownReference (Reference.identifier r))
  && negb (isExternalShape (Reference.identifier r) parsedFiles d).

Definition unknownShapes (parsedFiles : list ParsedDocument) (d : ParsedDocument)
    (r : Reference.t) : list Message.t :=
  if isUnknown parsedFiles d r then [unknownShapeMessage r] else [].

(** The namespace against which a reference of document [d] is looked up
    in the tracked documents: its own when it has one, that of [d]
    otherwise. *)
Definition relevantNamespace (d : ParsedDocument) (identifier : Identifier.t)
    : option jstring :=
  if truthy (Identifier.namespace identifier)
  then Identifier.namespace identifier else namespace d.

(** A document that has finished parsing: the count of structural messages
    is within the list of messages. *)
Definition finished (d : ParsedDocument) : Prop :=
  parsedMessageCount d ≤ length (messages d).

(** The warning of [validateNamespace], if any. *)
Definition namespaceWarning (d : ParsedDocument) : list Message.t :=
  messages (validateNamespace (withMessages [] d)).

(** A reference contains a cursor position when the comparator of
    [findSymbol] answers zero. *)
Definition containsPosition (position : nat * nat) (r : Reference.t) : bool :=
  bool_decide (comparePosition position r = 0%Z).

(** The binary search goes on from an item for which the comparator
    answers a number above or below zero, and stops at any other answer. *)
Definition goesOn {TItem TValue} (element : TValue)
    (compareFunction : TValue → TItem → JsNumber) (item : TItem) : bool :=
  aboveZero (compareFunction element item) || belowZero (compareFunction element item).

(** The linear scan [findSymbol] is compared with. *)
Definition linearScan (position : nat * nat) (references : list Reference.t)
    : option Reference.t :=
  snd <$> list_find (λ r, containsPosition position r = true) references.

(** Lexicographic order on (line, column). *)
Definition positionLe (a b : Position) : Prop :=
  line a < line b ∨ (line a = line b ∧ column a ≤ column b).

Definition startLe (a b : Reference.t) : Prop :=
  positionLe (start (Token.range (Reference.token a)))
             (start (Token.range (Reference.token b))).

Definition sortedByStart (references : list Reference.t) : Prop :=
  ∀ i j a b, i ≤ j → references !! i = Some a → references !! j = Some b →
    positionLe (start (Token.range (Reference.token a)))
               (start (Token.range (Reference.token b))).

Definition sortedByEnd (references : list Reference.t) : Prop :=
  ∀ i j a b, i ≤ j → references !! i = Some a → references !! j = Some b →
    positionLe (end_ (Token.range (Reference.token a)))
               (end_ (Token.range (Reference.token b))).

Definition wellFormedRanges (references : list Reference.t) : Prop :=
  ∀ r, r ∈ references →
    positionLe (start (Token.range (Reference.token r)))
               (end_ (Token.range (Reference.token r))).

(** Putting messages in front of those of a document. *)
Definition prepend (pre : list Message.t) (d : ParsedDocument) : ParsedDocument :=
  withMessages (pre ++ messages d) d.

End DocumentSpec.

(** ** What the specification says of the parser *)

Module ParserSpec.
Import Parser.

(** The tokens the parser has yet to consume: those the generator has not
    yielded, and the look-ahead unless it is the End token. *)
Definition remaining (p : Parser) : nat :=
  length (tokens p)
  + (if bool_decide (Token.type (currentToken p) = TokenType.End) then 0 else 1).

(** A call ends: it returns, leaving the parser in a state that satisfies
    [Q], or it throws; it does not run out of fuel. *)
Definition ends {A} (m : M A) (p : Parser) (Q : A → Parser → Prop) : Prop :=
  match m p with
  | Done a p' => Q a p'
  | Thrown _ => True
  | OutOfFuel => False
  end.

(** What each function of the descent does to the tokens, given fuel in
    proportion to the tokens that remain: it returns or throws, and where
    it returns it has given back no token, and [expectTrait] and [expectKeyValuePair] consume
    at least one token when the look-ahead is an identifier, respectively
    a literal.  The loops start on the delimiter that opens them or on a
    comma. *)
Definition specs (fuel : nat) : Prop :=
  (∀ p previousToken, 4 * remaining p + 2 ≤ fuel →
     ends (expectTrait fuel previousToken) p
       (λ _ p', remaining p' ≤ remaining p
                ∧ (Token.type (currentToken p) = TokenType.Identifier →
                   remaining p' < remaining p)))
  ∧ (∀ p, 4 * remaining p + 1 ≤ fuel →
       Token.type (currentToken p) = TokenType.Delimiter →
       ends (traitArguments fuel) p (λ _ p', remaining p' ≤ remaining p))
  ∧ (∀ p, 4 * remaining p + 3 ≤ fuel →
       ends (leadingTraits fuel) p
         (λ _ p', remaining p' ≤ remaining p
                  ∧ (isTrait (currentToken p) = true → remaining p' < remaining p)
                  ∧ (isTrait (currentToken p) = false →
                     currentToken p' = currentToken p)))
  ∧ (∀ p optionalKey delimiter, 4 * remaining p + 4 ≤ fuel →
       ends (expectKeyValuePair fuel optionalKey delimiter) p
         (λ _ p', remaining p' ≤ remaining p
                  ∧ (isLiteral (Token.type (currentToken p)) = true →
                     remaining p' < remaining p)))
  ∧ (∀ p, 4 * remaining p + 3 ≤ fuel →
       ends (expectValue fuel) p (λ _ p', remaining p' ≤ remaining p))
  ∧ (∀ p, 4 * remaining p + 2 ≤ fuel →
       ends (expectArrayObject fuel) p (λ _ p', remaining p' ≤ remaining p))
  ∧ (∀ p value, 4 * remaining p + 1 ≤ fuel →
       Token.type (currentToken p) = TokenType.Delimiter →
       ends (arrayItems fuel value) p (λ _ p', remaining p' ≤ remaining p))
  ∧ (∀ p afterToken, 4 * remaining p + 2 ≤ fuel →
       ends (expectNodeObject fuel afterToken) p (λ _ p', remaining p' ≤ remaining p))
  ∧ (∀ p value, 4 * remaining p + 1 ≤ fuel →
       Token.type (currentToken p) = TokenType.Delimiter →
       ends (objectPairs fuel value) p (λ _ p', remaining p' ≤ remaining p)).




End ParserSpec.

(** ** Sample sources, tokens and documents *)

Module Examples.
Import ParsedDocument.

(** A source that ends in a line comment with no line feed after it. *)
Definition commentAtEnd : jstring := js "// x".

(** Two one-letter lines. *)
Definition twoLines : jstring := js "a" ++ [Ch.lf] ++ js "b".

(** A string literal with no closing quote. *)
Definition openString : jstring := Ch.quote :: js "abc".

(** An identifier token at offsets 4 to 7 of the first line. *)
Definition sampleToken : Token.t :=
  {| Token.type := TokenType.Identifier;
     Token.range := {| start := {| index := 4; line := 0; column := 4 |};
                       end_ := {| index := 7; line := 0; column := 7 |} |};
     Token.text := js "Foo";
     Token.value := js "Foo" |}.

(** A parsed document with one structural message and one reference. *)
Definition sampleDocument : ParsedDocument :=
  finishParsing
    (addReference (Identifier.new (js "Bar")) sampleToken ReferenceType.Member
       (addMessage (js "Expected key.") sampleToken None false
          (ParsedDocument.new []))).

(** Documents of the namespace [com.example]: one that refers to [Bar],
    one that defines it. *)
Definition inExample (d : ParsedDocument) : ParsedDocument :=
  withNamespace (Some (js "com.example")) d.

Definition referringDocument : ParsedDocument :=
  finishParsing
    (addReference (Identifier.new (js "Bar")) sampleToken ReferenceType.Member
       (inExample (ParsedDocument.new []))).

Definition definingDocument : ParsedDocument :=
  finishParsing
    (default (ParsedDocument.new [])
       (addShape (Identifier.new (js "Bar")) sampleToken
          (inExample (ParsedDocument.new [])))).

Definition referenceToBar : Reference.t :=
  {| Reference.token := sampleToken;
     Reference.type := ReferenceType.Member;
     Reference.identifier := Identifier.new (js "Bar") |}.

Definition referenceTo (identifier : jstring) (token : Token.t)
    (type : ReferenceType.t) : Reference.t :=
  {| Reference.token := token; Reference.type := type;
     Reference.identifier := Identifier.new identifier |}.

(** A reference on the first line, from one column to another. *)
Definition referenceAt (startColumn endColumn : nat) : Reference.t :=
  {| Reference.token :=
       {| Token.type := TokenType.Identifier;
          Token.range :=
            {| start := {| index := startColumn; line := 0; column := startColumn |};
               end_ := {| index := endColumn; line := 0; column := endColumn |} |};
          Token.text := [];
          Token.value := [] |};
     Reference.type := ReferenceType.Member;
     Reference.identifier := Identifier.new [] |}.

(** References sorted by start, the first enclosing the others. *)
Definition nestedReferences : ParsedDocument :=
  withReferences [referenceAt 0 9; referenceAt 1 2; referenceAt 3 4]
    (ParsedDocument.new []).

(** References to three tokens of one line. *)
Definition disjointReferences : ParsedDocument :=
  withReferences [referenceAt 0 3; referenceAt 5 9; referenceAt 12 14]
    (ParsedDocument.new []).

(** The tokens of a source with a shape, a stray identifier, a stray
    delimiter and a trait. *)
Definition sampleTokens : list Token.t :=
  default [] (Lexer.getTokens (js "structure Foo { bar: String } oops ) @x") 60).

(** An object body whose duplicate key is renamed to a key already in use. *)
Definition collidingKeys : jstring := js "{ a: X, a2: Y, a: Z }".

End Examples.

(** ** Notions for further properties of the code *)

(** *** Identifiers as written *)

Module IdentifierSpec.
(** An identifier written out: the namespace with its [#], the name, the
    member with its [$]. *)
Definition written (i : Identifier.t) : jstring :=
  from_option (λ ns, ns ++ [Ch.hash]) [] (Identifier.namespace i)
  ++ Identifier.name i
  ++ from_option (λ m, Ch.dollar :: m) [] (Identifier.member i).
End IdentifierSpec.

(** *** Sections and the registry of shapes *)

Module SectionSpec.
(** The order in which the sections of a model file are to appear. *)
Definition rank (s : Section_.t) : nat :=
  match s with
  | Section_.Control => 0
  | Section_.Metadata => 1
  | Section_.Shape => 2
  end.

Definition inOrder (entered : list Section_.t) : Prop :=
  StronglySorted (λ a b, rank a ≤ rank b) entered.

(** A run of statements, each entering its section with its token. *)
Definition enterAll (statements : list (Section_.t * Token.t)) (d : ParsedDocument)
    : ParsedDocument :=
  foldl (λ d statement, ParsedDocument.enterSection statement.1 statement.2 d)
    d statements.
End SectionSpec.

Module RegistrySpec.
Import ParsedDocument.

(** An identifier is registered in a document when its resolved id has
    tokens under it and, if it is relative, its relative name is listed. *)
Definition registered (d : ParsedDocument) (identifier : Identifier.t) : Prop :=
  is_Some (shapes d !! resolveId identifier d)
  ∧ (Identifier.namespace identifier = None →
     is_Some (relativeShapes d !! Identifier.toRelative identifier)).

(** Two lists of tracked documents hold the same registries: the pairs of
    a namespace and the relative shapes of a document are the same in the
    two. *)
Definition sameRegistries (parsedFiles parsedFiles' : list ParsedDocument) : Prop :=
  ∀ ns relative,
    (∃ f, f ∈ parsedFiles ∧ namespace f = ns ∧ relativeShapes f = relative)
    ↔ (∃ f, f ∈ parsedFiles' ∧ namespace f = ns ∧ relativeShapes f = relative).

(** What the parser does to a document between two points of a parse:
    calls of its methods and assignments to its fields. *)
Inductive edited (d : ParsedDocument) : ParsedDocument → Prop :=
| edited_refl : edited d d
| edited_addShape d' d'' identifier token :
    edited d d' → addShape identifier token d' = Some d'' → edited d d''
| edited_addReference d' identifier token type :
    edited d d' → edited d (addReference identifier token type d')
| edited_addMessage d' text token type after :
    edited d d' → edited d (addMessage text token type after d')
| edited_enterSection d' section token :
    edited d d' → edited d (enterSection section token d')
| edited_namespace d' value :
    edited d d' → edited d (withNamespace value d')
| edited_metadata d' value :
    edited d d' → edited d (withMetadata value d')
| edited_controls d' value :
    edited d d' → edited d (withControls value d')
| edited_finishParsing d' :
    edited d d' → edited d (finishParsing d').
End RegistrySpec.

(** *** A run of the lexer *)

Module LexerRun.
Import Lexer.

(** Every pair of slashes has a line feed somewhere after it. *)
Fixpoint commentsClosed (source : jstring) : bool :=
  match source with
  | [] => true
  | c :: rest =>
      (negb (bool_decide (c = Ch.slash) && bool_decide (head rest = Some Ch.slash))
       || bool_decide (Ch.lf ∈ rest))
      && commentsClosed rest
  end.

(** The position after [n] calls of [advance]. *)
Definition advances (source : jstring) (n : nat) (p : Position) : Position :=
  Nat.iter n (λ p, (advance source p).2) p.

Definition reach (source : jstring) (p q : Position) : Prop :=
  ∃ n, q = advances source n p.

(** The position the lexer records at offset [i]: the line feeds it counts
    and the column it restarts from are those at the offsets 1 to [i], the
    offsets at which [advance] arrives; offsets past the end of the source
    count as characters of the last line. *)
Definition recordedPosition (source : jstring) (i : nat) : Position :=
  let arrivedAt := take i (drop 1 source) in
  {| index := i;
     line := length (filter (λ c, c = Ch.lf) arrivedAt);
     column := length (LexerSpec.lastLine arrivedAt) + (i - length arrivedAt) |}.

(** What holds of a token the lexer yields: its range runs forward over
    at least one character of the source, its text is the source between
    the two offsets, and text and value are as its type has them. *)
Definition lexed (source : jstring) (t : Token.t) : Prop :=
  let s := start (Token.range t) in
  let e := end_ (Token.range t) in
  reach source s e ∧ index s < index e ∧ index e ≤ length source
  ∧ Token.text t = substring source (index s) (index e)
  ∧ match Token.type t with
    | TokenType.Delimiter =>
        Token.value t = Token.text t
        ∧ ∃ c, Token.text t = [c] ∧ isDelimiter c = true
    | TokenType.Identifier =>
        Token.value t = Token.text t
        ∧ Forall (λ c, isIdentifierPart c = true) (Token.text t)
        ∧ matches isIdentifierStart (head (Token.text t)) = true
    | TokenType.Number =>
        ∃ sign tail,
          Token.text t = sign ++ Token.value t ++ tail
          ∧ (sign = [] ∨ sign = [Ch.minus])
          ∧ (tail = [] ∨ ∃ c, isSign c = true ∧ tail = [Ch.e; c])
    | TokenType.String =>
        ∃ body, Token.text t = Ch.quote :: body ++ [Ch.quote]
    | TokenType.Error =>
        ∃ c, Token.text t = [c]
             ∧ Token.value t
               = js "Unknown token: " ++ [c] ++ js ", " ++ option_list (charAt source (index e))
             ∧ isBlank c = false ∧ isDelimiter c = false ∧ isDigit c = false
             ∧ isIdentifierStart c = false ∧ c ≠ Ch.quote ∧ c ≠ Ch.lf
    | _ => False
    end.

(** Tokens that follow one another from position [p] on. *)
Fixpoint chain (source : jstring) (p : Position) (ts : list Token.t) : Prop :=
  match ts with
  | [] => True
  | t :: ts =>
      reach source p (start (Token.range t))
      ∧ lexed source t
      ∧ chain source (end_ (Token.range t)) ts
  end.

End LexerRun.

(** *** A run of the parser *)

Module ParserRun.
Import ParsedDocument Parser.

(** The tokens a node carries: its own, that of its key, and those of the
    nodes below it. *)
Fixpoint nodeTokens (n : Node) : list Token.t :=
  let 'MkNode k v t := n in
  from_option (λ k, [keyToken k]) [] k ++ option_list t ++ valueTokens v
with valueTokens (v : Value) : list Token.t :=
  match v with
  | VObject entries => flat_map (λ entry, nodeTokens entry.2) entries
  | VArray items => flat_map (λ item, from_option nodeTokens [] item) items
  | _ => []
  end.

Section WithTokens.
(** The tokens that count as given to the parser. *)
Variable given : Token.t → Prop.

Definition givenNode (n : Node) : Prop := Forall given (nodeTokens n).

(** A message made by [addMessage] for a given token. *)
Definition givenMessage (m : Message.t) : Prop :=
  ∃ t, given t
       ∧ Message.endIndex m = Z.of_nat (index (end_ (Token.range t)))
       ∧ (Message.startIndex m = Z.of_nat (index (start (Token.range t)))
          ∨ Message.startIndex m = (Message.endIndex m - 1)%Z).

(** Every token a document holds is a given one. *)
Definition givenDocument (d : ParsedDocument) : Prop :=
  Forall givenMessage (messages d)
  ∧ Forall (λ r, given (Reference.token r)) (references d)
  ∧ (∀ s t, Section_.get s (sections d) = Some t → given t)
  ∧ (∀ key ts, shapes d !! key = Some ts → Forall given ts).

(** Nothing a document held is lost: messages and references are added at
    the end, lists of tokens and ids under a key grow at the end, a section
    keeps its token, metadata and controls keep their keys. *)
Definition extends (d d' : ParsedDocument) : Prop :=
  messages d `prefix_of` messages d'
  ∧ references d `prefix_of` references d'
  ∧ (∀ key ts, shapes d !! key = Some ts → ∃ more, shapes d' !! key = Some (ts ++ more))
  ∧ (∀ key ids, relativeShapes d !! key = Some ids →
                ∃ more, relativeShapes d' !! key = Some (ids ++ more))
  ∧ (∀ s t, Section_.get s (sections d) = Some t → Section_.get s (sections d') = Some t)
  ∧ (∀ key, is_Some (metadata d !! key) → is_Some (metadata d' !! key))
  ∧ (∀ key, is_Some (controls d !! key) → is_Some (controls d' !! key))
  ∧ parsedMessageCount d' = parsedMessageCount d
  ∧ uri d' = uri d.

Definition step (d d' : ParsedDocument) : Prop :=
  extends d d' ∧ (givenDocument d → givenDocument d').

(** What is kept true of the look-ahead and the tokens yet to come. *)
Variable kept : Token.t → list Token.t → Prop.

Definition keptState (p : Parser) : Prop := kept (currentToken p) (tokens p).

(** A method keeps the state of the parser as it is to be kept, takes the
    document one [step] on, and answers with a result that satisfies [Q]. *)
Definition sound {A} (Q : A → Prop) (m : M A) : Prop :=
  ∀ p, keptState p →
    match m p with
    | Done a p' => keptState p' ∧ step (parsedDocument p) (parsedDocument p') ∧ Q a
    | Thrown _ => True
    | OutOfFuel => True
    end.

Definition always {A} : A → Prop := λ _, True.

Definition givenOption {A} (Q : A → Prop) (o : option A) : Prop :=
  from_option Q True o.

(** What the functions of the descent are sound for. *)
Definition sounds (fuel : nat) : Prop :=
  (∀ previousToken, given previousToken → sound always (expectTrait fuel previousToken))
  ∧ sound always (traitArguments fuel)
  ∧ sound always (leadingTraits fuel)
  ∧ (∀ optionalKey delimiter,
       sound (givenOption givenNode) (expectKeyValuePair fuel optionalKey delimiter))
  ∧ sound (givenOption givenNode) (expectValue fuel)
  ∧ sound (givenOption givenNode) (expectArrayObject fuel)
  ∧ (∀ value, Forall (givenOption givenNode) value →
              sound (Forall (givenOption givenNode)) (arrayItems fuel value))
  ∧ (∀ afterToken, given afterToken →
                   sound (givenOption givenNode) (expectNodeObject fuel afterToken))
  ∧ (∀ value, Forall (λ entry, givenNode entry.2) value →
              sound (Forall (λ entry : jstring * Node, givenNode entry.2))
                (objectPairs fuel value)).

End WithTokens.
End ParserRun.

(** *** A run of both *)

Module RunSpec.
(** A token of the run: one of the tokens of the list, or the End token
    that [advanceToken] makes of the last one read. *)
Definition among (tokens : list Token.t) (t : Token.t) : Prop :=
  ∃ t', t' ∈ tokens ∧ (t = t' ∨ t = Parser.asEnd t').

(** What the parser keeps true of its look-ahead and of the tokens yet to
    come, when it is given tokens none of which is an End token: they are
    tokens of the run, and the look-ahead is an End token only when no token
    is left. *)
Definition keptOf (tokens : list Token.t) (current : Token.t) (rest : list Token.t)
    : Prop :=
  among tokens current
  ∧ Forall (among tokens) rest
  ∧ Forall (λ t, Token.type t ≠ TokenType.End) rest
  ∧ (Token.type current = TokenType.End → rest = []).

(** A diagnostic range that lies within a text of the given length. *)
Definition withinText (length_ : nat) (m : Message.t) : Prop :=
  (0 ≤ Message.startIndex m < Message.endIndex m)%Z
  ∧ (Message.endIndex m ≤ Z.of_nat length_)%Z.
End RunSpec.

(** ** More samples *)

Module Samples.

(** A model file: a namespace, a comment, a shape with a member, and a
    stray delimiter. *)
Definition model : jstring :=
  js "namespace a.b" ++ [Ch.lf] ++ js "// one shape" ++ [Ch.lf]
  ++ js "structure Foo { bar: Baz } )" ++ [Ch.lf].

Definition uri : jstring := js "file:///model.smithy".

(** A model file of the namespace [a] whose structure [Foo] has a member
    of the shape of a given name. *)
Definition memberOf (shape : string) : jstring :=
  js "namespace a" ++ [Ch.lf] ++ js "structure Foo { a: " ++ js shape ++ js " }".

(** A shape name, a delimiter, and a line comment that ends the source
    with no line feed after it. *)
Definition beforeComment : jstring := js "Foo { // x".

(** A number with a sign, a fraction and an exponent, and the same before
    a comment that ends the source. *)
Definition assignment : jstring := js "x = -12.5e+3 y".
Definition assignmentBeforeComment : jstring := js "x = -12.5e+3 // y".

(** The builtins of the host that the parser is given. *)
Definition numberIsTruthy : jstring → bool := λ _, true.
Definition JSON_stringify : option Node → jstring := λ _, [].
Definition encodeURIComponent : jstring → option jstring := Some.
Definition arrayMethod : jstring → bool := λ key,
  bool_decide (key ∈ js <$> ["concat"; "copyWithin"; "fill"; "find"; "findIndex";
                            "lastIndexOf"; "pop"; "push"; "reverse"; "shift";
                            "unshift"; "slice"; "sort"; "splice"; "includes";
                            "indexOf"; "join"; "keys"; "entries"; "values";
                            "forEach"; "filter"; "flat"; "flatMap"; "map"; "every";
                            "some"; "reduce"; "reduceRight"]%string).

(** Whether every surrogate of a string is one of a pair, a high one
    followed by a low one. *)
Fixpoint wellPaired (s : jstring) : bool :=
  match s with
  | [] => true
  | c :: rest =>
      if (55296 <=? c)%N && (c <=? 56319)%N then
        match rest with
        | low :: rest' => (56320 <=? low)%N && (low <=? 57343)%N && wellPaired rest'
        | [] => false
        end
      else if (56320 <=? c)%N && (c <=? 57343)%N then false
      else wellPaired rest
  end.

(** A host whose [encodeURIComponent] throws on a lone surrogate, as the
    language has it; what it answers otherwise is not at stake, and is
    the string itself here. *)
Definition encodeOrThrow : jstring → option jstring := λ s,
  if wellPaired s then Some s else None.

Definition loneSurrogateBeforeComment : jstring := 55296%N :: js " // x".

(** A document with the shape [Foo] of the namespace [com.example], and a
    reference to it. *)
Definition withFoo : ParsedDocument :=
  ParsedDocument.addReference (Identifier.new (js "Foo")) Examples.sampleToken
    ReferenceType.Member
    (default (ParsedDocument.new [])
       (ParsedDocument.addShape (Identifier.new (js "Foo")) Examples.sampleToken
          (Examples.inExample (ParsedDocument.new [])))).

Definition referenceToFoo : Reference.t :=
  Examples.referenceTo (js "Foo") Examples.sampleToken ReferenceType.Member.

End Samples.

(** ** Properties of the lexer *)

Module LexerFacts.
Import Lexer LexerSpec Examples.

#[local] Arguments advance : simpl never.
#[local] Arguments substring : simpl never.
#[local] Arguments textSince : simpl never.
#[local] Arguments createToken : simpl never.

Section WithSource.
Variable source : jstring.

Lemma advance_index p : index (advance source p).2 = S (index p).
Proof. unfold advance; simpl. by case_match. Qed.

Lemma advance_None p p' :
  advance source p = (None, p') → length source ≤ index p'.
Proof.
  intros Hadv. pose proof (advance_index p) as Hi. rewrite Hadv in Hi.
  unfold advance in Hadv. injection Hadv as Hc _.
  apply lookup_ge_None in Hc. simpl in Hi. lia.
Qed.

Opaque advance.

Lemma substring_drop a b :
  a ≤ b → substring source a b ++ drop b source = drop a source.
Proof.
  intros Hab. unfold substring.
  destruct (decide (b ≤ length source)) as [Hb|Hb].
  - rewrite !Nat.min_l, Nat.max_r by lia.
    assert (drop b source = drop (b - a) (drop a source)) as ->
      by (rewrite drop_drop; f_equal; lia).
    apply take_drop.
  - rewrite (drop_ge source b) by lia. rewrite app_nil_r.
    destruct (decide (a ≤ length source)) as [Ha|Ha].
    + rewrite (Nat.min_l a), (Nat.min_r b), Nat.min_l, Nat.max_r by lia.
      apply take_ge. rewrite length_drop. lia.
    + rewrite !Nat.min_r, Nat.max_l by lia.
      rewrite Nat.sub_diag. simpl. symmetry. apply drop_ge. lia.
Qed.

Lemma textSince_drop p q :
  index p ≤ index q →
  textSince source p q ++ drop (index q) source = drop (index p) source.
Proof. apply substring_drop. Qed.

(** *** The scans only move forward *)

Lemma skipWhile_index cls fuel s p r q :
  skipWhile source cls fuel s p = Some (r, q) → index p ≤ index q.
Proof.
  revert p. induction fuel as [|fuel IH]; intros p; cbn; [done|].
  case_match.
  - intros Hrec%IH. rewrite advance_index in Hrec. lia.
  - intros [= _ <-]. lia.
Qed.

Lemma skipUntil_index cls fuel s p r q :
  skipUntil source cls fuel s p = Some (r, q) → index p ≤ index q.
Proof.
  revert p. induction fuel as [|fuel IH]; intros p; cbn; [done|].
  case_match.
  - intros Hrec%IH. rewrite advance_index in Hrec. lia.
  - intros [= _ <-]. lia.
Qed.

Lemma skipBlanks_index fuel p q continue :
  skipBlanks source fuel p = Some (q, continue) →
  index p ≤ index q ∧ (continue = false → length source ≤ index q).
Proof.
  revert p. induction fuel as [|fuel IH]; intros p; cbn; [done|].
  case_match; [|intros [= <- <-]; split; [lia|done]].
  destruct (advance source p) as [c p'] eqn:Hadv.
  assert (index p' = S (index p)) as Hp'
    by (by rewrite <- (advance_index p), Hadv).
  destruct c as [c|].
  - intros [H1 H2]%IH. split; [lia|done].
  - intros [= <- <-]. split; [lia|intros _].
    by apply advance_None in Hadv.
Qed.

Lemma unicodeEscape_index n v p v' q :
  unicodeEscape source n v p = (v', q) → index p ≤ index q.
Proof.
  revert v p. induction n as [|n IH]; intros v p; cbn.
  - intros [= _ <-]. lia.
  - destruct (advance source p) as [c p'] eqn:Hadv.
    assert (index p' = S (index p)) as Hp'
      by (by rewrite <- (advance_index p), Hadv).
    case_match.
    + intros Hrec%IH. lia.
    + intros [= _ <-]. lia.
Qed.

#[local] Arguments unicodeEscape : simpl never.

Lemma stringLoop_index fuel p value q closed :
  stringLoop source fuel p value = Some (q, closed) → index p ≤ index q.
Proof.
  revert p value. induction fuel as [|fuel IH]; intros p value; cbn; [done|].
  case_match; [intros [= <- _]; lia|].
  destruct (advance source p) as [c p1] eqn:Hadv.
  assert (index p1 = S (index p)) as Hp1
    by (by rewrite <- (advance_index p), Hadv).
  case_match.
  { intros [= <- _]. rewrite advance_index. lia. }
  case_match; [|intros Hrec%IH; lia].
  destruct (advance source p1) as [c2 p2] eqn:Hadv2.
  assert (index p2 = S (index p1)) as Hp2
    by (by rewrite <- (advance_index p1), Hadv2).
  case_match.
  - destruct (unicodeEscape source 4 0%N p2) as [ev p3] eqn:Hu.
    apply unicodeEscape_index in Hu. intros Hrec%IH. lia.
  - case_match; intros Hrec%IH; lia.
Qed.

Lemma number_spec fuel s tok :
  number source fuel s = Some tok →
  Token.text tok = textSince source s (end_ (Token.range tok))
  ∧ index s ≤ index (end_ (Token.range tok)).
Proof.
  unfold number. intros H.
  repeat (simplify_option_eq || case_match);
    repeat match goal with
      | H : skipWhile _ _ _ _ _ = Some _ |- _ =>
          apply skipWhile_index in H; rewrite ?advance_index in H
      end;
    (split; [done|lia]).
Qed.

(** *** Round trip *)

Lemma getTokensFrom_text fuel p pieces :
  getTokensFrom source fuel p = Some pieces →
  concat (pieceText <$> pieces) = drop (index p) source.
Proof.
  revert p pieces. induction fuel as [|fuel IH]; intros p pieces; cbn; [done|].
  case_match eqn:Hended.
  { intros [= <-]. apply bool_decide_eq_true in Hended.
    symmetry. by apply drop_ge. }
  destruct (skipBlanks source fuel p) as [[s continue]|] eqn:Hblanks; [|done].
  apply skipBlanks_index in Hblanks as [Hps Hstop]. simpl.
  assert (∀ q rest,
    index s ≤ index q →
    concat (pieceText <$> rest) = drop (index q) source →
    textSince source p s ++ textSince source s q ++ concat (pieceText <$> rest)
    = drop (index p) source) as Hglue.
  { intros q rest Hsq ->. by rewrite !textSince_drop. }
  destruct continue; simpl.
  2:{ intros [= <-]. simpl. rewrite app_nil_r.
      rewrite <- (textSince_drop p s) by done.
      rewrite (drop_ge source (index s)) by auto. by rewrite app_nil_r. }
  intros Hrun;
    repeat first
      [ progress simplify_option_eq
      | case_match
      | match goal with x : (_ * _)%type |- _ => destruct x end ];
    repeat match goal with
      | H : getTokensFrom _ _ _ = Some _ |- _ => apply IH in H
      | H : skipWhile _ _ _ _ _ = Some _ |- _ => apply skipWhile_index in H
      | H : skipUntil _ _ _ _ _ = Some _ |- _ => apply skipUntil_index in H
      | H : stringLoop _ _ _ _ = Some _ |- _ => apply stringLoop_index in H
      | H : number _ _ _ = Some _ |- _ => apply number_spec in H as [-> ?]
      end;
    simpl; apply Hglue; rewrite ?advance_index in *; try done; lia.
Qed.

(** *** The comment scan past the end of the source *)

Lemma skipUntil_no_line_feed fuel s p :
  (∀ i, index p ≤ i → charAt source i ≠ Some Ch.lf) →
  skipUntil source isLineFeed fuel s p = None.
Proof.
  revert p. induction fuel as [|fuel IH]; intros p Hno; cbn; [done|].
  assert (matches isLineFeed (char source p) = false) as ->.
  { unfold char. specialize (Hno (index p) (le_n _)).
    destruct (charAt source (index p)) as [c|]; [|done].
    unfold isLineFeed; simpl. apply bool_decide_eq_false. congruence. }
  simpl. apply IH. intros i Hi. apply Hno. rewrite advance_index in Hi. lia.
Qed.

Lemma getTokensFrom_comment_no_line_feed fuel p :
  char source p = Some Ch.slash →
  peek source p = Some Ch.slash →
  (∀ i, index p ≤ i → charAt source i ≠ Some Ch.lf) →
  getTokensFrom source fuel p = None.
Proof.
  intros Hchar Hpeek Hno. destruct fuel as [|fuel]; cbn [getTokensFrom]; [done|].
  assert (ended source p = false) as ->.
  { apply bool_decide_eq_false. unfold char, charAt in Hchar.
    apply lookup_lt_Some in Hchar. lia. }
  assert (skipBlanks source fuel p = None
          ∨ skipBlanks source fuel p = Some (p, true)) as [->| ->].
  { destruct fuel; cbn; [by left|]. rewrite Hchar. by right. }
  { done. }
  cbn -[skipUntil getTokensFrom]. rewrite Hchar, Hpeek. cbn -[skipUntil getTokensFrom].
  rewrite skipUntil_no_line_feed; [done|].
  intros i Hi. apply Hno.
  case_match; rewrite !advance_index in Hi; lia.
Qed.

Transparent advance.

End WithSource.

(** *** Statements about [getTokens] *)

(** C1 (the code departs from it).  The lexer is specified to terminate on
    every source text, in particular on one that ends in a line comment with
    no line feed after it.  On the source [// x] it does not: whatever the
    amount of fuel, the run is cut short, because [skipUntil] keeps advancing
    past the end of the source, where [charAt] never answers a line feed. *)
Theorem getTokens_comment_at_end_never_returns :
  ∀ fuel, getTokens commentAtEnd fuel = None.
Proof.
  intros fuel. unfold getTokens, run.
  rewrite getTokensFrom_comment_no_line_feed; [done..|].
  intros i _. unfold charAt.
  do 4 (destruct i as [|i]; [by vm_compute|]). by vm_compute.
Qed.

(** C4 (the code departs from it).  Token ranges are specified to be exact
    on every line.  On the two-line source made of [a], a line feed and [b],
    the first token ends at offset 1, which is line 0, column 1, and the
    lexer records line 1, column 0; the second token starts at offset 2,
    which is line 1, column 0, and the lexer records column 1. *)
Theorem getTokens_range_shifted_at_line_feed :
  ∃ a b,
    getTokens twoLines 6 = Some [a; b]
    ∧ end_ (Token.range a) = {| index := 1; line := 1; column := 0 |}
    ∧ exactPosition twoLines 1 = {| index := 1; line := 0; column := 1 |}
    ∧ start (Token.range b) = {| index := 2; line := 1; column := 1 |}
    ∧ exactPosition twoLines 2 = {| index := 2; line := 1; column := 0 |}
    ∧ ¬ exactRange twoLines a
    ∧ ¬ exactRange twoLines b.
Proof.
  eexists _, _. split; [vm_compute; reflexivity|].
  repeat split; try (vm_compute; reflexivity).
  - intros (_ & H & _). vm_compute in H. discriminate.
  - intros (H & _). vm_compute in H. discriminate.
Qed.

(** C3, as stated, fails: a string literal with no closing quote is consumed
    and nothing is yielded for it, so token texts together with the spans
    discarded as whitespace, comments and line breaks do not give the
    source back. *)
Lemma roundtrip_loses_unterminated_string :
  ∃ pieces,
    run openString 8 = Some pieces
    ∧ yielded pieces = []
    ∧ concat (tokenOrTrivia <$> pieces) ≠ openString.
Proof. eexists. split; [vm_compute; reflexivity|]. split; [done|]. by vm_compute. Qed.

(** C3, amended.  Whenever the lexer returns, the texts of the yielded
    tokens together with every span it consumed without yielding (blanks,
    comments, line breaks, and the text of a string literal that has no
    closing quote) concatenate to the source; and when no string literal
    was left open, the token texts with the whitespace, comment and
    line-break spans alone do. *)
Theorem run_roundtrip source fuel pieces :
  run source fuel = Some pieces →
  concat (pieceText <$> pieces) = source
  ∧ ((∀ s, Skip UnterminatedString s ∉ pieces) →
     concat (tokenOrTrivia <$> pieces) = source).
Proof.
  intros Hrun. apply getTokensFrom_text in Hrun as Htext. simpl in Htext.
  split; [done|]. intros Hclosed.
  transitivity (concat (pieceText <$> pieces)); [|done]. f_equal.
  apply list_fmap_ext. intros i piece Hi.
  destruct piece as [t|[] s]; try done.
  destruct (Hclosed s). by eapply list_elem_of_lookup_2.
Qed.

Lemma run_roundtrip_witness :
  ∃ pieces,
    run (js "list A { member: B }") 30 = Some pieces
    ∧ concat (pieceText <$> pieces) = js "list A { member: B }".
Proof.
  eexists. split; [vm_compute; reflexivity|].
  apply (run_roundtrip (js "list A { member: B }") 30).
  vm_compute; reflexivity.
Defined.

End LexerFacts.
(** ** Properties of the parsed document *)

Module DocumentFacts.
Import ParsedDocument DocumentSpec Examples.

(** *** Messages *)

Lemma addMessage_messages text token type after d :
  ∃ m, addMessage text token type after d = withMessages (messages d ++ [m]) d
       ∧ Message.text m = text
       ∧ Message.type m = default MessageType.Error type
       ∧ Message.endIndex m = Z.of_nat (index (end_ (Token.range token))).
Proof. unfold addMessage. case_match; case_match; simplify_eq; eauto. Qed.

Lemma addMessage_unknownShape r d :
  addMessage (js "Unknown shape.") (Reference.token r) (Some MessageType.Error) false d
  = withMessages (messages d ++ [unknownShapeMessage r]) d.
Proof. unfold addMessage, unknownShapeMessage. simpl. by case_bool_decide. Qed.

Lemma prepend_nil d : prepend [] d = d.
Proof. by destruct d. Qed.

Lemma withMessages_prepend ms d : withMessages ms d = prepend ms (withMessages [] d).
Proof. destruct d. unfold prepend, withMessages. simpl. by rewrite app_nil_r. Qed.

Lemma addMessage_prepend pre text token type after d :
  addMessage text token type after (prepend pre d)
  = prepend pre (addMessage text token type after d).
Proof.
  unfold addMessage. case_match. destruct d. unfold prepend, withMessages. simpl.
  by rewrite app_assoc.
Qed.

Lemma validateNamespace_prepend pre d :
  validateNamespace (prepend pre d) = prepend pre (validateNamespace d).
Proof.
  unfold validateNamespace.
  replace (sections (prepend pre d)) with (sections d) by (by destruct d).
  replace (namespace (prepend pre d)) with (namespace d) by (by destruct d).
  repeat case_match; try done. apply addMessage_prepend.
Qed.

Lemma isUnknown_prepend parsedFiles pre d r :
  isUnknown parsedFiles (prepend pre d) r = isUnknown parsedFiles d r.
Proof.
  unfold isUnknown.
  replace (shapes (prepend pre d)) with (shapes d) by (by destruct d).
  replace (resolveId (Reference.identifier r) (prepend pre d))
    with (resolveId (Reference.identifier r) d) by (by destruct d).
  replace (isExternalShape (Reference.identifier r) parsedFiles (prepend pre d))
    with (isExternalShape (Reference.identifier r) parsedFiles d); [done|].
  induction parsedFiles as [|f fs IH]; simpl; [done|].
  rewrite IH. by destruct d.
Qed.

Lemma isUnknown_withMessages parsedFiles ms d r :
  isUnknown parsedFiles (withMessages ms d) r = isUnknown parsedFiles d r.
Proof.
  rewrite withMessages_prepend, isUnknown_prepend.
  rewrite <- (isUnknown_prepend parsedFiles (messages d) (withMessages [] d)).
  rewrite <- withMessages_prepend. by destruct d.
Qed.

Lemma validateReference_unknownShapes parsedFiles r d :
  validateReference parsedFiles r d
  = withMessages (messages d ++ unknownShapes parsedFiles d r) d.
Proof.
  unfold validateReference, unknownShapes. fold (isUnknown parsedFiles d r).
  destruct (isUnknown parsedFiles d r).
  - apply addMessage_unknownShape.
  - destruct d. unfold withMessages. simpl. by rewrite app_nil_r.
Qed.

Lemma foldl_validateReference parsedFiles refs d :
  foldl (λ d r, validateReference parsedFiles r d) d refs
  = withMessages (messages d ++ flat_map (unknownShapes parsedFiles d) refs) d.
Proof.
  revert d. induction refs as [|r refs IH]; intros d; simpl.
  - destruct d. unfold withMessages. simpl. by rewrite app_nil_r.
  - rewrite IH, validateReference_unknownShapes.
    assert (∀ ms, flat_map (unknownShapes parsedFiles (withMessages ms d)) refs
                  = flat_map (unknownShapes parsedFiles d) refs) as ->.
    { intros ms. apply flat_map_ext. intros r'. unfold unknownShapes.
      by rewrite isUnknown_withMessages. }
    destruct d. unfold withMessages. simpl. by rewrite app_assoc.
Qed.

Lemma isUnknown_withReferences parsedFiles refs d r :
  isUnknown parsedFiles (withReferences refs d) r = isUnknown parsedFiles d r.
Proof.
  unfold isUnknown.
  replace (shapes (withReferences refs d)) with (shapes d) by (by destruct d).
  replace (resolveId (Reference.identifier r) (withReferences refs d))
    with (resolveId (Reference.identifier r) d) by (by destruct d).
  replace (isExternalShape (Reference.identifier r) parsedFiles (withReferences refs d))
    with (isExternalShape (Reference.identifier r) parsedFiles d); [done|].
  induction parsedFiles as [|f fs IH]; simpl; [done|].
  rewrite IH. by destruct d.
Qed.

Lemma validateReferences_messages parsedFiles d :
  messages (validateReferences parsedFiles d)
  = messages d
    ++ flat_map (unknownShapes parsedFiles d) (sort compareReferences (references d)).
Proof.
  unfold validateReferences. rewrite foldl_validateReference.
  replace (messages (withMessages _ _)) with
    (messages d ++ flat_map
       (unknownShapes parsedFiles
          (withReferences (sort compareReferences (references d)) d))
       (sort compareReferences (references d))) by (by destruct d).
  f_equal. apply flat_map_ext. intros r. unfold unknownShapes.
  by rewrite isUnknown_withReferences.
Qed.

Lemma validateNamespace_messages d :
  messages (validateNamespace d) = messages d ++ namespaceWarning d.
Proof.
  assert (d = prepend (messages d) (withMessages [] d)) as Hd.
  { rewrite <- withMessages_prepend. by destruct d. }
  rewrite Hd at 1. rewrite validateNamespace_prepend. unfold namespaceWarning.
  by destruct (validateNamespace (withMessages [] d)).
Qed.

Lemma validateNamespace_eq d :
  validateNamespace d = withMessages (messages d ++ namespaceWarning d) d.
Proof.
  unfold namespaceWarning, validateNamespace.
  replace (sections (withMessages [] d)) with (sections d) by (by destruct d).
  replace (namespace (withMessages [] d)) with (namespace d) by (by destruct d).
  repeat case_match; try (destruct d; unfold withMessages; simpl; by rewrite app_nil_r).
  destruct (addMessage_messages
              (js "Missing namespace declaration. Namespace 'smithy.api' from Smithy prelude will be used.")
              t (Some MessageType.Warning) false d) as (m & Hm & _).
  unfold addMessage in *. case_match. simplify_eq. by destruct d.
Qed.

(** What [validate] leaves in the document: the structural messages, the
    namespace warning, and one message for each reference that is unknown,
    in the order of the sorted references. *)
Lemma validate_eq parsedFiles d :
  validate parsedFiles d
  = withMessages
      (take (parsedMessageCount d) (messages d) ++ namespaceWarning d
       ++ flat_map (unknownShapes parsedFiles d)
            (sort compareReferences (references d)))
      (withReferences (sort compareReferences (references d)) d).
Proof.
  unfold validate, validateReferences.
  rewrite foldl_validateReference, validateNamespace_eq.
  set (ms := take _ _).
  assert (namespaceWarning (withMessages ms d) = namespaceWarning d) as ->
    by (by destruct d).
  erewrite flat_map_ext.
  2:{ intros r. unfold unknownShapes.
      rewrite isUnknown_withReferences, !isUnknown_withMessages. reflexivity. }
  destruct d. unfold withMessages, withReferences. simpl. by rewrite app_assoc.
Qed.

Lemma finishParsing_finished d : finished (finishParsing d).
Proof. unfold finished. by destruct d. Qed.

(** *** Statements about [addMessage] and [validate] *)

(** C8, as stated, fails: with [after] set, the recorded range does not
    start at the end of the token.  For a token that spans offsets 4 to 7
    the message starts at 6, on the last character of the token. *)
Lemma addMessage_after_overlaps_token :
  ∃ m, messages (addMessage (js "Expected shape ID.") sampleToken None true
                   (ParsedDocument.new []))
       = [m]
       ∧ Message.startIndex m = 6%Z
       ∧ ¬ (Z.of_nat (index (end_ (Token.range sampleToken))) ≤ Message.startIndex m)%Z.
Proof. eexists. split; [reflexivity|]. split; [reflexivity|]. simpl. lia. Qed.

(** C8, amended.  A message added with [after] set is recorded on the
    one-unit range that ends at the end of the token: it starts one unit
    before the end, on the last character of the token, and stops at the
    end. *)
Theorem addMessage_after text token type d :
  messages (addMessage text token type true d)
  = messages d
    ++ [{| Message.type := default MessageType.Error type;
           Message.text := text;
           Message.startIndex := Z.of_nat (index (end_ (Token.range token))) - 1;
           Message.endIndex := Z.of_nat (index (end_ (Token.range token))) |}].
Proof. by destruct d. Qed.

(** C6.  For a document that has finished parsing, [validate] keeps the
    first [parsedMessageCount] messages as they are and in their order,
    leaves [parsedMessageCount] unchanged, and computes everything after
    them afresh: whatever messages stood beyond the structural ones before
    the call, the result is the same. *)
Theorem validate_keeps_structural_messages parsedFiles d :
  finished d →
  parsedMessageCount (validate parsedFiles d) = parsedMessageCount d
  ∧ take (parsedMessageCount d) (messages (validate parsedFiles d))
    = take (parsedMessageCount d) (messages d)
  ∧ (∀ stale,
       messages (validate parsedFiles
                   (withMessages (take (parsedMessageCount d) (messages d) ++ stale) d))
       = messages (validate parsedFiles d))
  ∧ finished (validate parsedFiles d).
Proof.
  unfold finished. intros Hcount. rewrite !validate_eq.
  assert (length (take (parsedMessageCount d) (messages d)) = parsedMessageCount d)
    as Hlen by (rewrite length_take; lia).
  split; [|split; [|split]].
  - by destruct d.
  - replace (messages (withMessages _ _)) with
      (take (parsedMessageCount d) (messages d) ++ namespaceWarning d
       ++ flat_map (unknownShapes parsedFiles d)
            (sort compareReferences (references d))) by (by destruct d).
    rewrite take_app_le by lia. rewrite take_ge by lia. done.
  - intros stale. rewrite validate_eq.
    assert (∀ ms r, unknownShapes parsedFiles (withMessages ms d) r
                    = unknownShapes parsedFiles d r) as Hu.
    { intros. unfold unknownShapes. by rewrite isUnknown_withMessages. }
    erewrite flat_map_ext by (intros; apply Hu).
    replace (namespaceWarning (withMessages _ d)) with (namespaceWarning d)
      by (by destruct d).
    destruct d. unfold withMessages, withReferences. simpl in *. f_equal.
    rewrite take_app_le by lia. rewrite take_ge by lia. done.
  - replace (parsedMessageCount (withMessages _ _)) with (parsedMessageCount d)
      by (by destruct d).
    replace (messages (withMessages _ _)) with
      (take (parsedMessageCount d) (messages d) ++ namespaceWarning d
       ++ flat_map (unknownShapes parsedFiles d)
            (sort compareReferences (references d))) by (by destruct d).
    rewrite length_app. lia.
Qed.

Lemma validate_keeps_structural_messages_witness :
  finished sampleDocument
  ∧ parsedMessageCount (validate [sampleDocument] sampleDocument) = 1
  ∧ take 1 (messages (validate [sampleDocument] sampleDocument))
    = take 1 (messages sampleDocument).
Proof.
  split; [vm_compute; lia|].
  destruct (validate_keeps_structural_messages [sampleDocument] sampleDocument)
    as (H1 & H2 & _); [vm_compute; lia|].
  split; [exact H1|exact H2].
Defined.

(** *** Unknown shapes *)

Lemma insertSorted_Permutation {A} (compare : A → A → Z) x l :
  insertSorted compare x l ≡ₚ x :: l.
Proof.
  induction l as [|y l IH]; simpl; [done|].
  case_match; [done|]. rewrite IH. apply Permutation_swap.
Qed.

Lemma sort_Permutation {A} (compare : A → A → Z) l : sort compare l ≡ₚ l.
Proof.
  induction l as [|x l IH]; simpl; [done|].
  unfold sort in *. simpl. by rewrite insertSorted_Permutation, IH.
Qed.

Lemma isExternalShape_true identifier parsedFiles d :
  isExternalShape identifier parsedFiles d = true ↔
  ∃ f, f ∈ parsedFiles
       ∧ namespace f = relevantNamespace d identifier
       ∧ has (relativeShapes f) (Identifier.toRelative identifier) = true.
Proof.
  assert (∀ f,
    (truthy (Identifier.namespace identifier)
      && bool_decide (namespace f = Identifier.namespace identifier)
      || negb (truthy (Identifier.namespace identifier))
         && bool_decide (namespace f = namespace d))
    && has (relativeShapes f) (Identifier.toRelative identifier) = true
    ↔ namespace f = relevantNamespace d identifier
      ∧ has (relativeShapes f) (Identifier.toRelative identifier) = true) as Hone.
  { intros f. unfold relevantNamespace.
    destruct (truthy (Identifier.namespace identifier));
      destruct (has (relativeShapes f) (Identifier.toRelative identifier));
      simpl; repeat case_bool_decide; split; intros; destruct_and?;
      try done; by split. }
  induction parsedFiles as [|f fs IH]; simpl.
  - split; [done|]. intros (f & Hf & _). by apply elem_of_nil in Hf.
  - case_match eqn:Hf.
    + split; [intros _|done]. exists f. split; [left|by apply Hone].
    + rewrite IH. split.
      * intros (g & Hg & Hrest). exists g. split; [by right|done].
      * intros (g & Hg & Hrest). apply elem_of_cons in Hg as [->|Hg].
        -- apply Hone in Hrest. congruence.
        -- by exists g.
Qed.

(** C5 (the code departs from it).  A reference that is in the shapes of
    no document and is not whitelisted is specified to get exactly one
    [Unknown shape.] error.  It does for the member of shape [Bar] of the
    structure [Foo].  For a member of shape [constructor] it gets none:
    the resolved id is not among the shapes of the document, the name is
    not whitelisted, and the tracked document, which is the document
    itself, has nothing of its own under that name; but the lookup in the
    relative shapes of that document finds the property that every object
    inherits under the name, and the reference passes for one to a shape
    of another file. *)
Theorem validate_misses_inherited_name :
  ∃ d dBar r,
    (Model.parseDocument Samples.numberIsTruthy Samples.JSON_stringify
       Samples.encodeURIComponent Samples.arrayMethod
       Samples.uri (Samples.memberOf "Bar") 40).2 = Model.Returned dBar
    ∧ Message.text <$> messages (validate [dBar] dBar) = [js "Unknown shape."]
    ∧ (Model.parseDocument Samples.numberIsTruthy Samples.JSON_stringify
         Samples.encodeURIComponent Samples.arrayMethod
         Samples.uri (Samples.memberOf "constructor") 40).2 = Model.Returned d
    ∧ r ∈ references d
    ∧ Reference.identifier r = Identifier.new (js "constructor")
    ∧ shapes d !! resolveId (Reference.identifier r) d = None
    ∧ isKnownReference (Reference.identifier r) = false
    ∧ (∀ f, f ∈ [d] →
            relativeShapes f !! Identifier.toRelative (Reference.identifier r) = None)
    ∧ messages (validate [d] d) = [].
Proof.
  eexists _, _, _. split; [vm_compute; reflexivity|]. split; [by vm_compute|].
  split; [vm_compute; reflexivity|].
  split; [by eapply (list_elem_of_lookup_2 _ 2)|].
  split; [by vm_compute|]. split; [by vm_compute|]. split; [by vm_compute|].
  split; [|by vm_compute].
  intros f ->%list_elem_of_singleton. by vm_compute.
Qed.




End DocumentFacts.
(** ** Properties of the symbol lookup *)

Module FindSymbolFacts.
Import ParsedDocument DocumentSpec Examples.

Section BinarySearch.
Context {TItem TValue : Type}.
Variable array : list TItem.
Variable element : TValue.
Variable compareFunction : TValue → TItem → JsNumber.

#[local] Abbreviation goesOn := (DocumentSpec.goesOn element compareFunction).

(** The comparator sends the search right of [m] only if nothing up to [m]
    matches, and left of [m] only if nothing from [m] on matches. *)
Hypothesis right_of : ∀ m i x y,
  array !! m = Some x → aboveZero (compareFunction element x) = true →
  i ≤ m → array !! i = Some y → goesOn y = true.
Hypothesis left_of : ∀ m i x y,
  array !! m = Some x → belowZero (compareFunction element x) = true →
  m ≤ i → array !! i = Some y → goesOn y = true.

Lemma binarySearchLoop_spec fuel leftIndex rightIndex :
  (0 ≤ leftIndex ≤ rightIndex + 1)%Z →
  (rightIndex < Z.of_nat (length array))%Z →
  (rightIndex - leftIndex + 1 < Z.of_nat fuel)%Z →
  ∃ result,
    binarySearchLoop array element compareFunction fuel leftIndex rightIndex
    = Some result
    ∧ (((0 ≤ result)%Z
        ∧ ∃ x, array !! Z.to_nat result = Some x ∧ goesOn x = false)
       ∨ ((result < 0)%Z
          ∧ ∀ i y, (leftIndex ≤ Z.of_nat i ≤ rightIndex)%Z →
                   array !! i = Some y → goesOn y = true)).
Proof.
  revert leftIndex rightIndex.
  induction fuel as [|fuel IH]; intros leftIndex rightIndex Hleft Hright Hfuel; [lia|].
  cbn [binarySearchLoop]. destruct (Z.leb_spec leftIndex rightIndex) as [Hle|Hgt].
  2:{ eexists. split; [done|]. right. split; [lia|]. intros; lia. }
  rewrite Z.shiftr_div_pow2 by lia. change (2 ^ 1)%Z with 2%Z.
  set (middleIndex := (leftIndex + (rightIndex - leftIndex) / 2)%Z).
  assert (leftIndex ≤ middleIndex ≤ rightIndex)%Z as Hmiddle.
  { unfold middleIndex.
    pose proof (Z.div_pos (rightIndex - leftIndex) 2).
    pose proof (Z.div_le_upper_bound (rightIndex - leftIndex) 2 (rightIndex - leftIndex)).
    lia. }
  destruct (lookup_lt_is_Some_2 array (Z.to_nat middleIndex)) as [x Hx]; [lia|].
  rewrite Hx. simpl.
  destruct (aboveZero (compareFunction element x)) eqn:Habove.
  { destruct (IH (middleIndex + 1)%Z rightIndex) as (result & -> & Hresult); [lia..|].
    eexists. split; [done|]. destruct Hresult as [Hfound|[Hneg Hnone]]; [by left|].
    right. split; [done|]. intros i y Hi Hy.
    destruct (decide (Z.of_nat i ≤ middleIndex)%Z).
    - eapply (right_of (Z.to_nat middleIndex) i); eauto; lia.
    - apply (Hnone i); [lia|done]. }
  destruct (belowZero (compareFunction element x)) eqn:Hbelow.
  { destruct (IH leftIndex (middleIndex - 1)%Z) as (result & -> & Hresult); [lia..|].
    eexists. split; [done|]. destruct Hresult as [Hfound|[Hneg' Hnone]]; [by left|].
    right. split; [done|]. intros i y Hi Hy.
    destruct (decide (middleIndex ≤ Z.of_nat i)%Z).
    - eapply (left_of (Z.to_nat middleIndex) i); eauto; lia.
    - apply (Hnone i); [lia|done]. }
  eexists. split; [done|]. left. split; [lia|]. exists x. split; [done|].
  unfold goesOn. by rewrite Habove, Hbelow.
Qed.

(** [binarySearch] always answers, with the index of an item at which the
    search stops or, when there is none, with a negative number. *)
Lemma binarySearch_total :
  ∃ result,
    binarySearch array element compareFunction = Some result
    ∧ (((0 ≤ result)%Z
        ∧ ∃ x, array !! Z.to_nat result = Some x ∧ goesOn x = false)
       ∨ ((result < 0)%Z
          ∧ ∀ y, y ∈ array → goesOn y = true)).
Proof.
  unfold binarySearch.
  destruct (binarySearchLoop_spec (S (length array)) 0 (Z.of_nat (length array) - 1))
    as (result & Hresult & Hcases); [lia..|].
  exists result. split; [done|]. destruct Hcases as [Hfound|[Hneg Hnone]]; [by left|].
  right. split; [done|]. intros y [i Hi]%list_elem_of_lookup.
  apply (Hnone i); [|done]. apply lookup_lt_Some in Hi. lia.
Qed.

End BinarySearch.

(** *** The comparator of [findSymbol] on well-formed ranges *)

Lemma comparePosition_positive line_ column_ r :
  positionLe (start (Token.range (Reference.token r)))
             (end_ (Token.range (Reference.token r))) →
  (comparePosition (line_, column_) r > 0)%Z ↔
  line (end_ (Token.range (Reference.token r))) < line_
  ∨ (line (end_ (Token.range (Reference.token r))) = line_
     ∧ column (end_ (Token.range (Reference.token r))) < column_).
Proof.
  unfold comparePosition, positionLe.
  repeat (case_bool_decide; simpl); lia.
Qed.

Lemma comparePosition_negative line_ column_ r :
  positionLe (start (Token.range (Reference.token r)))
             (end_ (Token.range (Reference.token r))) →
  (comparePosition (line_, column_) r < 0)%Z ↔
  line_ < line (start (Token.range (Reference.token r)))
  ∨ (line (start (Token.range (Reference.token r))) = line_
     ∧ column_ < column (start (Token.range (Reference.token r)))).
Proof.
  unfold comparePosition, positionLe.
  repeat (case_bool_decide; simpl); lia.
Qed.

Lemma goesOn_comparePosition position r :
  goesOn position (λ position reference, Num (comparePosition position reference)) r
  = negb (containsPosition position r).
Proof.
  unfold goesOn, containsPosition. cbn [aboveZero belowZero].
  destruct (Z.gtb_spec (comparePosition position r) 0),
    (Z.ltb_spec (comparePosition position r) 0); case_bool_decide; simpl;
    first [done|lia].
Qed.

Lemma findSymbol_spec d line_ column_ :
  sortedByStart (references d) →
  sortedByEnd (references d) →
  wellFormedRanges (references d) →
  ∃ found,
    findSymbol line_ column_ d = Some found
    ∧ match found with
      | Some r => r ∈ references d ∧ containsPosition (line_, column_) r = true
      | None => ∀ r, r ∈ references d → containsPosition (line_, column_) r = false
      end.
Proof.
  intros Hstart Hend Hwf. unfold findSymbol.
  destruct (binarySearch_total (references d) (line_, column_)
              (λ position reference, Num (comparePosition position reference)))
    as (result & -> & Hcases).
  - intros m i x y Hx Hpos Hi Hy. cbn [aboveZero] in Hpos. apply Z.gtb_lt, Z.lt_gt in Hpos.
    pose proof (Hend i m y x Hi Hy Hx) as Hle.
    apply comparePosition_positive in Hpos; [|by eapply Hwf, list_elem_of_lookup_2].
    assert (comparePosition (line_, column_) y > 0)%Z as Hy'.
    { apply comparePosition_positive; [by eapply Hwf, list_elem_of_lookup_2|].
      unfold positionLe in Hle. lia. }
    unfold goesOn. cbn [aboveZero belowZero]. apply orb_true_iff. left. apply Z.gtb_lt. lia.
  - intros m i x y Hx Hneg Hi Hy. cbn [belowZero] in Hneg. apply Z.ltb_lt in Hneg.
    pose proof (Hstart m i x y Hi Hx Hy) as Hle.
    apply comparePosition_negative in Hneg; [|by eapply Hwf, list_elem_of_lookup_2].
    assert (comparePosition (line_, column_) y < 0)%Z as Hy'.
    { apply comparePosition_negative; [by eapply Hwf, list_elem_of_lookup_2|].
      unfold positionLe in Hle. lia. }
    unfold goesOn. cbn [aboveZero belowZero]. apply orb_true_iff. right. by apply Z.ltb_lt.
  - simpl. eexists. split; [done|].
    destruct Hcases as [[Hnonneg (x & Hx & Hzero)]|[Hneg Hnone]].
    + destruct (Z.geb_spec result 0); [|lia]. rewrite Hx.
      split; [by eapply list_elem_of_lookup_2|].
      rewrite goesOn_comparePosition in Hzero. by apply negb_false_iff.
    + destruct (Z.geb_spec result 0); [lia|].
      intros r Hr. apply Hnone in Hr. rewrite goesOn_comparePosition in Hr.
      by apply negb_true_iff.
Qed.

(** *** [finishParsing] sorts the references by start position *)

Lemma compareReferences_le a b :
  (compareReferences a b <=? 0)%Z = true ↔ startLe a b.
Proof.
  unfold compareReferences, startLe, positionLe. rewrite Z.leb_le.
  case_bool_decide; lia.
Qed.

Lemma startLe_trans a b c : startLe a b → startLe b c → startLe a c.
Proof. unfold startLe, positionLe. lia. Qed.

Lemma startLe_total a b : startLe a b ∨ startLe b a.
Proof. unfold startLe, positionLe. lia. Qed.

Lemma insertSorted_StronglySorted x l :
  StronglySorted startLe l →
  StronglySorted startLe (insertSorted compareReferences x l).
Proof.
  induction 1 as [|y l Hsorted IH Hall]; simpl; [by repeat constructor|].
  destruct (compareReferences x y <=? 0)%Z eqn:Hcompare.
  - apply compareReferences_le in Hcompare.
    constructor; [by constructor|]. constructor; [done|].
    eapply Forall_impl; [done|]. intros z Hz. by eapply startLe_trans.
  - constructor; [done|].
    rewrite (DocumentFacts.insertSorted_Permutation compareReferences x l). constructor; [|done].
    destruct (startLe_total x y) as [Hxy|Hyx]; [|done].
    apply compareReferences_le in Hxy. congruence.
Qed.

Lemma sort_StronglySorted l : StronglySorted startLe (sort compareReferences l).
Proof.
  induction l as [|x l IH]; [constructor|]. by apply insertSorted_StronglySorted.
Qed.

Lemma sort_sortedByStart l : sortedByStart (sort compareReferences l).
Proof.
  pose proof (sort_StronglySorted l) as Hsorted.
  induction Hsorted as [|x l' Hsorted IH Hall]; intros i j a b Hij Ha Hb.
  - by rewrite lookup_nil in Ha.
  - destruct i as [|i], j as [|j]; simplify_eq/=.
    + unfold positionLe. lia.
    + eapply (Forall_forall (startLe a)); [done|]. by eapply list_elem_of_lookup_2.
    + lia.
    + eapply (IH i j); [lia|done..].
Qed.

(** After [finishParsing] the references are sorted as [findSymbol]
    needs them to start with. *)
Lemma finishParsing_sortedByStart d : sortedByStart (references (finishParsing d)).
Proof. destruct d. apply sort_sortedByStart. Qed.

(** *** Statements about [findSymbol] *)

(** C7, as stated, fails: sorting by start position does not make the
    search agree with a linear scan.  With a reference that spans columns
    0 to 9 followed by two short ones inside it, the cursor at column 8 is
    in the first reference only, and the search, sent right by the middle
    item, finds nothing. *)
Lemma findSymbol_misses_enclosing_reference :
  sortedByStart (references nestedReferences)
  ∧ linearScan (0, 8) (references nestedReferences) = Some (referenceAt 0 9)
  ∧ (∀ r, r ∈ references nestedReferences →
          containsPosition (0, 8) r = true → r = referenceAt 0 9)
  ∧ findSymbol 0 8 nestedReferences = Some None.
Proof.
  split; [|split; [by vm_compute|split; [|by vm_compute]]].
  - intros i j a b Hij Ha Hb.
    destruct i as [|[|[|i]]], j as [|[|[|j]]]; simplify_eq/=; try lia;
      unfold positionLe; simpl; lia.
  - intros r Hr Hin. simpl in Hr.
    repeat (apply elem_of_cons in Hr as [->|Hr]; [done || by vm_compute in Hin|]).
    by apply elem_of_nil in Hr.
Qed.

(** C7, amended.  For every document whose references are sorted by start
    position and also by end position, with well-formed ranges (as the
    ranges of distinct tokens of one source are), [findSymbol] returns a
    reference whose range contains the cursor position whenever some
    reference does, and none otherwise; it finds something exactly when
    the linear scan does, and the same reference when at most one contains
    the position. *)
Theorem findSymbol_agrees_with_linear_scan d line_ column_ :
  sortedByStart (references d) →
  sortedByEnd (references d) →
  wellFormedRanges (references d) →
  ∃ found,
    findSymbol line_ column_ d = Some found
    ∧ match found with
      | Some r => r ∈ references d ∧ containsPosition (line_, column_) r = true
      | None => ∀ r, r ∈ references d → containsPosition (line_, column_) r = false
      end
    ∧ (is_Some found ↔ is_Some (linearScan (line_, column_) (references d)))
    ∧ ((∀ a b, a ∈ references d → b ∈ references d →
               containsPosition (line_, column_) a = true →
               containsPosition (line_, column_) b = true → a = b) →
       found = linearScan (line_, column_) (references d)).
Proof.
  intros Hstart Hend Hwf.
  destruct (findSymbol_spec d line_ column_ Hstart Hend Hwf) as (found & Hfound & Hcases).
  exists found. split; [done|]. split; [done|].
  unfold linearScan.
  destruct (list_find _ (references d)) as [[i r']|] eqn:Hscan; simpl.
  - apply list_find_Some in Hscan as (Hi & Hin & _).
    apply list_elem_of_lookup_2 in Hi.
    destruct found as [r|].
    + destruct Hcases as [Hr Hcontains]. split; [done|].
      intros Hunique. f_equal. by apply Hunique.
    + rewrite (Hcases r' Hi) in Hin. done.
  - destruct found as [r|]; [|split; [done|done]].
    destruct Hcases as [Hr Hcontains].
    eapply list_find_None, Forall_forall in Hscan; [|done]. done.
Qed.

Lemma findSymbol_agrees_with_linear_scan_witness :
  ∃ found,
    findSymbol 0 6 disjointReferences = Some found
    ∧ match found with
      | Some r => r ∈ references disjointReferences
                  ∧ containsPosition (0, 6) r = true
      | None => ∀ r, r ∈ references disjointReferences →
                     containsPosition (0, 6) r = false
      end
    ∧ (is_Some found ↔ is_Some (linearScan (0, 6) (references disjointReferences)))
    ∧ ((∀ a b, a ∈ references disjointReferences →
               b ∈ references disjointReferences →
               containsPosition (0, 6) a = true →
               containsPosition (0, 6) b = true → a = b) →
       found = linearScan (0, 6) (references disjointReferences)).
Proof.
  apply (findSymbol_agrees_with_linear_scan disjointReferences 0 6).
  - intros i j a b Hij Ha Hb.
    destruct i as [|[|[|i]]], j as [|[|[|j]]]; simplify_eq/=; try lia;
      unfold positionLe; simpl; lia.
  - intros i j a b Hij Ha Hb.
    destruct i as [|[|[|i]]], j as [|[|[|j]]]; simplify_eq/=; try lia;
      unfold positionLe; simpl; lia.
  - intros r Hr. simpl in Hr.
    repeat (apply elem_of_cons in Hr as [->|Hr]; [unfold positionLe; simpl; lia|]).
    by apply elem_of_nil in Hr.
Defined.

End FindSymbolFacts.

(** ** Properties of the parser *)

Module ParserFacts.
Import Parser ParserSpec Examples.

(** *** Rules for the methods *)

Lemma ends_ret {A} (a : A) p Q : Q a p → ends (ret a) p Q.
Proof. done. Qed.

Lemma ends_bind {A B} (m : M A) (k : A → M B) p Q :
  ends m p (λ a p', ends (k a) p' Q) → ends (bind m k) p Q.
Proof. unfold ends, bind. by destruct (m p). Qed.

Lemma ends_mono {A} (m : M A) p (Q Q' : A → Parser → Prop) :
  ends m p Q → (∀ a p', Q a p' → Q' a p') → ends m p Q'.
Proof. unfold ends. destruct (m p); auto. Qed.

Lemma ends_throw {A} p (Q : A → Parser → Prop) : ends throw p Q.
Proof. done. Qed.

Lemma ends_token p Q : Q (currentToken p) p → ends token p Q.
Proof. done. Qed.

Lemma ends_document p Q : (∀ d, Q d p) → ends document p Q.
Proof. unfold ends, document. auto. Qed.

Lemma ends_update f p Q :
  (∀ p', currentToken p' = currentToken p → remaining p' = remaining p → Q () p') →
  ends (update f) p Q.
Proof. intros HQ. by apply HQ. Qed.

Lemma ends_addMessage text t type after p Q :
  (∀ p', currentToken p' = currentToken p → remaining p' = remaining p → Q () p') →
  ends (addMessage text t type after) p Q.
Proof. apply ends_update. Qed.

Lemma ends_updateOrThrow f p Q :
  (∀ p', currentToken p' = currentToken p → remaining p' = remaining p → Q () p') →
  ends (updateOrThrow f) p Q.
Proof.
  intros HQ. unfold ends, updateOrThrow.
  destruct (f (parsedDocument p)); [|done]. by apply HQ.
Qed.

Lemma remaining_advanced p :
  remaining (advanced p) ≤ remaining p
  ∧ (Token.type (currentToken p) ≠ TokenType.End →
     remaining (advanced p) < remaining p).
Proof.
  unfold remaining, advanced. destruct (tokens p) as [|t rest]; simpl;
    repeat case_bool_decide; simpl; split; try lia; done.
Qed.

Lemma ends_advanceToken p Q :
  (∀ p', remaining p' ≤ remaining p →
         (Token.type (currentToken p) ≠ TokenType.End → remaining p' < remaining p) →
         Q () p') →
  ends advanceToken p Q.
Proof. intros HQ. apply HQ; apply remaining_advanced. Qed.

Lemma ends_isDelimiter value p Q :
  (∀ b, (b = true → Token.type (currentToken p) = TokenType.Delimiter) → Q b p) →
  ends (isDelimiter value) p Q.
Proof.
  intros HQ. apply HQ. intros [H _]%andb_prop. by apply bool_decide_eq_true in H.
Qed.

Lemma ends_expectIdentifier p Q :
  (∀ r p', remaining p' ≤ remaining p →
           (Token.type (currentToken p) = TokenType.Identifier →
            remaining p' < remaining p) →
           Q r p') →
  ends expectIdentifier p Q.
Proof.
  intros HQ. unfold expectIdentifier. apply ends_bind, ends_token.
  case_bool_decide as Htype.
  - apply ends_bind, ends_advanceToken. intros p' Hle Hlt.
    apply ends_ret, HQ; [done|]. intros _. apply Hlt. by rewrite Htype.
  - apply ends_ret, HQ; [done|done].
Qed.

Lemma ends_storePair pair value p Q :
  (∀ value' p', currentToken p' = currentToken p → remaining p' = remaining p →
                Q value' p') →
  ends (storePair pair value) p Q.
Proof.
  intros HQ. unfold storePair.
  destruct pair as [[[k|] v t]|]; try (by apply ends_ret, HQ).
  case_match.
  - apply ends_bind, ends_addMessage. intros p' Hcur Hrem.
    by apply ends_ret, HQ.
  - by apply ends_ret, HQ.
Qed.


(** *** The descent consumes tokens *)


Lemma isLiteral_live t : isLiteral t = true → t ≠ TokenType.End.
Proof. by destruct t. Qed.

Lemma isTrait_literal t : isTrait t = true → Token.type t = TokenType.Identifier.
Proof. intros [H _]%andb_prop. by apply bool_decide_eq_true in H. Qed.

Ltac by_token_type :=
  repeat match goal with
  | H : currentToken _ = currentToken _ |- _ => rewrite H
  end;
  match goal with
  | H : Token.type ?t = _ |- context [Token.type ?t] => rewrite H; done
  end.

Ltac use_facts :=
  repeat match goal with
  | H : isLiteral ?t = true |- _ =>
      lazymatch goal with
      | _ : t ≠ TokenType.End |- _ => fail
      | _ => pose proof (isLiteral_live _ H)
      end
  | H : isTrait ?t = true |- _ =>
      lazymatch goal with
      | _ : Token.type t = TokenType.Identifier |- _ => fail
      | _ => pose proof (isTrait_literal _ H)
      end
  | H : bool_decide _ = true |- _ => apply bool_decide_eq_true in H
  | H : bool_decide _ = false |- _ => apply bool_decide_eq_false in H
  | H : ?c → _ |- _ =>
      lazymatch type of c with Prop => idtac end;
      let Hc := fresh in
      assert c as Hc by (first [done | congruence | by_token_type]);
      specialize (H Hc); clear Hc
  end.

Ltac same_token :=
  repeat match goal with
  | H : currentToken ?a = currentToken ?b |- _ => rewrite H in *; clear H
  end.

Ltac cases :=
  intros;
  repeat match goal with
  | H : context [isTrait ?t] |- _ =>
      lazymatch goal with
      | _ : isTrait t = _ |- _ => fail
      | _ => destruct (isTrait t) eqn:?
      end
  end;
  use_facts; same_token;
  repeat match goal with
  | H : context [isLiteral ?t] |- _ =>
      lazymatch goal with
      | _ : isLiteral t = _ |- _ => fail
      | _ => destruct (isLiteral t) eqn:?
      end
  end;
  simpl in *.

Ltac bound :=
  intros; use_facts;
  first
    [ lia
    | congruence
    | repeat split; intros; use_facts; first [lia | congruence] ].

Ltac call :=
  match goal with
  | IH : ∀ p : Parser, _ |- ends _ _ _ =>
      eapply ends_mono;
      [apply IH; bound | cbv beta; intros ? ? ?; destruct_and?]
  end.

Ltac rule :=
  lazymatch goal with
  | |- ends (bind _ _) _ _ => apply ends_bind
  | |- ends (ret _) _ _ => apply ends_ret
  | |- ends token _ _ => apply ends_token
  | |- ends document _ _ => apply ends_document; intros ?
  | |- ends (update _) _ _ => apply ends_update; intros ? ? ?
  | |- ends (addMessage _ _ _ _) _ _ => apply ends_addMessage; intros ? ? ?
  | |- ends (updateOrThrow _) _ _ => apply ends_updateOrThrow; intros ? ? ?
  | |- ends advanceToken _ _ => apply ends_advanceToken; intros ? ? ?
  | |- ends (isDelimiter _) _ _ => apply ends_isDelimiter; intros ? ?
  | |- ends expectIdentifier _ _ => apply ends_expectIdentifier; intros ? ? ? ?
  | |- ends (storePair _ _) _ _ => apply ends_storePair; intros ? ? ? ?
  | |- ends throw _ _ => exact I
  | |- ends (if negb ?b then _ else _) _ _ => destruct b eqn:?; cbn [negb]
  | |- ends (if ?b then _ else _) _ _ => destruct b eqn:?
  | |- ends (match ?x with _ => _ end) _ _ => destruct x eqn:?
  | |- ends _ _ _ => call
  end.

Ltac descend := repeat (rule; cbv beta zeta).

Lemma specs_step fuel : specs fuel → specs (S fuel).
Proof.
  intros (IHET & IHTA & IHLT & IHKVP & IHEV & IHEAO & IHAI & IHENO & IHOP).
  repeat split.
  - intros p previousToken Hfuel. cbn [expectTrait]. descend. all: try solve [bound].
  - intros p Hfuel Hopen. cbn [traitArguments]. descend. all: try solve [bound].
  - intros p Hfuel. cbn [leadingTraits]. descend. all: try solve [bound].
  - intros p optionalKey delimiter Hfuel. cbn [expectKeyValuePair]. descend.
    all: try solve [bound]. all: try solve [cases; bound].
  - intros p Hfuel. cbn [expectValue]. descend. all: try solve [bound].
  - intros p Hfuel. cbn [expectArrayObject]. descend. all: try solve [bound].
  - intros p value Hfuel Hopen. cbn [arrayItems]. descend. all: try solve [bound].
  - intros p afterToken Hfuel. cbn [expectNodeObject]. descend. all: try solve [bound].
  - intros p value Hfuel Hopen. cbn [objectPairs]. descend. all: try solve [bound].
Qed.

Lemma specs_all fuel : specs fuel.
Proof.
  induction fuel as [|fuel IH]; [|by apply specs_step].
  repeat split; intros; lia.
Qed.

Section WithBuiltins.
Variable numberIsTruthy : jstring → bool.
Variable JSON_stringify : option Node → jstring.
Variable encodeURIComponent : jstring → option jstring.
Variable arrayMethod : jstring → bool.

(** One statement consumes at least one token. *)
Lemma statement_consumes fuel p :
  Token.type (currentToken p) ≠ TokenType.End →
  4 * remaining p + 4 ≤ fuel →
  ends (statement numberIsTruthy JSON_stringify encodeURIComponent arrayMethod fuel) p
    (λ _ p', remaining p' < remaining p).
Proof.
  intros Hlive Hfuel.
  destruct (specs_all fuel)
    as (IHET & IHTA & IHLT & IHKVP & IHEV & IHEAO & IHAI & IHENO & IHOP).
  unfold statement, expectControlStatement. descend.
  all: try solve [bound].
Qed.

Lemma parse_ends fuel p :
  4 * remaining p + 5 ≤ fuel →
  ends (parse numberIsTruthy JSON_stringify encodeURIComponent arrayMethod fuel) p
    (λ _ p', Token.type (currentToken p') = TokenType.End).
Proof.
  revert p. induction fuel as [|fuel IH]; intros p Hfuel; [lia|].
  cbn [parse]. apply ends_bind, ends_token. case_bool_decide as Hend.
  - apply ends_bind. eapply ends_mono; [apply statement_consumes; [done|lia]|].
    cbv beta. intros _ p' Hless. apply IH. lia.
  - apply ends_update. intros p' Hcur _. rewrite Hcur.
    by destruct (decide (Token.type (currentToken p) = TokenType.End)).
Qed.






End WithBuiltins.

Lemma remaining_new tokens d : remaining (Parser.new tokens d) ≤ length tokens.
Proof.
  unfold Parser.new, remaining, advanced. destruct tokens as [|t rest]; simpl; [done|].
  case_bool_decide; lia.
Qed.

(** *** Statements about [parse] and [expectNodeObject] *)




(** C9 (the code departs from it).  A duplicate key is specified to be
    stored under a synthesized key so that no stored pair is lost.  In the
    object body with the keys [a], [a2] and [a] again, the third pair is
    stored under the key [a2], made of [a] and the number of keys, where the
    second pair was: the object ends up with two entries, those of [X] and
    [Z], and the pair of [Y] is gone, with one diagnostic for the duplicate
    and none for the loss. *)
Theorem expectNodeObject_overwrites_colliding_key :
  ∃ tokens first fields p',
    Lexer.getTokens collidingKeys 30 = Some tokens
    ∧ length tokens = 13
    ∧ expectNodeObject 30 first (Parser.new tokens (ParsedDocument.new []))
      = Done (Some (MkNode None (VObject fields) (Some first))) p'
    ∧ fields.*1 = [js "a"; js "a2"]
    ∧ (λ entry, Node.value entry.2) <$> fields = [VString (js "X"); VString (js "Z")]
    ∧ Message.text <$> messages (parsedDocument p') = [js "Key 'a' is already defined."].
Proof.
  eexists _, _, _, _. split; [vm_compute; reflexivity|].
  split; [reflexivity|]. split; [vm_compute; reflexivity|].
  split; [reflexivity|]. split; reflexivity.
Qed.

End ParserFacts.
(** ** Facts about identifiers *)

Module IdentifierFacts.
Import IdentifierSpec.

Lemma indexOf_Some c s fromIndex i :
  indexOf c s fromIndex = Some i →
  fromIndex ≤ i ∧ s !! i = Some c ∧ c ∉ take (i - fromIndex) (drop fromIndex s).
Proof.
  unfold indexOf. intros Hfind.
  destruct (list_find _ _) as [[k x]|] eqn:Hk; simplify_eq/=.
  apply list_find_Some in Hk as (Hlookup & -> & Hbefore).
  rewrite lookup_drop in Hlookup. replace (fromIndex + k - fromIndex) with k by lia.
  split; [lia|]. split; [done|].
  intros (j & Hj)%list_elem_of_lookup_1.
  apply lookup_take_Some in Hj as [Hj Hlt]. by eapply Hbefore.
Qed.

Lemma indexOf_None c s fromIndex :
  indexOf c s fromIndex = None → c ∉ drop fromIndex s.
Proof.
  unfold indexOf. intros Hfind.
  destruct (list_find _ _) as [[k x]|] eqn:Hk; simplify_eq/=.
  apply list_find_None in Hk. intros Hin.
  by eapply (Forall_forall (λ x, x ≠ c)) in Hk.
Qed.

Lemma substring_take_drop s a b :
  a ≤ b → b ≤ length s → substring s a b = take (b - a) (drop a s).
Proof. intros. unfold substring. by rewrite !Nat.min_l, Nat.max_r by lia. Qed.

Lemma new_written value :
  written (Identifier.new value) = value
  ∧ (∀ ns, Identifier.namespace (Identifier.new value) = Some ns → Ch.hash ∉ ns)
  ∧ (Ch.dollar ∉ Identifier.name (Identifier.new value))
  ∧ (Identifier.namespace (Identifier.new value) = None → Ch.hash ∉ value).
Proof.
  unfold written, Identifier.new. cbn zeta.
  destruct (indexOf Ch.hash value 0) as [n|] eqn:Hn; simpl.
  - apply indexOf_Some in Hn as (_ & Hn & Hfree). rewrite drop_0, Nat.sub_0_r in Hfree.
    pose proof (lookup_lt_Some _ _ _ Hn) as Hlen.
    destruct (indexOf Ch.dollar value (S n)) as [m|] eqn:Hm; simpl.
    + apply indexOf_Some in Hm as (Hnm & Hm & Hfree').
      pose proof (lookup_lt_Some _ _ _ Hm) as Hlen'.
      rewrite substring_take_drop by lia.
      repeat split; [|by intros ? [= <-]|done|done].
      rewrite <- (take_drop_middle value n Ch.hash) at 4 by done.
      rewrite <- app_assoc. f_equal. simpl. f_equal.
      rewrite <- (take_drop (m - S n) (drop (S n) value)) at 2. f_equal.
      rewrite drop_drop. replace (S n + (m - S n)) with m by lia.
      replace (m + 1) with (S m) by lia.
      symmetry. by apply drop_S.
    + apply indexOf_None in Hm.
      rewrite substring_take_drop by lia. rewrite (take_ge (drop (S n) value)) by (rewrite length_drop; lia).
      repeat split; [|by intros ? [= <-]|done|done].
      rewrite app_nil_r. rewrite <- (take_drop_middle value n Ch.hash) at 3 by done.
      by rewrite <- app_assoc.
  - apply indexOf_None in Hn. rewrite drop_0 in Hn.
    destruct (indexOf Ch.dollar value 0) as [m|] eqn:Hm; simpl.
    + apply indexOf_Some in Hm as (_ & Hm & Hfree'). rewrite drop_0, Nat.sub_0_r in *.
      pose proof (lookup_lt_Some _ _ _ Hm) as Hlen'.
      rewrite substring_take_drop by lia. rewrite drop_0, Nat.sub_0_r.
      repeat split; [|done..].
      replace (m + 1) with (S m) by lia. by apply take_drop_middle.
    + apply indexOf_None in Hm. rewrite drop_0 in Hm.
      rewrite substring_take_drop by lia. rewrite drop_0, Nat.sub_0_r, firstn_all, app_nil_r.
      done.
Qed.


Lemma indexOf_elem_of c s :
  c ∈ s → ∃ i, indexOf c s 0 = Some i.
Proof.
  intros Hin. destruct (indexOf c s 0) as [i|] eqn:Hi; [by eexists|].
  apply indexOf_None in Hi. by rewrite drop_0 in Hi.
Qed.

Lemma indexOf_first c pre post fromIndex :
  fromIndex ≤ length pre → c ∉ drop fromIndex pre →
  indexOf c (pre ++ c :: post) fromIndex = Some (length pre).
Proof.
  intros Hfrom Hfree. unfold indexOf.
  destruct (list_find _ _) as [[k x]|] eqn:Hk; simpl.
  - apply list_find_Some in Hk as (Hlookup & -> & Hbefore).
    rewrite lookup_drop in Hlookup. f_equal.
    destruct (decide (fromIndex + k < length pre)) as [Hlt|Hge].
    + rewrite lookup_app_l in Hlookup by done. destruct Hfree.
      apply list_elem_of_lookup. exists k. by rewrite lookup_drop.
    + destruct (decide (fromIndex + k = length pre)) as [|Hne]; [done|].
      exfalso. eapply (Hbefore (length pre - fromIndex)); [|lia|done].
      rewrite lookup_drop. replace (fromIndex + (length pre - fromIndex)) with (length pre) by lia.
      by rewrite list_lookup_middle.
  - apply list_find_None in Hk. exfalso.
    eapply (Forall_forall (λ x, x ≠ c)) in Hk; [done|].
    apply list_elem_of_lookup. exists (length pre - fromIndex).
    rewrite lookup_drop. replace (fromIndex + (length pre - fromIndex)) with (length pre) by lia.
    by rewrite list_lookup_middle.
Qed.

Lemma indexOf_absent c s fromIndex : c ∉ drop fromIndex s → indexOf c s fromIndex = None.
Proof.
  intros Hfree. unfold indexOf.
  destruct (list_find _ _) as [[k x]|] eqn:Hk; [|done].
  apply list_find_Some in Hk as (Hlookup & -> & _). destruct Hfree.
  by eapply list_elem_of_lookup_2.
Qed.

Lemma drop_past_middle {A} (pre : list A) c post :
  drop (S (length pre)) (pre ++ c :: post) = post.
Proof.
  rewrite (cons_middle c pre post), (assoc_L (++)).
  replace (S (length pre)) with (length (pre ++ [c])) by (rewrite length_app; simpl; lia).
  by rewrite drop_app_length.
Qed.

Lemma substring_middle (pre mid post : jstring) :
  substring (pre ++ mid ++ post) (length pre) (length pre + length mid) = mid.
Proof.
  rewrite substring_take_drop by (rewrite ?length_app; lia).
  rewrite drop_app_length. replace (length pre + length mid - length pre) with (length mid) by lia.
  by rewrite take_app_length.
Qed.

(** The constructor on a string put together from its parts. *)
Lemma new_absolute ns name :
  Ch.hash ∉ ns → Ch.dollar ∉ name →
  Identifier.new (ns ++ Ch.hash :: name) = Identifier.mk (Some ns) name None.
Proof.
  intros Hns Hname. unfold Identifier.new.
  rewrite (indexOf_first Ch.hash ns name 0) by (by rewrite ?drop_0; try lia).
  cbn [from_option fmap option_fmap option_map default].
  rewrite indexOf_absent by (by rewrite drop_past_middle).
  cbn [from_option fmap option_fmap option_map default]. f_equal.
  - by rewrite take_app_length.
  - replace (ns ++ Ch.hash :: name) with ((ns ++ [Ch.hash]) ++ name ++ [])
      by (by rewrite app_nil_r, <- app_assoc).
    replace (S (length ns)) with (length (ns ++ [Ch.hash])) by (rewrite length_app; simpl; lia).
    replace (length ((ns ++ [Ch.hash]) ++ name ++ []))
      with (length (ns ++ [Ch.hash]) + length name) by (rewrite !length_app; simpl; lia).
    apply substring_middle.
Qed.

Lemma new_absolute_member ns name member :
  Ch.hash ∉ ns → Ch.dollar ∉ name →
  Identifier.new (ns ++ Ch.hash :: name ++ Ch.dollar :: member)
  = Identifier.mk (Some ns) name (Some member).
Proof.
  intros Hns Hname. unfold Identifier.new.
  rewrite (indexOf_first Ch.hash ns _ 0) by (by rewrite ?drop_0; try lia).
  cbn [from_option fmap option_fmap option_map default].
  assert (ns ++ Ch.hash :: name ++ Ch.dollar :: member
          = (ns ++ Ch.hash :: name) ++ Ch.dollar :: member) as Hsplit
    by (by rewrite <- app_assoc).
  rewrite Hsplit. rewrite (indexOf_first Ch.dollar (ns ++ Ch.hash :: name) member).
  2:{ rewrite length_app. simpl. lia. }
  2:{ by rewrite drop_past_middle. }
  cbn [from_option fmap option_fmap option_map default]. f_equal.
  - rewrite <- Hsplit. by rewrite take_app_length.
  - replace ((ns ++ Ch.hash :: name) ++ Ch.dollar :: member)
      with ((ns ++ [Ch.hash]) ++ name ++ Ch.dollar :: member)
      by (by rewrite <- !app_assoc).
    replace (S (length ns)) with (length (ns ++ [Ch.hash])) by (rewrite length_app; simpl; lia).
    replace (length (ns ++ Ch.hash :: name))
      with (length (ns ++ [Ch.hash]) + length name) by (rewrite !length_app; simpl; lia).
    apply substring_middle.
  - f_equal. replace (length (ns ++ Ch.hash :: name) + 1)
      with (S (length (ns ++ Ch.hash :: name))) by lia.
    apply drop_past_middle.
Qed.

Lemma new_relative_member name member :
  Ch.hash ∉ name → Ch.dollar ∉ name → Ch.hash ∉ member →
  Identifier.new (name ++ Ch.dollar :: member) = Identifier.mk None name (Some member).
Proof.
  intros Hhash Hdollar Hmember. unfold Identifier.new.
  rewrite (indexOf_absent Ch.hash).
  2:{ rewrite drop_0. rewrite elem_of_app, elem_of_cons. intros [?|[?|?]]; done. }
  cbn [from_option fmap option_fmap option_map default].
  rewrite (indexOf_first Ch.dollar name member 0) by (by rewrite ?drop_0; try lia).
  cbn [from_option fmap option_fmap option_map default]. f_equal.
  - apply (substring_middle [] name (Ch.dollar :: member)).
  - f_equal. replace (length name + 1) with (S (length name)) by lia.
    apply drop_past_middle.
Qed.

Lemma forMember_new value memberName :
  (truthy (Identifier.namespace (Identifier.new value)) = true →
   Identifier.forMember (Identifier.new value) memberName
   = Identifier.mk (Identifier.namespace (Identifier.new value))
       (Identifier.name (Identifier.new value)) (Some memberName))
  ∧ (Identifier.namespace (Identifier.new value) = None →
     Ch.hash ∉ memberName →
     Identifier.forMember (Identifier.new value) memberName
     = Identifier.mk None (Identifier.name (Identifier.new value)) (Some memberName)).
Proof.
  destruct (new_written value) as (Hwritten & Hns & Hname & Hnone).
  unfold Identifier.forMember. split.
  - intros Htruthy. rewrite Htruthy.
    destruct (Identifier.namespace (Identifier.new value)) as [ns|] eqn:Hnsv; [|done].
    simpl. rewrite <- app_assoc. simpl.
    apply new_absolute_member; [by apply Hns|done].
  - intros Hnsv Hmember. rewrite Hnsv. simpl.
    apply new_relative_member; [|done..].
    specialize (Hnone Hnsv). rewrite <- Hwritten in Hnone.
    unfold written in Hnone. rewrite Hnsv in Hnone. cbn [from_option] in Hnone.
    rewrite app_nil_l, elem_of_app in Hnone. tauto.
Qed.

(** *** Statements about [Identifier] *)

(** X1.  The constructor of [Identifier] loses nothing of the string it
    is given: the namespace with its [#], the name, and the member with its
    [$], written one after the other, are that string again.  The namespace
    holds no [#], the name no [$], and there is no namespace only when the
    string has no [#]. *)
Theorem new_round_trip value :
  written (Identifier.new value) = value
  ∧ (∀ ns, Identifier.namespace (Identifier.new value) = Some ns → Ch.hash ∉ ns)
  ∧ (Ch.dollar ∉ Identifier.name (Identifier.new value))
  ∧ (Identifier.namespace (Identifier.new value) = None → Ch.hash ∉ value).
Proof. exact (new_written value). Qed.

(** X2.  An identifier written with a namespace resolves to itself: for a
    string that holds a [#], [resolveId] of the identifier made of it is
    that string, whatever the document. *)
Theorem resolveId_absolute value d :
  Ch.hash ∈ value → ParsedDocument.resolveId (Identifier.new value) d = value.
Proof.
  intros Hin. destruct (new_written value) as (Hwritten & _).
  unfold ParsedDocument.resolveId.
  destruct (Identifier.namespace (Identifier.new value)) as [ns|] eqn:Hns.
  - transitivity (written (Identifier.new value)); [|done].
    unfold written. rewrite Hns. simpl.
    rewrite <- app_assoc. simpl. by destruct (Identifier.member (Identifier.new value)).
  - exfalso. apply indexOf_elem_of in Hin as [i Hi].
    unfold Identifier.new in Hns. by rewrite Hi in Hns.
Qed.

Lemma resolveId_absolute_witness :
  ParsedDocument.resolveId (Identifier.new (js "a.b#Foo$bar")) Examples.sampleDocument
  = js "a.b#Foo$bar".
Proof.
  apply (resolveId_absolute (js "a.b#Foo$bar") Examples.sampleDocument).
  vm_compute. do 3 right. left.
Defined.

(** X3.  [forMember] of an identifier made by the constructor keeps its
    namespace and its name and has the given member, provided that the
    namespace is not the empty string and that, when there is no namespace,
    the member holds no [#]. *)
Theorem forMember_of_new value memberName :
  match Identifier.namespace (Identifier.new value) with
  | Some ns => ns ≠ []
  | None => Ch.hash ∉ memberName
  end →
  Identifier.forMember (Identifier.new value) memberName
  = Identifier.mk (Identifier.namespace (Identifier.new value))
      (Identifier.name (Identifier.new value)) (Some memberName).
Proof.
  destruct (forMember_new value memberName) as [Hsome Hnone].
  destruct (Identifier.namespace (Identifier.new value)) as [[|c ns]|] eqn:Hns;
    intros Hside; [done|by apply Hsome|by apply Hnone].
Qed.

Lemma forMember_of_new_witness :
  Identifier.forMember (Identifier.new (js "a.b#Foo")) (js "bar")
  = Identifier.mk (Some (js "a.b")) (js "Foo") (Some (js "bar")).
Proof.
  apply (forMember_of_new (js "a.b#Foo") (js "bar")). by vm_compute.
Defined.

End IdentifierFacts.

(** ** More facts about the parsed document *)

Module DocumentLaws.
Import ParsedDocument DocumentSpec SectionSpec RegistrySpec.

Lemma addMessage_fields text token type after d :
  sections (addMessage text token type after d) = sections d
  ∧ namespace (addMessage text token type after d) = namespace d
  ∧ shapes (addMessage text token type after d) = shapes d
  ∧ relativeShapes (addMessage text token type after d) = relativeShapes d
  ∧ references (addMessage text token type after d) = references d
  ∧ parsedMessageCount (addMessage text token type after d) = parsedMessageCount d
  ∧ metadata (addMessage text token type after d) = metadata d
  ∧ controls (addMessage text token type after d) = controls d
  ∧ uri (addMessage text token type after d) = uri d.
Proof. unfold addMessage. by case_match. Qed.

Lemma addMessage_not_nil text token type after d :
  messages (addMessage text token type after d) ≠ [].
Proof. unfold addMessage. case_match. simpl. by destruct (messages d). Qed.

Lemma enterSection_sections_eq section token d :
  sections (enterSection section token d)
  = if Section_.get section (sections d) is None
    then Section_.set section token (sections d) else sections d.
Proof.
  unfold enterSection.
  destruct section; repeat case_match;
    rewrite ?(proj1 (addMessage_fields _ _ _ _ _)); by destruct d.
Qed.

Lemma enterSection_sections section token d s :
  defined (Section_.get s (sections (enterSection section token d))) = true
  ↔ s = section ∨ defined (Section_.get s (sections d)) = true.
Proof.
  rewrite enterSection_sections_eq.
  destruct (sections d) as [[c|] [m|] [sh|]], section, s; simpl;
    split; intros; (done || (by left) || (by right) || by destruct_or?).
Qed.

Lemma enterSection_no_message section token d :
  messages (enterSection section token d) = []
  ↔ messages d = []
    ∧ ∀ s, defined (Section_.get s (sections d)) = true → rank s ≤ rank section.
Proof.
  assert ((∀ s, defined (Section_.get s (sections d)) = true → rank s ≤ rank section)
          ↔ match section with
            | Section_.Control =>
                defined (Section_.metadata (sections d))
                || defined (Section_.shape (sections d)) = false
            | Section_.Metadata => defined (Section_.shape (sections d)) = false
            | Section_.Shape => True
            end) as ->.
  { destruct section; split.
    - intros Hrank. pose proof (Hrank Section_.Metadata) as H1.
      pose proof (Hrank Section_.Shape) as H2. simpl in *.
      destruct (Section_.metadata (sections d)), (Section_.shape (sections d));
        simpl in *; (done || lia).
    - intros [H1 H2]%orb_false_elim [] Hs; simpl in *; (lia || congruence).
    - intros Hrank. pose proof (Hrank Section_.Shape) as H2. simpl in *.
      destruct (Section_.shape (sections d)); simpl in *; (done || lia).
    - intros H1 [] Hs; simpl in *; (lia || congruence).
    - done.
    - intros _ [] _; simpl; lia. }
  unfold enterSection.
  set (d' := if Section_.get section (sections d) is None
             then withSections (Section_.set section token (sections d)) d else d).
  assert (messages d' = messages d) as Hmessages
    by (subst d'; case_match; by destruct d).
  assert (Section_.metadata (sections d') = Section_.metadata (sections d)
          ∨ section = Section_.Metadata) as Hmetadata
    by (subst d'; destruct section, d as [? [? ? ?] ? ? ? ? ? ? ? ?]; simpl;
        repeat case_match; auto).
  assert (Section_.shape (sections d') = Section_.shape (sections d)
          ∨ section = Section_.Shape) as Hshape
    by (subst d'; destruct section, d as [? [? ? ?] ? ? ? ? ? ? ? ?]; simpl;
        repeat case_match; auto).
  clearbody d'.
  destruct section; destruct Hmetadata as [Hm|?]; destruct Hshape as [Hs|?]; try done;
    rewrite ?Hm, ?Hs;
    try match goal with |- context [if ?b then _ else _] => destruct b end;
    rewrite <- ?Hmessages;
    (split; [try (by intros ?%addMessage_not_nil); tauto | by intros [? ?]]).
Qed.

Lemma enterAll_snoc statements section token d :
  enterAll (statements ++ [(section, token)]) d
  = enterSection section token (enterAll statements d).
Proof. unfold enterAll. by rewrite foldl_app. Qed.

(** X4.  Statements that enter their sections one after the other, from a
    new document on: a section has its token exactly when a statement
    entered it, and no message is recorded exactly when the sections were
    entered in the order control, metadata, shapes. *)
Theorem enterSection_in_order uri statements :
  (∀ s, defined (Section_.get s (sections (enterAll statements (ParsedDocument.new uri)))) = true
        ↔ s ∈ statements.*1)
  ∧ (messages (enterAll statements (ParsedDocument.new uri)) = []
     ↔ inOrder statements.*1).
Proof.
  induction statements as [|[section token] statements [IHseen IHorder]] using rev_ind.
  - split; [|by split; [constructor|]].
    intros s. split; [by destruct s|]. by intros ?%elem_of_nil.
  - rewrite enterAll_snoc, fmap_app. simpl. split.
    + intros s. rewrite enterSection_sections, IHseen, elem_of_app, list_elem_of_singleton.
      tauto.
    + rewrite enterSection_no_message, IHorder. unfold inOrder.
      rewrite StronglySorted_app. setoid_rewrite IHseen.
      setoid_rewrite list_elem_of_singleton.
      split.
      * intros [Hsorted Hrank]. split; [|split; [done|repeat constructor]].
        intros x1 x2 Hx1 ->. by apply Hrank.
      * intros (Hrank & Hsorted & _). split; [done|]. intros s Hs. by apply Hrank.
Qed.


(** *** Validating again *)

Lemma sort_sorted l :
  StronglySorted startLe l → sort compareReferences l = l.
Proof.
  induction 1 as [|x l Hsorted IH Hall]; [done|].
  unfold sort in *. simpl. rewrite IH. destruct l as [|y l]; [done|]. simpl.
  apply Forall_cons in Hall as [Hxy _].
  apply FindSymbolFacts.compareReferences_le in Hxy. by rewrite Hxy.
Qed.

Lemma sort_idempotent l :
  sort compareReferences (sort compareReferences l) = sort compareReferences l.
Proof. apply sort_sorted, FindSymbolFacts.sort_StronglySorted. Qed.

Lemma unknownShapes_ext parsedFiles parsedFiles' d d' r :
  shapes d' = shapes d → relativeShapes d' = relativeShapes d →
  namespace d' = namespace d →
  (∀ identifier,
     isExternalShape identifier parsedFiles' d = isExternalShape identifier parsedFiles d) →
  unknownShapes parsedFiles' d' r = unknownShapes parsedFiles d r.
Proof.
  intros Hshapes Hrelative Hnamespace Hexternal.
  unfold unknownShapes, isUnknown.
  assert (resolveId (Reference.identifier r) d' = resolveId (Reference.identifier r) d) as ->
    by (unfold resolveId; by rewrite Hrelative, Hnamespace).
  rewrite Hshapes, <- Hexternal.
  assert (∀ files, isExternalShape (Reference.identifier r) files d'
                   = isExternalShape (Reference.identifier r) files d) as ->; [|done].
  intros files. induction files as [|f files IH]; simpl; [done|].
  by rewrite IH, Hnamespace.
Qed.

Lemma namespaceWarning_ext d d' :
  sections d' = sections d → namespace d' = namespace d →
  namespaceWarning d' = namespaceWarning d.
Proof.
  intros Hsections Hnamespace. unfold namespaceWarning, validateNamespace.
  replace (sections (withMessages [] d')) with (sections d) by (by destruct d').
  replace (namespace (withMessages [] d')) with (namespace d) by (by destruct d').
  replace (sections (withMessages [] d)) with (sections d) by (by destruct d).
  replace (namespace (withMessages [] d)) with (namespace d) by (by destruct d).
  repeat case_match; try done.
  unfold addMessage. by case_match.
Qed.

Lemma isExternalShape_sameRegistries identifier parsedFiles parsedFiles' d :
  sameRegistries parsedFiles parsedFiles' →
  isExternalShape identifier parsedFiles' d = isExternalShape identifier parsedFiles d.
Proof.
  intros Hsame. apply eq_true_iff_eq.
  rewrite !DocumentFacts.isExternalShape_true.
  split; intros (f & Hf & Hns & Hshape).
  - destruct (proj2 (Hsame (namespace f) (relativeShapes f))) as (f' & Hf' & Hns' & Hrel');
      [by exists f|].
    exists f'. by rewrite Hns', Hrel'.
  - destruct (proj1 (Hsame (namespace f) (relativeShapes f))) as (f' & Hf' & Hns' & Hrel');
      [by exists f|].
    exists f'. by rewrite Hns', Hrel'.
Qed.

(** X5.  [validate] reads the tracked documents only for their namespaces
    and their relative shapes: two lists of documents that hold the same
    pairs of these, in whatever order and however often, give the same
    result. *)
Theorem validate_same_registries parsedFiles parsedFiles' d :
  sameRegistries parsedFiles parsedFiles' →
  validate parsedFiles' d = validate parsedFiles d.
Proof.
  intros Hsame. rewrite !DocumentFacts.validate_eq. do 3 f_equal.
  apply flat_map_ext. intros r. apply unknownShapes_ext; try done.
  intros identifier. by apply isExternalShape_sameRegistries.
Qed.

Lemma validate_same_registries_witness :
  validate [Examples.definingDocument; Examples.referringDocument;
            Examples.definingDocument] Examples.referringDocument
  = validate [Examples.referringDocument; Examples.definingDocument]
      Examples.referringDocument.
Proof.
  apply (validate_same_registries
           [Examples.referringDocument; Examples.definingDocument]
           [Examples.definingDocument; Examples.referringDocument;
            Examples.definingDocument]).
  intros ns relative.
  split; intros (f & Hf & Hns & Hrel); exists f; (split; [|done]);
    repeat (apply elem_of_cons in Hf as [->|Hf]; [set_solver|]);
    by apply elem_of_nil in Hf.
Defined.

(** X6.  Validating a second time changes nothing: for a document whose
    count of structural messages is within its messages, as it is from
    [finishParsing] on, [validate] applied to the result of [validate]
    gives that result again, also when the tracked documents have been
    validated in between. *)
Theorem validate_idempotent parsedFiles parsedFiles' d :
  finished d →
  sameRegistries parsedFiles parsedFiles' →
  validate parsedFiles' (validate parsedFiles d) = validate parsedFiles d.
Proof.
  intros Hfinished Hsame.
  rewrite (DocumentFacts.validate_eq parsedFiles' (validate _ _)).
  rewrite (DocumentFacts.validate_eq parsedFiles d).
  set (refs := sort compareReferences (references d)).
  set (ms := take (parsedMessageCount d) (messages d)).
  match goal with |- context [withMessages (ms ++ ?rest) _] => set (added := rest) end.
  set (d1 := withMessages (ms ++ added) (withReferences refs d)).
  assert (parsedMessageCount d1 = parsedMessageCount d) as -> by (by destruct d).
  assert (messages d1 = ms ++ added) as -> by (by destruct d).
  assert (references d1 = refs) as -> by (by destruct d).
  assert (take (parsedMessageCount d) (ms ++ added) = ms) as ->.
  { rewrite take_app_le by (subst ms; rewrite length_take; unfold finished in *; lia).
    subst ms. rewrite take_take. f_equal. lia. }
  subst refs. rewrite sort_idempotent.
  rewrite (namespaceWarning_ext d d1) by (by destruct d).
  assert (flat_map (unknownShapes parsedFiles' d1) (sort compareReferences (references d))
          = flat_map (unknownShapes parsedFiles d) (sort compareReferences (references d)))
    as ->.
  { apply flat_map_ext. intros r. apply unknownShapes_ext; try (by destruct d).
    intros identifier. by apply isExternalShape_sameRegistries. }
  fold added. by destruct d.
Qed.

Lemma validate_idempotent_witness :
  validate [validate [Examples.referringDocument] Examples.referringDocument]
    (validate [Examples.referringDocument] Examples.referringDocument)
  = validate [Examples.referringDocument] Examples.referringDocument.
Proof.
  apply (validate_idempotent [Examples.referringDocument]
           [validate [Examples.referringDocument] Examples.referringDocument]).
  - vm_compute. lia.
  - intros ns relative.
    split; intros (f & ->%list_elem_of_singleton & Hns & Hrel); eexists;
      (split; [by apply list_elem_of_singleton|]); by rewrite <- Hns, <- Hrel.
Defined.


(** *** Registering shapes *)

Lemma putItem_lookup {TItem} (map map' : gmap jstring (list TItem)) key item :
  putItem map key item = Some map' →
  map' !! key = Some (default [] (map !! key) ++ [item]).
Proof.
  unfold putItem. destruct (map !! key) eqn:Hkey; [|case_match; [done|]];
    intros [= <-]; by rewrite lookup_insert_eq.
Qed.

Lemma putItem_lookup_ne {TItem} (map map' : gmap jstring (list TItem)) key item key' :
  putItem map key item = Some map' → key' ≠ key → map' !! key' = map !! key'.
Proof.
  unfold putItem. destruct (map !! key); [|case_match; [done|]];
    intros [= <-] ?; by rewrite lookup_insert_ne.
Qed.

Lemma putItem_grows {TItem} (map map' : gmap jstring (list TItem)) key item key' items :
  putItem map key item = Some map' →
  map !! key' = Some items →
  ∃ more, map' !! key' = Some (items ++ more).
Proof.
  intros Hput Hitems. destruct (decide (key' = key)) as [->|Hne].
  - rewrite (putItem_lookup _ _ _ _ Hput), Hitems. by eexists.
  - rewrite (putItem_lookup_ne _ _ _ _ _ Hput) by done. exists []. by rewrite app_nil_r.
Qed.

(** Where [addShape] does not throw, its two calls of [putItem] gave the
    registries of the result. *)
Lemma addShape_Some identifier token d d0 :
  addShape identifier token d = Some d0 →
  putItem (shapes d) (resolveId identifier d) token = Some (shapes d0)
  ∧ putItem (relativeShapes d) (Identifier.toRelative identifier) (resolveId identifier d)
    = Some (relativeShapes d0)
  ∧ namespace d0 = namespace d.
Proof.
  unfold addShape. set (resolved := resolveId identifier d).
  set (d1 := if has _ _ then _ else d).
  assert (shapes d1 = shapes d ∧ relativeShapes d1 = relativeShapes d
          ∧ namespace d1 = namespace d) as (-> & -> & Hnamespace).
  { subst d1. case_match; [|done]. unfold addMessage. case_match. by destruct d. }
  destruct (putItem (shapes d) _ _) as [shapes'|]; [|done].
  destruct (putItem (relativeShapes d) _ _) as [relativeShapes'|]; [|done].
  simpl. intros [= <-]. by destruct d1.
Qed.

Lemma resolveId_ext identifier d d' :
  relativeShapes d' = relativeShapes d → namespace d' = namespace d →
  resolveId identifier d' = resolveId identifier d.
Proof. intros Hrelative Hnamespace. unfold resolveId. by rewrite Hrelative, Hnamespace. Qed.

Lemma registered_ext identifier d d' :
  shapes d' = shapes d → relativeShapes d' = relativeShapes d →
  namespace d' = namespace d →
  registered d identifier → registered d' identifier.
Proof.
  intros Hshapes Hrelative Hnamespace [Hshape Hlisted]. unfold registered.
  rewrite (resolveId_ext identifier d d'), Hshapes, Hrelative by done. done.
Qed.

Lemma resolveId_addShape_same identifier token d d0 :
  addShape identifier token d = Some d0 →
  resolveId identifier d0 = resolveId identifier d.
Proof.
  intros (_ & Hrelative & Hnamespace)%addShape_Some.
  set (resolved := resolveId identifier d) in *.
  unfold resolveId. rewrite Hnamespace.
  destruct (Identifier.namespace identifier) as [ns|] eqn:Hns;
    [subst resolved; unfold resolveId; by rewrite Hns|].
  rewrite (putItem_lookup _ _ _ _ Hrelative).
  unfold putItem in Hrelative. subst resolved. unfold resolveId in *. rewrite Hns in *.
  destruct (relativeShapes d !! Identifier.toRelative identifier) as [[|x l]|]; try done.
Qed.

Lemma registered_addShape_same identifier token d d0 :
  addShape identifier token d = Some d0 → registered d0 identifier.
Proof.
  intros Hadd. unfold registered. rewrite (resolveId_addShape_same _ _ _ _ Hadd).
  apply addShape_Some in Hadd as (Hshapes & Hrelative & _).
  rewrite (putItem_lookup _ _ _ _ Hshapes). split; [by eexists|]. intros _.
  rewrite (putItem_lookup _ _ _ _ Hrelative). by eexists.
Qed.

Lemma registered_addShape identifier identifier' token d d0 :
  addShape identifier' token d = Some d0 →
  registered d identifier → registered d0 identifier.
Proof.
  intros (Hshapes & Hrelative & Hnamespace)%addShape_Some [[tokens Hshape] Hlisted].
  unfold registered.
  assert (∀ key, is_Some (shapes d !! key) → is_Some (shapes d0 !! key)) as Hgrow.
  { intros key [items Hitems].
    destruct (putItem_grows _ _ _ _ key items Hshapes) as [more ->]; [done|by eexists]. }
  destruct (Identifier.namespace identifier) as [ns|] eqn:Hns.
  - split; [|done].
    assert (resolveId identifier d0 = resolveId identifier d)
      as -> by (unfold resolveId; by rewrite Hns).
    apply Hgrow. by eexists.
  - destruct (Hlisted eq_refl) as [ids Hids].
    destruct (decide (Identifier.toRelative identifier = Identifier.toRelative identifier'))
      as [Hsame|Hother].
    + split; [|intros _; rewrite Hsame, (putItem_lookup _ _ _ _ Hrelative); by eexists].
      unfold resolveId at 1. rewrite Hns, Hsame, (putItem_lookup _ _ _ _ Hrelative).
      rewrite <- Hsame, Hids. destruct ids as [|x ids]; simpl.
      * rewrite (putItem_lookup _ _ _ _ Hshapes). by eexists.
      * apply Hgrow. exists tokens. rewrite <- Hshape.
        unfold resolveId. by rewrite Hns, Hids.
    + split; [|intros _; rewrite (putItem_lookup_ne _ _ _ _ _ Hrelative) by done;
                by eexists].
      assert (resolveId identifier d0 = resolveId identifier d) as ->.
      { unfold resolveId. rewrite Hns.
        rewrite (putItem_lookup_ne _ _ _ _ _ Hrelative) by done. by rewrite Hids. }
      apply Hgrow. by eexists.
Qed.

Lemma registered_withNamespace identifier value d :
  registered d identifier → registered (withNamespace value d) identifier.
Proof.
  intros [Hshape Hlisted]. unfold registered.
  assert (resolveId identifier (withNamespace value d) = resolveId identifier d) as ->.
  { unfold resolveId. destruct (Identifier.namespace identifier) as [ns|] eqn:Hns;
      [done|].
    destruct (Hlisted eq_refl) as [ids Hids].
    replace (relativeShapes (withNamespace value d)) with (relativeShapes d)
      by (by destruct d).
    by rewrite Hids. }
  by destruct d.
Qed.

Lemma registered_edited identifier d d' :
  edited d d' → registered d identifier → registered d' identifier.
Proof.
  induction 1 as [|d' d'' identifier' token _ IH Hadd|d' identifier' token type _ IH
                 |d' text token type after _ IH|d' section token _ IH
                 |d' value _ IH|d' value _ IH|d' value _ IH|d' _ IH];
    intros Hregistered; try specialize (IH Hregistered).
  - done.
  - by eapply registered_addShape.
  - eapply registered_ext; [..|exact IH]; by destruct d'.
  - eapply registered_ext; [..|exact IH]; apply addMessage_fields.
  - eapply registered_ext; [..|exact IH]; unfold enterSection;
      destruct section; repeat case_match;
      rewrite ?(proj1 (proj2 (addMessage_fields _ _ _ _ _))),
              ?(proj1 (proj2 (proj2 (addMessage_fields _ _ _ _ _)))),
              ?(proj1 (proj2 (proj2 (proj2 (addMessage_fields _ _ _ _ _)))));
      by destruct d'.
  - by apply registered_withNamespace.
  - eapply registered_ext; [..|exact IH]; by destruct d'.
  - eapply registered_ext; [..|exact IH]; by destruct d'.
  - eapply registered_ext; [..|exact IH]; by destruct d'.
Qed.

Lemma registered_known parsedFiles r d :
  registered d (Reference.identifier r) → validateReference parsedFiles r d = d.
Proof.
  intros [[tokens Hshape] _]. unfold validateReference, has. by rewrite Hshape.
Qed.


(** X7.  A shape once added stays known: after [addShape] for an
    identifier, where it does not throw, whatever the parser then does to
    the document (shapes, references and messages added, sections
    entered, the namespace, the metadata and the controls assigned, the
    parse finished), the loop of [validateReferences] records nothing for
    a reference to that identifier. *)
Theorem addShape_then_known identifier token d d0 d' parsedFiles r :
  addShape identifier token d = Some d0 →
  edited d0 d' →
  Reference.identifier r = identifier →
  validateReference parsedFiles r d' = d'
  ∧ unknownShapes parsedFiles d' r = [].
Proof.
  intros Hadd Hedited <-.
  assert (registered d' (Reference.identifier r)) as Hregistered
    by (eapply registered_edited; [done|by eapply registered_addShape_same]).
  split; [by apply registered_known|].
  destruct Hregistered as [[tokens Hshape] _].
  unfold unknownShapes, isUnknown, has. by rewrite Hshape.
Qed.

Lemma addShape_then_known_witness :
  validateReference [] Samples.referenceToFoo Samples.withFoo = Samples.withFoo
  ∧ unknownShapes [] Samples.withFoo Samples.referenceToFoo = [].
Proof.
  eapply (addShape_then_known (Identifier.new (js "Foo")) Examples.sampleToken
            (Examples.inExample (ParsedDocument.new []))).
  - vm_compute. reflexivity.
  - apply edited_addReference, edited_refl.
  - reflexivity.
Defined.

(** *** The search, whatever the order of the array *)

Section BinarySearch.
Context {TItem TValue : Type}.
Variable array : list TItem.
Variable element : TValue.
Variable compareFunction : TValue → TItem → JsNumber.

Lemma binarySearchLoop_bounds fuel leftIndex rightIndex :
  (0 ≤ leftIndex ≤ rightIndex + 1)%Z →
  (rightIndex < Z.of_nat (length array))%Z →
  (rightIndex - leftIndex + 1 < Z.of_nat fuel)%Z →
  ∃ result,
    binarySearchLoop array element compareFunction fuel leftIndex rightIndex
    = Some result
    ∧ (((leftIndex ≤ result ≤ rightIndex)%Z
        ∧ ∃ x, array !! Z.to_nat result = Some x
               ∧ aboveZero (compareFunction element x) = false
               ∧ belowZero (compareFunction element x) = false)
       ∨ (leftIndex ≤ - result - 1 ≤ rightIndex + 1)%Z).
Proof.
  revert leftIndex rightIndex.
  induction fuel as [|fuel IH]; intros leftIndex rightIndex Hleft Hright Hfuel; [lia|].
  cbn [binarySearchLoop]. destruct (Z.leb_spec leftIndex rightIndex) as [Hle|Hgt].
  2:{ eexists. split; [done|]. right. lia. }
  rewrite Z.shiftr_div_pow2 by lia. change (2 ^ 1)%Z with 2%Z.
  set (middleIndex := (leftIndex + (rightIndex - leftIndex) / 2)%Z).
  assert (leftIndex ≤ middleIndex ≤ rightIndex)%Z as Hmiddle.
  { unfold middleIndex.
    pose proof (Z.div_pos (rightIndex - leftIndex) 2).
    pose proof (Z.div_le_upper_bound (rightIndex - leftIndex) 2 (rightIndex - leftIndex)).
    lia. }
  destruct (lookup_lt_is_Some_2 array (Z.to_nat middleIndex)) as [x Hx]; [lia|].
  rewrite Hx. simpl.
  destruct (aboveZero (compareFunction element x)) eqn:Habove.
  { destruct (IH (middleIndex + 1)%Z rightIndex) as (result & -> & Hresult); [lia..|].
    eexists. split; [done|]. destruct Hresult as [[Hin Hfound]|Hout]; [left|right]; [|lia].
    split; [lia|done]. }
  destruct (belowZero (compareFunction element x)) eqn:Hbelow.
  { destruct (IH leftIndex (middleIndex - 1)%Z) as (result & -> & Hresult); [lia..|].
    eexists. split; [done|]. destruct Hresult as [[Hin Hfound]|Hout]; [left|right]; [|lia].
    split; [lia|done]. }
  eexists. split; [done|]. left. split; [lia|]. by exists x.
Qed.

Lemma binarySearch_result :
  ∃ result,
    binarySearch array element compareFunction = Some result
    ∧ (- Z.of_nat (length array) - 1 ≤ result < Z.of_nat (length array))%Z
    ∧ ((0 ≤ result)%Z →
       ∃ x, array !! Z.to_nat result = Some x
            ∧ aboveZero (compareFunction element x) = false
            ∧ belowZero (compareFunction element x) = false).
Proof.
  unfold binarySearch.
  destruct (binarySearchLoop_bounds (S (length array)) 0 (Z.of_nat (length array) - 1))
    as (result & Hresult & Hcases); [lia..|].
  exists result. split; [done|].
  destruct Hcases as [[Hin Hfound]|Hout]; (split; [lia|]); [done|lia].
Qed.

End BinarySearch.


(** X9.  [findSymbol] never answers with a reference that does not
    contain the position, whatever the order of the references: what it
    returns is a reference of the document whose range contains the line
    and the column, or nothing. *)
Theorem findSymbol_sound line_ column_ d :
  ∃ found,
    findSymbol line_ column_ d = Some found
    ∧ ∀ r, found = Some r →
           r ∈ references d ∧ containsPosition (line_, column_) r = true.
Proof.
  unfold findSymbol.
  destruct (binarySearch_result (references d) (line_, column_)
              (λ position reference, Num (comparePosition position reference)))
    as (result & -> & Hbounds & Hfound).
  simpl. eexists. split; [done|]. intros r.
  destruct (Z.geb_spec result 0) as [Hnonneg|Hneg]; [|done].
  destruct Hfound as (x & Hx & Habove & Hbelow); [lia|]. rewrite Hx. intros [= <-].
  split; [by eapply list_elem_of_lookup_2|].
  unfold containsPosition. apply bool_decide_eq_true.
  cbn [aboveZero belowZero] in *. lia.
Qed.

End DocumentLaws.

(** ** Facts about a run of the lexer *)

Module LexerRunFacts.
Import Lexer LexerSpec LexerRun LexerFacts.

#[local] Arguments advance : simpl never.
#[local] Arguments substring : simpl never.
#[local] Arguments textSince : simpl never.
#[local] Arguments createToken : simpl never.

Section WithSource.
Variable source : jstring.

Opaque advance.

Lemma reach_refl p : reach source p p.
Proof. by exists 0. Qed.

Lemma reach_advance p q : reach source p q → reach source p (advance source q).2.
Proof. intros [n ->]. by exists (S n). Qed.

Lemma reach_step p : reach source p (advance source p).2.
Proof. apply reach_advance, reach_refl. Qed.

Lemma advances_add n m p :
  advances source (n + m) p = advances source n (advances source m p).
Proof. unfold advances. by rewrite Nat.iter_add. Qed.

Lemma reach_trans p q r : reach source p q → reach source q r → reach source p r.
Proof. intros [n ->] [m ->]. exists (m + n). by rewrite advances_add. Qed.

Lemma advances_index n p : index (advances source n p) = index p + n.
Proof.
  induction n as [|n IH]; simpl; [lia|].
  unfold advances in *. simpl. rewrite advance_index, IH. lia.
Qed.

Lemma reach_index p q : reach source p q → index p ≤ index q.
Proof. intros [n ->]. rewrite advances_index. lia. Qed.

(** *** Where the scans stop *)

Lemma char_Some_lt p c : char source p = Some c → index p < length source.
Proof. apply lookup_lt_Some. Qed.

Lemma matches_lt cls p : matches cls (char source p) = true → index p < length source.
Proof.
  unfold matches. destruct (char source p) as [c|] eqn:Hc; [|done].
  intros _. by eapply char_Some_lt.
Qed.

Lemma isChar_lt x p : isChar x (char source p) = true → index p < length source.
Proof. intros Hx. apply bool_decide_eq_true in Hx. by eapply char_Some_lt. Qed.

Lemma peek_lt_of cls p : matches cls (peek source p) = true → S (index p) < length source.
Proof.
  unfold matches, peek, charAt. destruct (source !! (index p + 1)) as [c|] eqn:Hc; [|done].
  intros _. apply lookup_lt_Some in Hc. lia.
Qed.

Lemma isChar_peek_lt x p : isChar x (peek source p) = true → S (index p) < length source.
Proof.
  intros Hx. apply bool_decide_eq_true in Hx. unfold peek, charAt in Hx.
  apply lookup_lt_Some in Hx. lia.
Qed.

Lemma skipWhile_reach cls fuel s p r q :
  skipWhile source cls fuel s p = Some (r, q) →
  reach source p q
  ∧ r = substring source (index s) (index q)
  ∧ matches cls (char source q) = false
  ∧ (index p ≤ length source → index q ≤ length source)
  ∧ (∀ i, index p ≤ i < index q → matches cls (charAt source i) = true).
Proof.
  revert p. induction fuel as [|fuel IH]; intros p; cbn; [done|].
  case_match eqn:Hmatch.
  - intros (Hreach & Hr & Hstop & Hin & Hall)%IH.
    pose proof (matches_lt _ _ Hmatch).
    split; [eapply reach_trans; [apply reach_step|done]|].
    split; [done|]. split; [done|].
    split; [intros _; apply Hin; rewrite advance_index; lia|].
    intros i Hi. destruct (decide (i = index p)) as [->|]; [done|].
    apply Hall. rewrite advance_index. lia.
  - intros [= <- <-]. split; [apply reach_refl|]. repeat split; try done. lia.
Qed.

Lemma skipWhile_progress cls fuel s p r q :
  matches cls (char source p) = true →
  skipWhile source cls fuel s p = Some (r, q) → index p < index q.
Proof.
  intros Hmatch. destruct fuel as [|fuel]; cbn; [done|]. rewrite Hmatch.
  intros (Hreach & _)%skipWhile_reach. apply reach_index in Hreach.
  rewrite advance_index in Hreach. lia.
Qed.

Lemma skipWhile_total cls fuel s p :
  length source - index p < fuel →
  ∃ r q, skipWhile source cls fuel s p = Some (r, q).
Proof.
  revert p. induction fuel as [|fuel IH]; intros p Hfuel; [lia|]. cbn.
  case_match eqn:Hmatch; [|by eexists _, _].
  apply IH. apply matches_lt in Hmatch. rewrite advance_index. lia.
Qed.

Lemma skipUntil_reach cls fuel s p r q :
  skipUntil source cls fuel s p = Some (r, q) →
  reach source p q ∧ matches cls (char source q) = true.
Proof.
  revert p. induction fuel as [|fuel IH]; intros p; cbn; [done|].
  destruct (matches cls (char source p)) eqn:Hmatch; cbn.
  - intros [= <- <-]. split; [apply reach_refl|done].
  - intros (Hreach & Hstop)%IH.
    split; [eapply reach_trans; [apply reach_step|done]|done].
Qed.

Lemma skipUntil_total fuel s p j :
  index p ≤ j → charAt source j = Some Ch.lf → j - index p < fuel →
  ∃ r q, skipUntil source isLineFeed fuel s p = Some (r, q).
Proof.
  revert p. induction fuel as [|fuel IH]; intros p Hj Hlf Hfuel; [lia|]. cbn.
  destruct (matches isLineFeed (char source p)) eqn:Hmatch; cbn; [by eexists _, _|].
  assert (index p ≠ j) as Hne.
  { intros Heq. unfold char in Hmatch. by rewrite Heq, Hlf in Hmatch. }
  apply IH; [rewrite advance_index; lia|done|rewrite advance_index; lia].


Qed.

Lemma advance_fst p : (advance source p).1 = charAt source (S (index p)).
Proof. Transparent advance. unfold advance. Opaque advance. done. Qed.

Lemma skipBlanks_reach fuel p q continue :
  skipBlanks source fuel p = Some (q, continue) →
  reach source p q
  ∧ (continue = true → index p < length source → index q < length source)
  ∧ (continue = true → matches isBlank (char source q) = false)
  ∧ (∀ i, index p ≤ i < index q → matches isBlank (charAt source i) = true).
Proof.
  revert p. induction fuel as [|fuel IH]; intros p; cbn; [done|].
  case_match eqn:Hmatch.
  2:{ intros [= <- <-]. split; [apply reach_refl|]. repeat split; try done. lia. }
  pose proof (advance_fst p) as Hc.
  pose proof (advance_index source p) as Hi.
  pose proof (reach_step p) as Hstep.
  destruct (advance source p) as [c p']. simpl in Hc, Hi, Hstep.
  destruct c as [c|].
  - intros (Hreach & Hin & Hstop & Hall)%IH.
    split; [by eapply reach_trans|].
    split.
    { intros Hcont _. apply Hin; [done|]. rewrite Hi.
      symmetry in Hc. by apply lookup_lt_Some in Hc. }
    split; [done|].
    intros i Hi'. destruct (decide (i = index p)) as [->|]; [done|].
    apply Hall. lia.
  - intros [= <- <-]. split; [done|]. repeat split; try done.
    intros i Hi'. by replace i with (index p) by lia.
Qed.

Lemma skipBlanks_total fuel p :
  length source - index p < fuel →
  ∃ q continue, skipBlanks source fuel p = Some (q, continue).
Proof.
  revert p. induction fuel as [|fuel IH]; intros p Hfuel; [lia|]. cbn.
  case_match eqn:Hmatch; [|by eexists _, _].
  pose proof (advance_index source p) as Hi.
  destruct (advance source p) as [c p']. simpl in Hi.
  destruct c; [|by eexists _, _].
  apply IH. apply matches_lt in Hmatch. lia.
Qed.

(** *** Pieces of the source *)

Lemma substring_within a b :
  a ≤ b → b ≤ length source → substring source a b = take (b - a) (drop a source).
Proof. intros. unfold substring. by rewrite !Nat.min_l, Nat.max_r by lia. Qed.

Lemma substring_length a b :
  a ≤ b → b ≤ length source → length (substring source a b) = b - a.
Proof.
  intros. rewrite substring_within by done. rewrite length_take, length_drop. lia.
Qed.

Lemma substring_app a b c :
  a ≤ b → b ≤ c → c ≤ length source →
  substring source a b ++ substring source b c = substring source a c.
Proof.
  intros. rewrite !substring_within by lia.
  replace (drop b source) with (drop (b - a) (drop a source))
    by (rewrite drop_drop; f_equal; lia).
  rewrite take_take_drop. f_equal. lia.
Qed.

Lemma substring_one i c :
  charAt source i = Some c → substring source i (S i) = [c].
Proof.
  intros Hc. pose proof (lookup_lt_Some _ _ _ Hc).
  rewrite substring_within by lia. replace (S i - i) with 1 by lia.
  unfold charAt in Hc. rewrite (drop_S _ _ _ Hc). done.
Qed.

Lemma substring_nil a : substring source a a = [].
Proof. unfold substring. by rewrite Nat.max_id, Nat.min_id, Nat.sub_diag. Qed.

Lemma substring_lookup a b k :
  a ≤ b → b ≤ length source → k < b - a →
  substring source a b !! k = source !! (a + k).
Proof.
  intros. rewrite substring_within by done.
  rewrite lookup_take_lt by done. by rewrite lookup_drop.
Qed.

Lemma substring_Forall (P : N → Prop) a b :
  a ≤ b → b ≤ length source →
  (∀ i c, a ≤ i < b → source !! i = Some c → P c) →
  Forall P (substring source a b).
Proof.
  intros Hab Hb HP. apply Forall_lookup. intros k c Hk.
  pose proof (lookup_lt_Some _ _ _ Hk) as Hlt. rewrite substring_length in Hlt by done.
  rewrite substring_lookup in Hk by done. eapply HP; [|done]. lia.
Qed.

(** *** String literals *)

Lemma unicodeEscape_reach n v p v' q :
  unicodeEscape source n v p = (v', q) → reach source p q.
Proof.
  revert v p. induction n as [|n IH]; intros v p; cbn.
  - intros [= _ <-]. apply reach_refl.
  - pose proof (reach_step p) as Hstep.
    destruct (advance source p) as [c p']. simpl in Hstep.
    case_match.
    + intros Hrec%IH. by eapply reach_trans.
    + by intros [= _ <-].
Qed.

#[local] Arguments unicodeEscape : simpl never.

Lemma stringLoop_reach fuel p value q closed :
  stringLoop source fuel p value = Some (q, closed) →
  reach source p q
  ∧ (ended source p = false → index p < index q)
  ∧ (is_Some closed →
     index p + 2 ≤ index q ∧ index q ≤ length source
     ∧ charAt source (index q - 1) = Some Ch.quote).
Proof.
  revert p value. induction fuel as [|fuel IH]; intros p value; cbn; [done|].
  case_match eqn:Hended.
  { intros [= <- <-]. split; [apply reach_refl|]. split; [done|]. by intros [? ?]. }
  pose proof (advance_fst p) as Hc.
  pose proof (advance_index source p) as Hi.
  pose proof (reach_step p) as Hstep.
  destruct (advance source p) as [c p1]. simpl in Hc, Hi, Hstep.
  case_match eqn:Hquote.
  { intros [= <- <-]. apply bool_decide_eq_true in Hquote. rewrite Hquote in Hc.
    symmetry in Hc. pose proof (lookup_lt_Some _ _ _ Hc).
    split; [by apply reach_advance|]. rewrite advance_index, Hi.
    split; [lia|]. intros _. split; [lia|]. split; [lia|].
    by replace (S (S (index p)) - 1) with (S (index p)) by lia. }
  assert (∀ p', reach source p1 p' →
    (reach source p' q
     ∧ (ended source p' = false → index p' < index q)
     ∧ (is_Some closed →
        index p' + 2 ≤ index q ∧ index q ≤ length source
        ∧ charAt source (index q - 1) = Some Ch.quote)) →
    reach source p q
    ∧ (false = false → index p < index q)
    ∧ (is_Some closed →
       index p + 2 ≤ index q ∧ index q ≤ length source
       ∧ charAt source (index q - 1) = Some Ch.quote)) as Hglue.
  { intros p' Hp' (Hreach & _ & Hclosed).
    pose proof (reach_index _ _ Hp'). pose proof (reach_index _ _ Hreach).
    split; [eapply reach_trans; [done|]; by eapply reach_trans|].
    split; [lia|]. intros Hsome. destruct (Hclosed Hsome) as (? & ? & ?).
    repeat split; (done || lia). }
  case_match eqn:Hbackslash; [|intros Hrec%IH; eapply Hglue; [apply reach_refl|done]].
  pose proof (reach_step p1) as Hstep2.
  destruct (advance source p1) as [c2 p2]. simpl in Hstep2.
  case_match.
  - destruct (unicodeEscape source 4 0%N p2) as [ev p3] eqn:Hu.
    apply unicodeEscape_reach in Hu. intros Hrec%IH.
    eapply Hglue; [|done]. by eapply reach_trans.
  - case_match; intros Hrec%IH; by eapply Hglue.
Qed.

Lemma stringLoop_total fuel p value :
  length source - index p < fuel →
  ∃ q closed, stringLoop source fuel p value = Some (q, closed).
Proof.
  revert p value. induction fuel as [|fuel IH]; intros p value Hfuel; [lia|]. cbn.
  case_match eqn:Hended; [by eexists _, _|].
  apply bool_decide_eq_false in Hended.
  pose proof (advance_index source p) as Hi.
  pose proof (reach_step p) as Hstep.
  destruct (advance source p) as [c p1]. simpl in Hi, Hstep.
  case_match; [by eexists _, _|].
  case_match; [|apply IH; lia].
  pose proof (advance_index source p1) as Hi2.
  destruct (advance source p1) as [c2 p2]. simpl in Hi2.
  case_match.
  - destruct (unicodeEscape source 4 0%N p2) as [ev p3] eqn:Hu.
    apply unicodeEscape_reach, reach_index in Hu. apply IH. lia.
  - case_match; apply IH; lia.
Qed.

(** *** Numbers *)

Lemma textSince_one p c :
  char source p = Some c → textSince source p (advance source p).2 = [c].
Proof. intros Hc. unfold textSince. rewrite advance_index. by apply substring_one. Qed.

Lemma number_lexed fuel s tok :
  isChar Ch.minus (char source s) && matches isDigit (peek source s)
  || matches isDigit (char source s) = true →
  number source fuel s = Some tok →
  Token.type tok = TokenType.Number
  ∧ start (Token.range tok) = s
  ∧ reach source s (end_ (Token.range tok))
  ∧ index s < index (end_ (Token.range tok))
  ∧ index (end_ (Token.range tok)) ≤ length source
  ∧ Token.text tok = textSince source s (end_ (Token.range tok))
  ∧ ∃ sign tail,
      Token.text tok = sign ++ Token.value tok ++ tail
      ∧ (sign = [] ∨ sign = [Ch.minus])
      ∧ (tail = [] ∨ ∃ c, isSign c = true ∧ tail = [Ch.e; c]).
Proof.
  intros Hentry. unfold number.
  set (p0 := if isChar Ch.minus (char source s) then (advance source s).2 else s).
  destruct (skipWhile source isDigit fuel p0 p0) as [[v p1]|] eqn:Hv; [|done].
  cbn [mbind option_bind].
  (* the sign *)
  assert (reach source s p0 ∧ index p0 ≤ length source
          ∧ ∃ sign, textSince source s p0 = sign ∧ (sign = [] ∨ sign = [Ch.minus])
                    ∧ (sign = [] → matches isDigit (char source p0) = true))
    as (Hr0 & Hin0 & sign & Hsign & Hsigns & Hdigit).
  { subst p0. destruct (isChar Ch.minus (char source s)) eqn:Hminus.
    - apply bool_decide_eq_true in Hminus.
      assert (matches isDigit (char source s) = false) as Hnd
        by (by rewrite Hminus).
      rewrite Hnd, orb_false_r in Hentry. simpl in Hentry.
      apply peek_lt_of in Hentry.
      split; [apply reach_step|]. rewrite advance_index. split; [lia|].
      exists [Ch.minus]. split; [by apply textSince_one|]. split; [by right|done].
    - simpl in Hentry. pose proof (matches_lt _ _ Hentry).
      split; [apply reach_refl|]. split; [lia|].
      exists []. split; [apply substring_nil|]. split; [by left|done]. }
  apply skipWhile_reach in Hv as Hv'.
  destruct Hv' as (Hr1 & -> & Hstop1 & Hin1 & _). specialize (Hin1 Hin0).
  assert (index s < index p1) as Hprogress.
  { pose proof (reach_index _ _ Hr0). pose proof (reach_index _ _ Hr1).
    destruct Hsigns as [->| ->].
    - apply (skipWhile_progress _ _ _ _ _ _ (Hdigit eq_refl)) in Hv. lia.
    - unfold textSince in Hsign.
      destruct (decide (index s = index p0)) as [Heq|]; [|lia].
      rewrite Heq, substring_nil in Hsign. done. }
  (* the fraction *)
  match goal with
  | |- context [(if ?b then ?x else ?y) ≫= _] =>
      assert (∀ fraction p2, (if b then x else y) = Some (fraction, p2) →
        reach source p1 p2 ∧ index p2 ≤ length source
        ∧ textSince source p1 p2
          = (if bool_decide (fraction = []) then [] else Ch.dot :: fraction)) as Hfraction;
      [|destruct (if b then x else y) as [[fraction p2]|] eqn:Hfe; [|done]]
  end.
  { intros fraction p2.
    destruct (isChar Ch.dot (char source p1) && matches isDigit (peek source p1))
      eqn:Hbranch.
    - apply andb_prop in Hbranch as [Hdot Hpeek].
      apply bool_decide_eq_true in Hdot. pose proof (peek_lt_of _ _ Hpeek) as Hlt.
      intros Hskip. apply skipWhile_reach in Hskip as Hskip'.
      destruct Hskip' as (Hr2 & -> & _ & Hin2 & _).
      rewrite advance_index in *. specialize (Hin2 ltac:(lia)).
      assert (matches isDigit (char source (advance source p1).2) = true) as Hd.
      { unfold char. rewrite advance_index. unfold peek in Hpeek.
        by replace (index p1 + 1) with (S (index p1)) in Hpeek by lia. }
      apply (skipWhile_progress _ _ _ _ _ _ Hd) in Hskip. rewrite advance_index in Hskip.
      split; [eapply reach_trans; [apply reach_step|done]|]. split; [done|].
      rewrite bool_decide_eq_false_2.
      2:{ intros Hnil%(f_equal length). rewrite substring_length in Hnil by lia.
          simpl in Hnil. lia. }
      unfold textSince. rewrite <- (substring_app (index p1) (S (index p1))) by lia.
      by rewrite (substring_one _ _ Hdot).
    - intros [= <- <-]. split; [apply reach_refl|]. split; [done|].
      rewrite bool_decide_eq_true_2 by done. apply substring_nil. }
  specialize (Hfraction _ _ eq_refl).
  destruct Hfraction as (Hr2 & Hin2 & Hftext).
  cbn [mbind option_bind].
  (* the exponent *)
  match goal with
  | |- context [(if ?b then ?x else ?y) ≫= _] =>
      assert (∀ r, (if b then x else y) = Some r →
        reach source p2 r.2 ∧ index r.2 ≤ length source
        ∧ ∃ tail, textSince source p2 r.2
            = (if bool_decide (r.1.2 = []) then [] else Ch.e :: r.1.1 ++ r.1.2) ++ tail
            ∧ (tail = [] ∨ ∃ c, isSign c = true ∧ tail = [Ch.e; c])) as Hexponent;
      [|destruct (if b then x else y) as [[[exponentSign exponent] p3]|] eqn:Hee; [|done]]
  end.
  { intros [[exponentSign exponent] p3]. simpl.
    destruct (isChar Ch.e (char source p2)
              && (matches isSign (peek source p2) || matches isDigit (peek source p2)))
      eqn:Hbranch.
    2:{ intros [= <- <- <-]. split; [apply reach_refl|]. split; [done|].
        exists []. rewrite bool_decide_eq_true_2 by done.
        split; [apply substring_nil|by left]. }
    apply andb_prop in Hbranch as [He Hpeek]. apply bool_decide_eq_true in He.
    assert (S (index p2) < length source) as Hlt
      by (apply orb_prop in Hpeek as [?%peek_lt_of|?%peek_lt_of]; done).
    set (pe := (advance source p2).2).
    assert (index pe = S (index p2)) as Hpe by apply advance_index.
    assert (peek source p2 = char source pe) as Hpeekchar.
    { unfold peek, char. rewrite Hpe. f_equal. lia. }
    rewrite Hpeekchar in Hpeek.
    destruct (matches isSign (char source pe)) eqn:Hsignchar.
    - destruct (char source pe) as [c|] eqn:Hc; [|done]. simpl in Hsignchar.
      destruct (skipWhile source isDigit fuel (advance source pe).2 (advance source pe).2)
        as [[ex p3']|] eqn:Hskip; [|done].
      cbn [mbind option_bind option_list]. intros [= <- <- <-].
      apply skipWhile_reach in Hskip as (Hr3 & -> & _ & Hin3 & _).
      rewrite advance_index, Hpe in *. specialize (Hin3 ltac:(lia)).
      pose proof (reach_index _ _ Hr3) as Hle. rewrite advance_index, Hpe in Hle.
      split; [eapply reach_trans; [apply reach_step|];
              eapply reach_trans; [apply reach_step|done]|].
      split; [done|].
      assert (textSince source p2 p3'
              = Ch.e :: c :: substring source (S (S (index p2))) (index p3')) as ->.
      { unfold textSince.
        rewrite <- (substring_app (index p2) (S (index p2))) by lia.
        rewrite (substring_one _ _ He). simpl. f_equal.
        rewrite <- (substring_app (S (index p2)) (S (S (index p2)))) by lia.
        unfold char in Hc. rewrite Hpe in Hc. by rewrite (substring_one _ _ Hc). }
      destruct (decide (substring source (S (S (index p2))) (index p3') = []))
        as [Hnil|Hnil].
      + rewrite bool_decide_eq_true_2 by done. rewrite Hnil.
        exists [Ch.e; c]. split; [done|]. right. by exists c.
      + rewrite bool_decide_eq_false_2 by done.
        exists []. rewrite app_nil_r. split; [done|by left].
    - rewrite orb_false_l in Hpeek.
      destruct (skipWhile source isDigit fuel pe pe) as [[ex p3']|] eqn:Hskip; [|done].
      cbn [mbind option_bind]. intros [= <- <- <-].
      apply (skipWhile_progress _ _ _ _ _ _ Hpeek) in Hskip as Hprog.
      apply skipWhile_reach in Hskip as (Hr3 & -> & _ & Hin3 & _).
      rewrite Hpe in *. specialize (Hin3 ltac:(lia)).
      split; [eapply reach_trans; [apply reach_step|done]|]. split; [done|].
      exists []. rewrite app_nil_r. split; [|by left].
      rewrite bool_decide_eq_false_2.
      2:{ intros Hnil%(f_equal length). rewrite substring_length in Hnil by lia.
          simpl in Hnil. lia. }
      unfold textSince. rewrite <- (substring_app (index p2) (S (index p2))) by lia.
      by rewrite (substring_one _ _ He). }
  specialize (Hexponent _ eq_refl). simpl in Hexponent.
  destruct Hexponent as (Hr3 & Hin3 & tail & Htail & Htails).
  cbn [mbind option_bind]. intros [= <-]. unfold createToken. simpl.
  pose proof (reach_index _ _ Hr0). pose proof (reach_index _ _ Hr1).
  pose proof (reach_index _ _ Hr2). pose proof (reach_index _ _ Hr3).
  split; [done|]. split; [done|].
  split; [eapply reach_trans; [done|]; eapply reach_trans; [done|]; by eapply reach_trans|].
  split; [lia|]. split; [done|]. split; [done|].
  exists sign, tail. split; [|done].
  unfold textSince in *.
  rewrite <- (substring_app (index s) (index p0)) by lia. rewrite Hsign. f_equal.
  rewrite <- (substring_app (index p0) (index p1)) by lia. rewrite <- app_assoc. f_equal.
  rewrite <- (substring_app (index p1) (index p2)) by lia. rewrite Hftext.
  rewrite <- app_assoc. f_equal. done.
Qed.

Lemma number_total fuel s :
  length source - index s < fuel → ∃ tok, number source fuel s = Some tok.
Proof.
  intros Hfuel. unfold number.
  set (p0 := if isChar Ch.minus (char source s) then (advance source s).2 else s).
  assert (index s ≤ index p0) as H0
    by (subst p0; case_match; rewrite ?advance_index; lia).
  destruct (skipWhile_total isDigit fuel p0 p0) as (v & p1 & Hv); [lia|].
  rewrite Hv. cbn [mbind option_bind].
  apply skipWhile_reach in Hv as (H1%reach_index & _).
  match goal with
  | |- context [(if ?b then ?x else ?y) ≫= _] =>
      assert (∃ fraction p2, (if b then x else y) = Some (fraction, p2)
                             ∧ index p1 ≤ index p2) as (fraction & p2 & -> & H2)
  end.
  { case_match; [|by eexists _, _].
    destruct (skipWhile_total isDigit fuel (advance source p1).2 (advance source p1).2)
      as (f & p2 & Hf); [rewrite advance_index; lia|].
    rewrite Hf. eexists _, _. split; [done|].
    apply skipWhile_reach in Hf as (Hr%reach_index & _).
    rewrite advance_index in Hr. lia. }
  cbn [mbind option_bind].
  match goal with
  | |- context [(if ?b then ?x else ?y) ≫= _] =>
      assert (∃ r, (if b then x else y) = Some r) as [[[exponentSign exponent] p3] ->]
  end.
  { case_match; [|by eexists].
    match goal with
    | |- context [let '(_, _) := ?e in _] => destruct e as [sign pe] eqn:Hsign
    end.
    assert (index p2 ≤ index pe) as He.
    { case_match; injection Hsign as <- <-; rewrite !advance_index; lia. }
    destruct (skipWhile_total isDigit fuel pe pe) as (ex & p3 & ->); [lia|].
    by eexists. }
  cbn [mbind option_bind]. by eexists.
Qed.

(** *** The tokens of a run *)

Lemma chain_reach p q ts :
  reach source p q → chain source q ts → chain source p ts.
Proof.
  intros Hpq. destruct ts as [|t ts]; [done|]. simpl.
  intros (Hqt & Hrest). split; [by eapply reach_trans|done].
Qed.

Lemma isChar_Some x c : isChar x c = true → c = Some x.
Proof. apply bool_decide_eq_true. Qed.

Lemma isChar_false x c : isChar x (Some c) = false → c ≠ x.
Proof. intros Hx%bool_decide_eq_false. congruence. Qed.

(** A run that returns is the run within the fuel, come to its end. *)
Lemma getTokensFrom_runWithin fuel p pieces :
  getTokensFrom source fuel p = Some pieces → runWithin source fuel p = (pieces, true).
Proof.
  revert p pieces. induction fuel as [|fuel IH]; intros p pieces;
    cbn [getTokensFrom runWithin]; [done|].
  destruct (ended source p); [by intros [= <-]|].
  destruct (skipBlanks source fuel p) as [[s continue]|]; [|done].
  cbn [mbind option_bind]. destruct continue; cbn [negb]; [|by intros [= <-]].
  assert (∀ q (pieces0 : list Piece) rest0,
    (getTokensFrom source fuel q ≫= λ rest, Some (pieces0 ++ rest)) = Some rest0 →
    followedBy pieces0 (runWithin source fuel q) = (rest0, true)) as Hrest.
  { intros q pieces0 rest0.
    destruct (getTokensFrom source fuel q) as [rest|] eqn:Hrun; [|done].
    cbn [mbind option_bind]. intros [= <-]. by rewrite (IH _ _ Hrun). }
  destruct (isChar Ch.slash (char source s) && isChar Ch.slash (peek source s)).
  { match goal with
    | |- context [skipUntil source isLineFeed fuel ?a ?b] =>
        destruct (skipUntil source isLineFeed fuel a b) as [[r p3]|]; [|done]
    end.
    cbn [mbind option_bind]. intros Hrun. exact (Hrest _ [_; _] _ Hrun). }
  destruct (isChar Ch.lf (char source s)
            || isChar Ch.cr (char source s) && isChar Ch.lf (peek source s)).
  { intros Hrun. exact (Hrest _ [_; _] _ Hrun). }
  destruct (matches isDelimiter (char source s)).
  { intros Hrun. exact (Hrest _ [_; _] _ Hrun). }
  destruct (isChar Ch.quote (char source s)).
  { destruct (stringLoop source fuel s []) as [[p1 closed]|]; [|done].
    cbn [mbind option_bind]. intros Hrun. exact (Hrest _ [_; _] _ Hrun). }
  destruct (isChar Ch.minus (char source s) && matches isDigit (peek source s)
            || matches isDigit (char source s)).
  { destruct (number source fuel s) as [tok|]; [|done].
    cbn [mbind option_bind]. intros Hrun. exact (Hrest _ [_; _] _ Hrun). }
  destruct (matches isIdentifierStart (char source s)).
  { destruct (skipWhile source isIdentifierPart fuel s s) as [[identifier p1]|]; [|done].
    cbn [mbind option_bind]. intros Hrun. exact (Hrest _ [_; _] _ Hrun). }
  intros Hrun. exact (Hrest _ [_; _] _ Hrun).
Qed.

(** A run within the fuel that has come to its end is a run that returns. *)
Lemma runWithin_finished fuel p :
  (runWithin source fuel p).2 = true →
  getTokensFrom source fuel p = Some (runWithin source fuel p).1.
Proof.
  revert p. induction fuel as [|fuel IH]; intros p;
    cbn [getTokensFrom runWithin]; [done|].
  destruct (ended source p); [done|].
  destruct (skipBlanks source fuel p) as [[s continue]|]; [|done].
  cbn [mbind option_bind]. destruct continue; cbn [negb]; [|done].
  assert (∀ q (pieces0 : list Piece),
    (followedBy pieces0 (runWithin source fuel q)).2 = true →
    (getTokensFrom source fuel q ≫= λ rest, Some (pieces0 ++ rest))
    = Some (followedBy pieces0 (runWithin source fuel q)).1) as Hrest.
  { intros q pieces0 Hfinished. by rewrite (IH q Hfinished). }
  destruct (isChar Ch.slash (char source s) && isChar Ch.slash (peek source s)).
  { match goal with
    | |- context [skipUntil source isLineFeed fuel ?a ?b] =>
        destruct (skipUntil source isLineFeed fuel a b) as [[r p3]|]; [|done]
    end.
    cbn [mbind option_bind]. intros Hrun. exact (Hrest _ [_; _] Hrun). }
  destruct (isChar Ch.lf (char source s)
            || isChar Ch.cr (char source s) && isChar Ch.lf (peek source s)).
  { intros Hrun. exact (Hrest _ [_; _] Hrun). }
  destruct (matches isDelimiter (char source s)).
  { intros Hrun. exact (Hrest _ [_; _] Hrun). }
  destruct (isChar Ch.quote (char source s)).
  { destruct (stringLoop source fuel s []) as [[p1 closed]|]; [|done].
    cbn [mbind option_bind]. intros Hrun. exact (Hrest _ [_; _] Hrun). }
  destruct (isChar Ch.minus (char source s) && matches isDigit (peek source s)
            || matches isDigit (char source s)).
  { destruct (number source fuel s) as [tok|]; [|done].
    cbn [mbind option_bind]. intros Hrun. exact (Hrest _ [_; _] Hrun). }
  destruct (matches isIdentifierStart (char source s)).
  { destruct (skipWhile source isIdentifierPart fuel s s) as [[identifier p1]|]; [|done].
    cbn [mbind option_bind]. intros Hrun. exact (Hrest _ [_; _] Hrun). }
  intros Hrun. exact (Hrest _ [_; _] Hrun).
Qed.

(** The tokens yielded within the fuel follow one another, whether or not
    the run comes to its end. *)
Lemma runWithin_chain fuel p :
  chain source p (yielded (runWithin source fuel p).1).
Proof.
  revert p. induction fuel as [|fuel IH]; intros p; cbn [runWithin]; [done|].
  destruct (ended source p) eqn:Hended; [done|].
  apply bool_decide_eq_false in Hended.
  destruct (skipBlanks source fuel p) as [[s continue]|] eqn:Hblanks; [|done].
  apply skipBlanks_reach in Hblanks as (Hps & Hins & Hnotblank & _).
  destruct continue; cbn [negb]; [|done].
  specialize (Hins eq_refl ltac:(lia)). specialize (Hnotblank eq_refl).
  (* the rest of the run, after a piece that ends at [q] *)
  assert (∀ q (piece : Piece),
    reach source s q →
    (∀ t, piece = Yield t →
          start (Token.range t) = s ∧ end_ (Token.range t) = q ∧ lexed source t) →
    chain source p
      (yielded (followedBy [Skip Whitespace (textSince source p s); piece]
                  (runWithin source fuel q)).1)) as Hrest.
  { intros q piece Hsq Hpiece. specialize (IH q).
    destruct piece as [t|k text]; simpl.
    - destruct (Hpiece t eq_refl) as (Hstart & Hend & Hlexed).
      rewrite Hstart, Hend. done.
    - eapply chain_reach; [|done]. by eapply reach_trans. }
  destruct (char source s) as [c|] eqn:Hc.
  2:{ unfold char in Hc. apply lookup_ge_None in Hc. unfold charAt in *. lia. }
  pose proof (advance_index source s) as Hi1.
  pose proof (reach_step s) as Hstep.
  pose proof (textSince_one s c Hc) as Hone.
  (* comments *)
  destruct (isChar Ch.slash (Some c) && isChar Ch.slash (peek source s)) eqn:Hcomment.
  { match goal with
    | |- context [skipUntil source isLineFeed fuel ?a ?b] =>
        destruct (skipUntil source isLineFeed fuel a b) as [[r p3]|] eqn:Hskip; [|done];
        assert (reach source s a) as Hsa
    end.
    { case_match; repeat apply reach_advance; apply reach_refl. }
    apply Hrest; [|done].
    apply skipUntil_reach in Hskip as [Hr _].
    apply reach_advance. by eapply reach_trans. }
  (* line breaks *)
  destruct (isChar Ch.lf (Some c) || isChar Ch.cr (Some c) && isChar Ch.lf (peek source s))
    eqn:Hbreak.
  { apply Hrest; [|done]. case_match; repeat apply reach_advance; apply reach_refl. }
  apply orb_false_elim in Hbreak as [Hlf _]. apply isChar_false in Hlf.
  (* delimiters *)
  destruct (matches isDelimiter (Some c)) eqn:Hdelimiter.
  { apply Hrest; [done|]. intros t [= <-]. simpl. do 2 (split; [done|]).
    unfold lexed, createToken. simpl. fold (textSince source s (advance source s).2).
    rewrite Hone, Hi1. split; [done|]. split; [lia|]. split; [lia|]. split; [done|].
    split; [done|]. by exists c. }
  (* strings *)
  destruct (isChar Ch.quote (Some c)) eqn:Hquote.
  { apply isChar_Some in Hquote as [= ->].
    destruct (stringLoop source fuel s []) as [[p1 closed]|] eqn:Hloop; [|done].
    apply stringLoop_reach in Hloop as (Hr & _ & Hclosed).
    apply Hrest; [done|]. intros t Ht. destruct closed as [value|]; [|done].
    injection Ht as <-. simpl. do 2 (split; [done|]).
    destruct Hclosed as (Hlen & Hin & Hlast); [by eexists|].
    unfold lexed, createToken. simpl. split; [done|]. split; [lia|]. split; [done|].
    split; [done|].
    exists (substring source (S (index s)) (index p1 - 1)). unfold textSince.
    rewrite <- (substring_app (index s) (S (index s)) (index p1)) by lia.
    rewrite (substring_one (index s) Ch.quote) by done. simpl. f_equal.
    rewrite <- (substring_app (S (index s)) (index p1 - 1) (index p1)) by lia. f_equal.
    replace (index p1) with (S (index p1 - 1)) at 2 by lia.
    by apply substring_one. }
  apply isChar_false in Hquote.
  (* numbers *)
  destruct (isChar Ch.minus (Some c) && matches isDigit (peek source s)
            || matches isDigit (Some c)) eqn:Hnumber.
  { destruct (number source fuel s) as [tok|] eqn:Htok; [|done].
    rewrite <- Hc in Hnumber.
    apply (number_lexed _ _ _ Hnumber) in Htok
      as (Htype & Hstart & Hr & Hlt & Hin & Htext & Hvalue).
    apply Hrest; [done|]. intros t [= <-]. do 2 (split; [done|]).
    unfold lexed. rewrite Hstart, Htype. done. }
  apply orb_false_elim in Hnumber as [_ Hdigit].
  (* identifiers *)
  destruct (matches isIdentifierStart (Some c)) eqn:Hidentifier.
  { destruct (skipWhile source isIdentifierPart fuel s s) as [[identifier p1]|] eqn:Hskip;
      [|done].
    assert (matches isIdentifierPart (char source s) = true) as Hpart.
    { rewrite Hc. simpl in *. unfold isIdentifierPart. by rewrite Hidentifier. }
    apply (skipWhile_progress _ _ _ _ _ _ Hpart) in Hskip as Hlt.
    apply skipWhile_reach in Hskip as (Hr & -> & _ & Hin & Hall).
    specialize (Hin ltac:(lia)).
    apply Hrest; [done|]. intros t [= <-]. simpl. do 2 (split; [done|]).
    unfold lexed, createToken. simpl. split; [done|]. split; [done|]. split; [done|].
    split; [done|]. split; [done|]. unfold textSince. split.
    - apply substring_Forall; [lia|done|]. intros i x Hi Hx.
      specialize (Hall i Hi). unfold charAt in Hall. by rewrite Hx in Hall.
    - rewrite <- (substring_app (index s) (S (index s)) (index p1)) by lia.
      by rewrite (substring_one (index s) c). }
  (* anything else *)
  apply Hrest; [done|]. intros t [= <-]. simpl. do 2 (split; [done|]).
  unfold lexed, createToken. simpl. fold (textSince source s (advance source s).2).
  rewrite Hone, Hi1. split; [done|]. split; [lia|]. split; [lia|]. split; [done|].
  exists c. split; [done|]. split; [unfold char; by rewrite Hi1|].
  done.
Qed.

Lemma getTokensFrom_chain fuel p pieces :
  getTokensFrom source fuel p = Some pieces → chain source p (yielded pieces).
Proof.
  intros Hrun%getTokensFrom_runWithin. pose proof (runWithin_chain fuel p) as Hchain.
  by rewrite Hrun in Hchain.
Qed.

Lemma chain_length p ts :
  chain source p ts → length ts ≤ length source - index p.
Proof.
  revert p. induction ts as [|t ts IH]; intros p; simpl; [lia|].
  intros (Hstart%reach_index & (_ & Hlt & Hin & _) & Hrest%IH). lia.
Qed.

Lemma chain_Forall p ts : chain source p ts → Forall (lexed source) ts.
Proof.
  revert p. induction ts as [|t ts IH]; intros p; simpl; [constructor|].
  intros (_ & Hlexed & Hrest%IH). by constructor.
Qed.

(** *** Termination *)

Ltac other_character :=
  match goal with
  | H1 : ?x = Some ?a, H2 : ?x = Some ?b |- _ =>
      rewrite H1 in H2; vm_compute in H2; discriminate H2
  end.

Lemma commentsClosed_line_feed text i :
  commentsClosed text = true →
  text !! i = Some Ch.slash → text !! S i = Some Ch.slash →
  ∃ j, i ≤ j ∧ text !! j = Some Ch.lf.
Proof.
  revert i. induction text as [|c rest IH]; intros i; [done|].
  cbn [commentsClosed]. intros [Hhere Hrest]%andb_prop Hfirst Hsecond.
  destruct i as [|i]; simpl in Hfirst, Hsecond.
  - injection Hfirst as ->. apply orb_prop in Hhere as [Hpair|Hlf].
    + rewrite bool_decide_eq_true_2 in Hpair by done.
      rewrite bool_decide_eq_true_2 in Hpair; [done|]. by destruct rest.
    + apply bool_decide_eq_true in Hlf. apply list_elem_of_lookup in Hlf as [j Hj].
      exists (S j). split; [lia|done].
  - destruct (IH i Hrest Hfirst Hsecond) as (j & Hj & Hlf).
    exists (S j). split; [lia|done].
Qed.

Lemma getTokensFrom_total fuel p :
  commentsClosed source = true →
  length source - index p + 1 < fuel →
  ∃ pieces, getTokensFrom source fuel p = Some pieces.
Proof.
  intros Hclosed. pose proof (λ i, commentsClosed_line_feed source i Hclosed) as Hfeed.
  clear Hclosed. rename Hfeed into Hclosed. revert p. induction fuel as [|fuel IH]; intros p Hfuel; [lia|].
  cbn [getTokensFrom].
  destruct (ended source p) eqn:Hended; [by eexists|].
  apply bool_decide_eq_false in Hended.
  destruct (skipBlanks_total fuel p) as (s & continue & Hblanks); [lia|].
  rewrite Hblanks. apply skipBlanks_reach in Hblanks as (Hps%reach_index & Hins & _).
  cbn [mbind option_bind]. destruct continue; cbn [negb]; [|by eexists].
  specialize (Hins eq_refl ltac:(lia)).
  assert (∀ q (piece : Piece),
    index s < index q →
    ∃ pieces,
      getTokensFrom source fuel q
        ≫= (λ rest, Some (Skip Whitespace (textSince source p s) :: piece :: rest))
      = Some pieces) as Hrest.
  { intros q piece Hsq. destruct (IH q) as [rest ->]; [lia|]. by eexists. }
  pose proof (advance_index source s) as Hi1.
  destruct (isChar Ch.slash (char source s) && isChar Ch.slash (peek source s))
    eqn:Hcomment.
  { apply andb_prop in Hcomment as [Hs1%isChar_Some Hs2%isChar_Some].
    destruct (Hclosed (index s)) as (j & Hj & Hlf); [done| |].
    { unfold peek, charAt in Hs2. by replace (S (index s)) with (index s + 1) by lia. }
    pose proof (lookup_lt_Some _ _ _ Hlf) as Hjlt.
    assert (S (index s) < j) as Hj2.
    { unfold peek, char, charAt in *.
      destruct (decide (j = index s)) as [->|]; [other_character|].
      destruct (decide (j = index s + 1)) as [->|]; [other_character|]. lia. }
    match goal with
    | |- context [skipUntil source isLineFeed fuel ?a ?b] =>
        assert (S (index s) < index a ∧ index a ≤ j) as [Ha1 Ha2];
        [|destruct (skipUntil_total fuel a a j) as (r & p3 & Hskip);
          [lia|done|lia|rewrite Hskip]]
    end.
    { case_match eqn:Hdoc; rewrite !advance_index; [|lia].
      split; [lia|]. apply bool_decide_eq_true in Hdoc. case_match eqn:Hthird; [|done].
      apply isChar_Some in Hthird. unfold char in Hthird.
      rewrite !advance_index in Hthird.
      destruct (decide (j = S (S (index s)))) as [->|]; [|lia].
      unfold charAt in *. other_character. }
    cbn [mbind option_bind]. apply Hrest.
    apply skipUntil_reach in Hskip as [Hr%reach_index _]. rewrite advance_index. lia. }
  destruct (isChar Ch.lf (char source s)
            || isChar Ch.cr (char source s) && isChar Ch.lf (peek source s)).
  { apply Hrest. case_match; rewrite !advance_index; lia. }
  destruct (matches isDelimiter (char source s)); [apply Hrest; lia|].
  destruct (isChar Ch.quote (char source s)) eqn:Hquote.
  { destruct (stringLoop_total fuel s []) as (p1 & closed & Hloop); [lia|].
    rewrite Hloop. cbn [mbind option_bind]. apply Hrest.
    apply stringLoop_reach in Hloop as (_ & Hlt & _). apply Hlt.
    apply bool_decide_eq_false. lia. }
  destruct (isChar Ch.minus (char source s) && matches isDigit (peek source s)
            || matches isDigit (char source s)) eqn:Hnumber.
  { destruct (number_total fuel s) as (tok & Htok); [lia|].
    rewrite Htok. cbn [mbind option_bind]. apply Hrest.
    by apply (number_lexed _ _ _ Hnumber) in Htok as (_ & _ & _ & Hlt & _). }
  destruct (matches isIdentifierStart (char source s)) eqn:Hidentifier.
  { destruct (skipWhile_total isIdentifierPart fuel s s) as (identifier & p1 & Hskip);
      [lia|].
    rewrite Hskip. cbn [mbind option_bind]. apply Hrest.
    eapply skipWhile_progress; [|done].
    destruct (char source s) as [c|]; [|done]. simpl in *.
    unfold isIdentifierPart. by rewrite Hidentifier. }
  apply Hrest. lia.
Qed.

(** *** A string literal without escapes *)

Lemma stringLoop_plain body : ∀ fuel p value,
  Forall (λ c, c ≠ Ch.quote ∧ c ≠ Ch.backslash) body →
  (∀ k, k < length body → charAt source (index p + 1 + k) = body !! k) →
  charAt source (index p + 1 + length body) = Some Ch.quote →
  length body < fuel →
  ∃ q, stringLoop source fuel p value = Some (q, Some (value ++ body))
       ∧ index q = index p + length body + 2.
Proof.
  induction body as [|b body IH]; intros fuel p value Hplain Hbody Hquote Hfuel;
    (destruct fuel as [|fuel]; [simpl in Hfuel; lia|]); cbn [stringLoop];
    (assert (ended source p = false) as ->;
     [apply bool_decide_eq_false; apply lookup_lt_Some in Hquote; lia|]);
    pose proof (advance_fst p) as Hc;
    pose proof (advance_index source p) as Hi;
    destruct (advance source p) as [c p1]; cbn [fst snd] in Hc, Hi.
  - replace (index p + 1 + length (@nil N)) with (S (index p)) in Hquote by (simpl; lia).
    rewrite Hquote in Hc. subst c.
    unfold isChar at 1. rewrite bool_decide_eq_true_2 by done.
    eexists. split; [by rewrite app_nil_r|]. rewrite advance_index, Hi. simpl. lia.
  - apply Forall_cons in Hplain as [[Hb1 Hb2] Hplain].
    pose proof (Hbody 0 ltac:(simpl; lia)) as Hfirst. simpl in Hfirst.
    replace (index p + 1 + 0) with (S (index p)) in Hfirst by lia.
    rewrite Hfirst in Hc. subst c.
    unfold isChar at 1. rewrite bool_decide_eq_false_2 by congruence.
    unfold isChar at 1. rewrite bool_decide_eq_false_2 by congruence.
    destruct (IH fuel p1 (value ++ [b])) as (q & Hq & Hiq); [done| | |simpl in Hfuel; lia|].
    + intros k Hk. rewrite Hi. specialize (Hbody (S k) ltac:(simpl; lia)).
      simpl in Hbody. rewrite <- Hbody. f_equal. lia.
    + rewrite Hi. rewrite <- Hquote. f_equal. simpl. lia.
    + exists q. simpl. rewrite Hq, <- app_assoc. split; [done|]. simpl. lia.
Qed.

Transparent advance.

(** *** Lines and columns *)

Lemma lastLine_snoc s c :
  lastLine (s ++ [c]) = if bool_decide (c = Ch.lf) then [] else lastLine s ++ [c].
Proof.
  induction s as [|a s IH]; simpl.
  - by case_bool_decide.
  - rewrite IH. destruct (decide (c = Ch.lf)) as [->|Hc].
    + rewrite (bool_decide_eq_true_2 (Ch.lf ∈ s ++ [Ch.lf]))
        by (apply elem_of_app; right; by apply list_elem_of_singleton).
      by rewrite bool_decide_eq_true_2.
    + rewrite (bool_decide_eq_false_2 (c = Ch.lf)) by done.
      destruct (decide (Ch.lf ∈ s)) as [Hin|Hout].
      * rewrite (bool_decide_eq_true_2 (Ch.lf ∈ s ++ [c]))
          by (apply elem_of_app; by left).
        by rewrite bool_decide_eq_true_2.
      * rewrite (bool_decide_eq_false_2 (Ch.lf ∈ s ++ [c])).
        2:{ rewrite elem_of_app, list_elem_of_singleton. intros [?|?]; congruence. }
        rewrite (bool_decide_eq_false_2 (Ch.lf ∈ s)) by done.
        by destruct (bool_decide (a = Ch.lf)).
Qed.

Lemma lastLine_no_line_feed s : Ch.lf ∉ s → lastLine s = s.
Proof.
  destruct s as [|a s]; [done|]. simpl. intros Hout.
  rewrite (bool_decide_eq_false_2 (Ch.lf ∈ s)) by (intros ?; apply Hout; by right).
  rewrite (bool_decide_eq_false_2 (a = Ch.lf)); [done|]. intros ->. apply Hout. by left.
Qed.

Lemma advance_recorded p :
  p = recordedPosition source (index p) →
  (advance source p).2 = recordedPosition source (S (index p)).
Proof.
  intros Hp. unfold advance, recordedPosition. cbn [snd].
  set (i := index p) in *. set (rest := drop 1 source).
  assert (charAt source (S i) = rest !! i) as ->
    by (unfold rest, charAt; by rewrite lookup_drop).
  assert (line p = length (filter (λ c, c = Ch.lf) (take i rest))
          ∧ column p = length (lastLine (take i rest)) + (i - length (take i rest)))
    as [-> ->] by (by rewrite Hp).
  destruct (rest !! i) as [c|] eqn:Hc.
  - pose proof (lookup_lt_Some _ _ _ Hc) as Hlt.
    rewrite (take_S_r _ _ _ Hc), filter_app, lastLine_snoc, !length_app, !length_take.
    unfold isChar. destruct (decide (c = Ch.lf)) as [->|Hne].
    + rewrite bool_decide_eq_true_2 by done. rewrite bool_decide_eq_true_2 by done.
      rewrite filter_cons_True by done. simpl. f_equal; lia.
    + rewrite bool_decide_eq_false_2 by congruence.
      rewrite bool_decide_eq_false_2 by done.
      rewrite filter_cons_False by done. rewrite length_app. simpl. f_equal; lia.
  - pose proof (lookup_ge_None_1 _ _ Hc) as Hge.
    rewrite !take_ge by lia. unfold isChar.
    rewrite bool_decide_eq_false_2 by done. f_equal. lia.
Qed.

Lemma reach_recorded p q :
  p = recordedPosition source (index p) → reach source p q →
  q = recordedPosition source (index q).
Proof.
  intros Hp [n ->]. induction n as [|n IH]; [done|].
  unfold advances in *. rewrite !Nat.iter_succ. rewrite advance_index.
  by apply advance_recorded.
Qed.

Lemma initialPosition_recorded :
  initialPosition = recordedPosition source (index initialPosition).
Proof. done. Qed.

Lemma advance_positionLe p :
  DocumentSpec.positionLe p (advance source p).2
  ∧ ¬ DocumentSpec.positionLe (advance source p).2 p.
Proof.
  unfold DocumentSpec.positionLe, advance. simpl. case_match; simpl; lia.
Qed.

Lemma advances_positionLe n p :
  DocumentSpec.positionLe p (advances source n p)
  ∧ (0 < n → ¬ DocumentSpec.positionLe (advances source n p) p).
Proof.
  induction n as [|n [IH1 IH2]].
  - split; [|lia]. unfold DocumentSpec.positionLe, advances. simpl. lia.
  - unfold advances in *. rewrite !Nat.iter_succ.
    destruct (advance_positionLe (Nat.iter n (λ p, (advance source p).2) p))
      as [Hstep1 Hstep2].
    unfold DocumentSpec.positionLe in *. split; [lia|]. intros _.
    destruct n as [|n]; [simpl in *; lia|]. specialize (IH2 ltac:(lia)). lia.
Qed.

Lemma reach_positionLe p q :
  reach source p q →
  DocumentSpec.positionLe p q
  ∧ (index p < index q → ¬ DocumentSpec.positionLe q p).
Proof.
  intros [n ->]. destruct (advances_positionLe n p) as [H1 H2]. split; [done|].
  rewrite advances_index. intros Hlt. apply H2. lia.
Qed.

End WithSource.

(** X10.  A string literal without escapes is read back as written: for
    characters none of which is a quote or a backslash, the lexer turns the
    characters between two quotes into one String token whose value is
    those characters and whose text is the whole literal. *)
Theorem getTokens_plain_string body fuel :
  Forall (λ c, c ≠ Ch.quote ∧ c ≠ Ch.backslash) body →
  length body + 2 ≤ fuel →
  ∃ t, getTokens (Ch.quote :: body ++ [Ch.quote]) fuel = Some [t]
       ∧ Token.type t = TokenType.String
       ∧ Token.value t = body
       ∧ Token.text t = Ch.quote :: body ++ [Ch.quote]
       ∧ index (start (Token.range t)) = 0
       ∧ index (end_ (Token.range t)) = length body + 2.
Proof.
  intros Hplain Hfuel. set (source := Ch.quote :: body ++ [Ch.quote]).
  assert (length source = length body + 2) as Hlength
    by (subst source; simpl; rewrite length_app; simpl; lia).
  destruct fuel as [|fuel]; [lia|]. unfold getTokens, run. cbn [getTokensFrom].
  assert (ended source initialPosition = false) as ->
    by (apply bool_decide_eq_false; simpl; lia).
  assert (skipBlanks source fuel initialPosition = Some (initialPosition, true)) as ->
    by (destruct fuel as [|fuel]; [lia|done]).
  cbn [mbind option_bind negb].
  assert (char source initialPosition = Some Ch.quote) as -> by done.
  replace (isChar Ch.slash (Some Ch.quote)) with false by done.
  replace (isChar Ch.lf (Some Ch.quote)) with false by done.
  replace (isChar Ch.cr (Some Ch.quote)) with false by done.
  replace (matches isDelimiter (Some Ch.quote)) with false by done.
  replace (isChar Ch.quote (Some Ch.quote)) with true by done.
  cbn [andb orb].
  destruct (stringLoop_plain source body fuel initialPosition []) as (q & -> & Hq);
    [done| | |lia|].
  { intros k Hk. unfold charAt. subst source. simpl.
    by rewrite lookup_app_l by done. }
  { unfold charAt. subst source. simpl. by rewrite list_lookup_middle. }
  cbn [mbind option_bind]. simpl in Hq.
  assert (getTokensFrom source fuel q = Some []) as ->.
  { destruct fuel as [|fuel]; [lia|]. cbn [getTokensFrom].
    assert (ended source q = true) as -> by (apply bool_decide_eq_true; lia). done. }
  cbn [mbind option_bind fmap option_fmap option_map yielded omap].
  eexists. split; [done|]. unfold createToken. simpl.
  split; [done|]. split; [done|]. split; [|split; [done|lia]].
  unfold textSince. simpl. rewrite Hq.
  unfold substring. rewrite Nat.min_0_l, Nat.min_r, Nat.max_r, Nat.min_l, Nat.sub_0_r by lia.
  rewrite drop_0. apply take_ge. lia.
Qed.

Lemma getTokens_plain_string_witness :
  ∃ t, getTokens (Ch.quote :: js "a b" ++ [Ch.quote]) 5 = Some [t]
       ∧ Token.type t = TokenType.String
       ∧ Token.value t = js "a b"
       ∧ Token.text t = Ch.quote :: js "a b" ++ [Ch.quote]
       ∧ index (start (Token.range t)) = 0
       ∧ index (end_ (Token.range t)) = length (js "a b") + 2.
Proof.
  apply (getTokens_plain_string (js "a b") 5).
  - repeat constructor; by vm_compute.
  - vm_compute. lia.
Defined.

(** *** The tokens of a run, in order *)

Lemma getTokens_chain source fuel tokens :
  getTokens source fuel = Some tokens → chain source initialPosition tokens.
Proof.
  unfold getTokens, run. destruct (getTokensFrom source fuel initialPosition) as [pieces|]
    eqn:Hrun; [|done].
  intros [= <-]. by eapply getTokensFrom_chain.
Qed.

Lemma yieldedWithin_chain source fuel :
  chain source initialPosition (yieldedWithin source fuel).1.
Proof. apply runWithin_chain. Qed.

(** Where [getTokens] returns, its tokens are those yielded within the
    fuel. *)
Lemma getTokens_yieldedWithin source fuel tokens :
  getTokens source fuel = Some tokens → yieldedWithin source fuel = (tokens, true).
Proof.
  unfold getTokens, run, yieldedWithin.
  destruct (getTokensFrom source fuel initialPosition) as [pieces|] eqn:Hrun; [|done].
  intros [= <-]. by rewrite (getTokensFrom_runWithin _ _ _ _ Hrun).
Qed.

Lemma yieldedWithin_finished source fuel :
  (yieldedWithin source fuel).2 = true →
  getTokens source fuel = Some (yieldedWithin source fuel).1.
Proof.
  unfold getTokens, run, yieldedWithin. simpl.
  intros Hfinished. by rewrite (runWithin_finished _ _ _ Hfinished).
Qed.

Lemma chain_elem_of source p ts t :
  chain source p ts → t ∈ ts → reach source p (start (Token.range t)) ∧ lexed source t.
Proof.
  revert p. induction ts as [|t' ts IH]; intros p; [by intros _ ?%elem_of_nil|].
  simpl. intros (Hstart & Hlexed & Hrest) [->|Hin]%elem_of_cons; [done|].
  destruct (IH _ Hrest Hin) as [Hreach ?]. split; [|done].
  eapply reach_trans; [done|]. eapply reach_trans; [|done]. apply Hlexed.
Qed.

Lemma chain_lookup source p ts i j a b :
  chain source p ts → i < j → ts !! i = Some a → ts !! j = Some b →
  reach source (end_ (Token.range a)) (start (Token.range b)).
Proof.
  revert p i j. induction ts as [|t ts IH]; intros p i j; [by rewrite lookup_nil|].
  simpl. intros (Hstart & Hlexed & Hrest) Hij Ha Hb.
  destruct j as [|j]; [lia|]. destruct i as [|i]; simpl in *.
  - injection Ha as <-. by eapply chain_elem_of, list_elem_of_lookup_2.
  - eapply (IH _ i j); [done|lia|done..].
Qed.

Lemma positionLe_trans a b c : DocumentSpec.positionLe a b → DocumentSpec.positionLe b c → DocumentSpec.positionLe a c.
Proof. unfold DocumentSpec.positionLe. lia. Qed.

Lemma chain_ordered source p ts a b :
  chain source p ts → a ∈ ts → b ∈ ts →
  DocumentSpec.positionLe (start (Token.range a)) (end_ (Token.range a))
  ∧ (DocumentSpec.positionLe (start (Token.range a)) (start (Token.range b)) →
     DocumentSpec.positionLe (end_ (Token.range a)) (end_ (Token.range b))).
Proof.
  intros Hchain Ha Hb.
  destruct (chain_elem_of _ _ _ _ Hchain Ha) as [_ (Hra & Hlta & _)].
  destruct (chain_elem_of _ _ _ _ Hchain Hb) as [_ (Hrb & Hltb & _)].
  destruct (reach_positionLe _ _ _ Hra) as [Hlea _].
  destruct (reach_positionLe _ _ _ Hrb) as [Hleb Hstrict].
  split; [done|]. intros Hstarts.
  apply list_elem_of_lookup in Ha as [i Hi]. apply list_elem_of_lookup in Hb as [j Hj].
  destruct (decide (i = j)) as [->|Hne].
  - rewrite Hi in Hj. injection Hj as <-. unfold DocumentSpec.positionLe. lia.
  - destruct (decide (i < j)).
    + pose proof (chain_lookup _ _ _ i j _ _ Hchain ltac:(done) Hi Hj) as Hab.
      destruct (reach_positionLe _ _ _ Hab) as [Hle _].
      eapply positionLe_trans; [done|done].
    + pose proof (chain_lookup _ _ _ j i _ _ Hchain ltac:(lia) Hj Hi) as Hba.
      destruct (reach_positionLe _ _ _ Hba) as [Hle _].
      destruct (Hstrict Hltb). eapply positionLe_trans; [done|done].
Qed.

(** *** Statements about [getTokens] *)

(** X11.  The lexer returns when every pair of slashes in the source has a
    line feed somewhere after it: fuel for the length of the source and two
    more is enough, and there are no more tokens than characters. *)
Theorem getTokens_returns source fuel :
  commentsClosed source = true →
  length source + 2 ≤ fuel →
  ∃ tokens, getTokens source fuel = Some tokens ∧ length tokens ≤ length source.
Proof.
  intros Hclosed Hfuel.
  destruct (getTokensFrom_total source fuel initialPosition Hclosed) as [pieces Hrun];
    [simpl; lia|].
  assert (getTokens source fuel = Some (yielded pieces)) as Hlex
    by (unfold getTokens, run; by rewrite Hrun).
  exists (yielded pieces). split; [done|].
  pose proof (chain_length _ _ _ (getTokens_chain _ _ _ Hlex)) as Hcount.
  simpl in Hcount. lia.
Qed.

Lemma getTokens_returns_witness :
  ∃ tokens, getTokens Samples.model 58 = Some tokens
            ∧ length tokens ≤ length Samples.model.
Proof.
  apply (getTokens_returns Samples.model 58); [by vm_compute|vm_compute; lia].
Defined.

(** X12.  Every token the lexer yields, at whatever point of a run and
    whether or not the run ever returns, is a Delimiter, String, Number,
    Identifier or Error token, never a comment or the End token; its range
    runs forward over at least one character and ends within the source,
    and its text is the source between the two offsets. *)
Theorem getTokens_token_extent source fuel t :
  t ∈ (yieldedWithin source fuel).1 →
  Token.type t ∈ [TokenType.Delimiter; TokenType.String; TokenType.Number;
                  TokenType.Identifier; TokenType.Error]
  ∧ index (start (Token.range t)) < index (end_ (Token.range t)) ≤ length source
  ∧ Token.text t
    = substring source (index (start (Token.range t))) (index (end_ (Token.range t)))
  ∧ length (Token.text t)
    = index (end_ (Token.range t)) - index (start (Token.range t)).
Proof.
  intros Hin. pose proof (yieldedWithin_chain source fuel) as Hchain.
  destruct (chain_elem_of _ _ _ _ Hchain Hin) as [_ (_ & Hlt & Hle & Htext & Htype)].
  split; [|split; [lia|split; [done|]]].
  - destruct (Token.type t); try done; repeat constructor.
  - rewrite Htext, substring_length; lia.
Qed.

Lemma getTokens_token_extent_witness :
  ∃ t,
    (yieldedWithin Samples.beforeComment 12).1 !! 0 = Some t
    ∧ (yieldedWithin Samples.beforeComment 12).2 = false
    ∧ Token.text t = js "Foo"
    ∧ index (start (Token.range t)) < index (end_ (Token.range t))
      ≤ length Samples.beforeComment.
Proof.
  eexists. split; [vm_compute; reflexivity|]. split; [vm_compute; reflexivity|].
  split; [reflexivity|].
  eapply (getTokens_token_extent Samples.beforeComment 12).
  eapply (list_elem_of_lookup_2 _ 0). vm_compute. reflexivity.
Defined.

(** X13.  The tokens come in the order of the source and do not overlap:
    a token ends, by offset and by line and column, no later than any token
    yielded after it starts; this holds of the tokens yielded at whatever
    point of a run. *)
Theorem getTokens_in_source_order source fuel i j a b :
  i < j →
  (yieldedWithin source fuel).1 !! i = Some a →
  (yieldedWithin source fuel).1 !! j = Some b →
  index (end_ (Token.range a)) ≤ index (start (Token.range b))
  ∧ DocumentSpec.positionLe (end_ (Token.range a)) (start (Token.range b)).
Proof.
  intros Hij Ha Hb. pose proof (yieldedWithin_chain source fuel) as Hchain.
  pose proof (chain_lookup _ _ _ i j _ _ Hchain Hij Ha Hb) as Hreach.
  split; [by eapply reach_index|]. by eapply reach_positionLe.
Qed.

Lemma getTokens_in_source_order_witness :
  ∃ a b,
    (yieldedWithin Samples.beforeComment 12).1 !! 0 = Some a
    ∧ (yieldedWithin Samples.beforeComment 12).1 !! 1 = Some b
    ∧ (yieldedWithin Samples.beforeComment 12).2 = false
    ∧ index (end_ (Token.range a)) ≤ index (start (Token.range b))
    ∧ DocumentSpec.positionLe (end_ (Token.range a)) (start (Token.range b)).
Proof.
  eexists _, _. split; [vm_compute; reflexivity|]. split; [vm_compute; reflexivity|].
  split; [vm_compute; reflexivity|].
  eapply (getTokens_in_source_order Samples.beforeComment 12 0 1);
    [lia|vm_compute; reflexivity|vm_compute; reflexivity].
Defined.

(** X14.  The positions of a token, yielded at whatever point of a run,
    are those the lexer records at its offsets: the line is the number of
    line feeds at the offsets from one to that of the position, both
    included, and the column the number of offsets since the last of
    them. *)
Theorem getTokens_recorded_positions source fuel t :
  t ∈ (yieldedWithin source fuel).1 →
  start (Token.range t) = recordedPosition source (index (start (Token.range t)))
  ∧ end_ (Token.range t) = recordedPosition source (index (end_ (Token.range t))).
Proof.
  intros Hin. pose proof (yieldedWithin_chain source fuel) as Hchain.
  destruct (chain_elem_of _ _ _ _ Hchain Hin) as [Hstart (Hend & _)].
  assert (start (Token.range t) = recordedPosition source (index (start (Token.range t))))
    as Hrecorded by (eapply reach_recorded; [apply initialPosition_recorded|done]).
  split; [done|]. by eapply reach_recorded.
Qed.

Lemma getTokens_recorded_positions_witness :
  ∃ t,
    (yieldedWithin Examples.twoLines 5).1 !! 1 = Some t
    ∧ start (Token.range t) = recordedPosition Examples.twoLines 2
    ∧ recordedPosition Examples.twoLines 2 = {| index := 2; line := 1; column := 1 |}.
Proof.
  eexists. split; [vm_compute; reflexivity|]. split; [|reflexivity].
  exact (proj1 (getTokens_recorded_positions Examples.twoLines 5 _
                  ltac:(eapply (list_elem_of_lookup_2 _ 1); vm_compute; reflexivity))).
Defined.

(** X15.  How the value of a token stands to its text, for a token
    yielded at whatever point of a run.  For an Identifier and a Delimiter
    they are the same.  The text of a Number is its value after an
    optional minus sign, which the value leaves out, and before an
    optional [e] with a sign that no digit follows.  The text of a String
    starts and ends with a quote.  The text of an Error token is one
    character, and its value names that character and the one after. *)
Theorem getTokens_token_value source fuel t :
  t ∈ (yieldedWithin source fuel).1 →
  (Token.type t = TokenType.Identifier ∨ Token.type t = TokenType.Delimiter →
   Token.value t = Token.text t)
  ∧ (Token.type t = TokenType.Number →
     ∃ sign tail,
       Token.text t = sign ++ Token.value t ++ tail
       ∧ (sign = [] ∨ sign = [Ch.minus])
       ∧ (tail = [] ∨ ∃ c, isSign c = true ∧ tail = [Ch.e; c]))
  ∧ (Token.type t = TokenType.String →
     ∃ body, Token.text t = Ch.quote :: body ++ [Ch.quote])
  ∧ (Token.type t = TokenType.Error →
     ∃ c, Token.text t = [c]
          ∧ Token.value t
            = js "Unknown token: " ++ [c] ++ js ", "
              ++ option_list (charAt source (index (end_ (Token.range t))))).
Proof.
  intros Hin. pose proof (yieldedWithin_chain source fuel) as Hchain.
  destruct (chain_elem_of _ _ _ _ Hchain Hin) as [_ (_ & _ & _ & _ & Htype)].
  repeat split.
  - intros [Hkind|Hkind]; rewrite Hkind in Htype; apply Htype.
  - intros Hkind. by rewrite Hkind in Htype.
  - intros Hkind. by rewrite Hkind in Htype.
  - intros Hkind. rewrite Hkind in Htype. destruct Htype as (c & Htext & Hvalue & _).
    by exists c.
Qed.

Lemma getTokens_token_value_witness :
  ∃ t,
    (yieldedWithin Samples.assignmentBeforeComment 20).1 !! 2 = Some t
    ∧ (yieldedWithin Samples.assignmentBeforeComment 20).2 = false
    ∧ Token.text t = js "-12.5e+3" ∧ Token.value t = js "12.5e+3"
    ∧ ∃ sign tail, Token.text t = sign ++ Token.value t ++ tail
                   ∧ (sign = [] ∨ sign = [Ch.minus])
                   ∧ (tail = [] ∨ ∃ c, isSign c = true ∧ tail = [Ch.e; c]).
Proof.
  eexists. split; [vm_compute; reflexivity|]. split; [vm_compute; reflexivity|].
  split; [reflexivity|]. split; [reflexivity|].
  destruct (getTokens_token_value Samples.assignmentBeforeComment 20 _
              ltac:(eapply (list_elem_of_lookup_2 _ 2); vm_compute; reflexivity))
    as (_ & Hnumber & _).
  by apply Hnumber.
Defined.

End LexerRunFacts.

(** ** Facts about a run of the parser *)

Module ParserRunFacts.
Import ParsedDocument Parser ParserRun.

Ltac branch :=
  match goal with
  | |- context [if ?b then _ else _] => destruct b
  end.


Section WithTokens.
Variable given : Token.t → Prop.
Variable kept : Token.t → list Token.t → Prop.
Hypothesis kept_given : ∀ current rest, kept current rest → given current.
Hypothesis kept_advanced : ∀ current rest,
  kept current rest →
  match rest with
  | t :: rest' => kept t rest'
  | [] => kept (asEnd current) []
  end.

#[local] Abbreviation step := (ParserRun.step given).
#[local] Abbreviation givenDocument := (ParserRun.givenDocument given).
#[local] Abbreviation givenNode := (ParserRun.givenNode given).
#[local] Abbreviation givenMessage := (ParserRun.givenMessage given).
#[local] Abbreviation keptState := (ParserRun.keptState kept).

(** *** Steps of the document *)

Lemma extends_refl d : extends d d.
Proof.
  unfold extends. repeat split; try done.
  - intros key ts Hts. exists []. by rewrite app_nil_r.
  - intros key ts Hts. exists []. by rewrite app_nil_r.
Qed.

Lemma extends_trans d1 d2 d3 : extends d1 d2 → extends d2 d3 → extends d1 d3.
Proof.
  intros (Hm & Hr & Hs & Hrs & Hsec & Hmd & Hc & Hn & Hu)
         (Hm' & Hr' & Hs' & Hrs' & Hsec' & Hmd' & Hc' & Hn' & Hu').
  unfold extends. repeat split; try (by etrans); try congruence; auto.
  - intros key ts Hts. destruct (Hs key ts Hts) as [more Hmore].
    destruct (Hs' key _ Hmore) as [more' Hmore']. exists (more ++ more').
    by rewrite app_assoc.
  - intros key ts Hts. destruct (Hrs key ts Hts) as [more Hmore].
    destruct (Hrs' key _ Hmore) as [more' Hmore']. exists (more ++ more').
    by rewrite app_assoc.
Qed.

Lemma step_refl d : step d d.
Proof. split; [apply extends_refl|done]. Qed.

Lemma step_trans d1 d2 d3 : step d1 d2 → step d2 d3 → step d1 d3.
Proof. intros [H1 H1'] [H2 H2']. split; [by eapply extends_trans|auto]. Qed.

Lemma step_withMessages ms d :
  Forall givenMessage ms → step d (withMessages (messages d ++ ms) d).
Proof.
  intros Hms. destruct (extends_refl d) as (_ & Hrest). destruct d. split.
  - split; [by apply prefix_app_r|done].
  - intros (Hm & Hrest'). split; [|done]. simpl in *. by apply Forall_app.
Qed.

Lemma step_withReferences rs d :
  Forall (λ r, given (Reference.token r)) rs →
  step d (withReferences (references d ++ rs) d).
Proof.
  intros Hrs. destruct (extends_refl d) as (Hm & _ & Hrest). destruct d. split.
  - split; [done|]. split; [by apply prefix_app_r|done].
  - intros (Hm' & Hr' & Hrest'). split; [done|]. split; [|done]. simpl in *.
    by apply Forall_app.
Qed.

Lemma putItem_Forall {TItem} (P : TItem → Prop) (map map' : gmap jstring (list TItem))
    key item key' items :
  (∀ k ts, map !! k = Some ts → Forall P ts) → P item →
  putItem map key item = Some map' →
  map' !! key' = Some items → Forall P items.
Proof.
  intros Hmap Hitem Hput. destruct (decide (key' = key)) as [->|Hne].
  - rewrite (DocumentLaws.putItem_lookup _ _ _ _ Hput). intros [= <-].
    apply Forall_app. split; [|by constructor].
    destruct (map !! key) as [old|] eqn:Hold; [by eapply Hmap|constructor].
  - rewrite (DocumentLaws.putItem_lookup_ne _ _ _ _ _ Hput) by done. apply Hmap.
Qed.

Lemma step_withShapes key token shapes' d :
  given token → putItem (shapes d) key token = Some shapes' →
  step d (withShapes shapes' d).
Proof.
  intros Htoken Hput.
  destruct (extends_refl d) as (Hm & Hr & _ & Hrest). destruct d. split.
  - split; [done|]. split; [done|]. split; [|done]. simpl in *.
    intros key' ts Hts. by eapply DocumentLaws.putItem_grows.
  - intros (Hm' & Hr' & Hsec & Hshapes). repeat split; try done. simpl in *.
    intros key' ts. by eapply putItem_Forall.
Qed.

Lemma step_withRelativeShapes key id relativeShapes' d :
  putItem (relativeShapes d) key id = Some relativeShapes' →
  step d (withRelativeShapes relativeShapes' d).
Proof.
  intros Hput.
  destruct (extends_refl d) as (Hm & Hr & Hs & _ & Hrest). destruct d. split; [|done].
  split; [done|]. split; [done|]. split; [done|]. split; [|done]. simpl in *.
  intros key' ts Hts. by eapply DocumentLaws.putItem_grows.
Qed.

Lemma step_withSections section token d :
  given token → Section_.get section (sections d) = None →
  step d (withSections (Section_.set section token (sections d)) d).
Proof.
  intros Htoken Hnone.
  destruct (extends_refl d) as (Hm & Hr & Hs & Hrs & _ & Hrest).
  destruct d as [? [c m sh] ? ? ? ? ? ? ? ?]. split.
  - do 4 (split; [done|]). split; [|done]. simpl in *.
    intros s t. destruct section, s; simpl in *; congruence.
  - intros (Hm' & Hr' & Hsec & Hshapes). repeat split; try done. simpl in *.
    intros s t. destruct section, s; simpl in *; intros Hget;
      first [ by injection Hget as <-
            | by apply (Hsec Section_.Control)
            | by apply (Hsec Section_.Metadata)
            | by apply (Hsec Section_.Shape) ].
Qed.

Lemma step_withNamespace value d : step d (withNamespace value d).
Proof. destruct (extends_refl d). by destruct d. Qed.

Lemma write_keeps (key : jstring) (value : Value) (dictionary : gmap jstring Value)
    (key' : jstring) :
  is_Some (dictionary !! key') → is_Some (Parser.write key value dictionary !! key').
Proof.
  intros Hsome. unfold Parser.write.
  assert (is_Some (<[key := value]> dictionary !! key')) as Hinserted
    by (destruct (decide (key' = key)) as [->|];
        [rewrite lookup_insert_eq; by eexists|by rewrite lookup_insert_ne]).
  by repeat case_match.
Qed.

Lemma step_withMetadata key value d :
  step d (withMetadata (Parser.write key value (metadata d)) d).
Proof.
  destruct (extends_refl d) as (Hm & Hr & Hs & Hrs & Hsec & _ & Hrest).
  destruct d. split; [|done]. do 5 (split; [done|]). split; [|done]. simpl.
  intros key'. apply write_keeps.
Qed.

Lemma step_withControls key value d :
  step d (withControls (Parser.write key value (controls d)) d).
Proof.
  destruct (extends_refl d) as (Hm & Hr & Hs & Hrs & Hsec & Hmd & _ & Hrest).
  destruct d. split; [|done]. do 6 (split; [done|]). split; [|done]. simpl.
  intros key'. apply write_keeps.
Qed.

Lemma addMessage_made text token type after d :
  ∃ m, ParsedDocument.addMessage text token type after d
       = withMessages (messages d ++ [m]) d
       ∧ Message.endIndex m = Z.of_nat (index (end_ (Token.range token)))
       ∧ (Message.startIndex m = Z.of_nat (index (start (Token.range token)))
          ∨ Message.startIndex m = (Message.endIndex m - 1)%Z).
Proof.
  unfold ParsedDocument.addMessage. case_match eqn:Hrange. eexists. split; [done|].
  simpl. case_match; simplify_eq; auto.
Qed.

Lemma step_addMessage text token type after d :
  given token → step d (ParsedDocument.addMessage text token type after d).
Proof.
  intros Htoken. destruct (addMessage_made text token type after d)
    as (m & -> & Hend & Hstart).
  apply step_withMessages. constructor; [|done]. by exists token.
Qed.

Lemma step_enterSection section token d :
  given token → step d (enterSection section token d).
Proof.
  intros Htoken. unfold enterSection.
  set (d' := if Section_.get section (sections d) is None
             then withSections (Section_.set section token (sections d)) d else d).
  assert (step d d') as Hd'.
  { subst d'. destruct (Section_.get section (sections d)) eqn:Hget;
      [apply step_refl|by apply step_withSections]. }
  clearbody d'. eapply step_trans; [done|].
  destruct section; repeat case_match; (apply step_refl || by apply step_addMessage).
Qed.

Lemma step_addShape identifier token d d' :
  given token → addShape identifier token d = Some d' → step d d'.
Proof.
  intros Htoken. unfold addShape.
  set (d1 := if has (relativeShapes d) (Identifier.toRelative identifier)
             then ParsedDocument.addMessage (js "Shape is already defined.") token None false d
             else d).
  assert (step d d1) as H1
    by (subst d1; case_match; [by apply step_addMessage|apply step_refl]).
  clearbody d1.
  destruct (putItem (shapes d1) _ _) as [shapes'|] eqn:Hshapes; [|done].
  destruct (putItem (relativeShapes d1) _ _) as [relativeShapes'|] eqn:Hrelative; [|done].
  simpl. intros [= <-]. eapply step_trans; [done|].
  eapply step_trans; [by eapply step_withShapes|].
  eapply step_withRelativeShapes.
  replace (relativeShapes (withShapes shapes' d1)) with (relativeShapes d1)
    by (by destruct d1).
  done.
Qed.

Lemma step_addReference identifier token type d :
  given token → step d (addReference identifier token type d).
Proof.
  intros Htoken. unfold addReference. apply step_withReferences. by constructor.
Qed.

(** *** Nodes *)

Lemma givenNode_parts k v t :
  givenNode (MkNode k v t)
  ↔ from_option (λ k, given (keyToken k)) True k
    ∧ from_option given True t
    ∧ Forall given (valueTokens v).
Proof.
  unfold ParserRun.givenNode. cbn [nodeTokens]. rewrite !Forall_app.
  destruct k, t; simpl; rewrite ?Forall_singleton; intuition constructor.
Qed.

Lemma givenNode_field k fields t entry :
  givenNode (MkNode k (VObject fields) t) → entry ∈ fields → givenNode entry.2.
Proof.
  intros (_ & _ & Hfields)%givenNode_parts Hentry. cbn [valueTokens] in Hfields.
  unfold ParserRun.givenNode. apply Forall_forall. intros token Htoken.
  eapply (Forall_forall given); [done|]. apply list_elem_of_In, in_flat_map.
  exists entry. split; by apply list_elem_of_In.
Qed.

Lemma givenNode_item k items t item :
  givenNode (MkNode k (VArray items) t) → Some item ∈ items → givenNode item.
Proof.
  intros (_ & _ & Hitems)%givenNode_parts Hitem. cbn [valueTokens] in Hitems.
  unfold ParserRun.givenNode. apply Forall_forall. intros token Htoken.
  eapply (Forall_forall given); [done|]. apply list_elem_of_In, in_flat_map.
  exists (Some item). split; by apply list_elem_of_In.
Qed.

Lemma givenNode_object fields t :
  Forall (λ entry : jstring * Node, givenNode entry.2) fields → given t →
  givenNode (MkNode None (VObject fields) (Some t)).
Proof.
  intros Hfields Ht. apply givenNode_parts. split; [done|]. split; [done|].
  cbn [valueTokens]. apply Forall_forall. intros token Htoken.
  apply list_elem_of_In, in_flat_map in Htoken as (entry & Hentry & Htoken).
  apply list_elem_of_In in Hentry, Htoken.
  eapply (Forall_forall (λ entry : jstring * Node, givenNode entry.2)) in Hfields; [|done].
  by eapply (Forall_forall given).
Qed.

Lemma givenNode_array items t :
  Forall (givenOption givenNode) items → given t →
  givenNode (MkNode None (VArray items) (Some t)).
Proof.
  intros Hitems Ht. apply givenNode_parts. split; [done|]. split; [done|].
  cbn [valueTokens]. apply Forall_forall. intros token Htoken.
  apply list_elem_of_In, in_flat_map in Htoken as (item & Hitem & Htoken).
  apply list_elem_of_In in Hitem, Htoken.
  eapply (Forall_forall (givenOption givenNode)) in Hitems; [|done].
  destruct item as [item|]; [|by apply elem_of_nil in Htoken].
  by eapply (Forall_forall given).
Qed.

Lemma givenNode_withKey key value :
  from_option (λ k, given (keyToken k)) True key →
  givenOption givenNode value →
  givenNode (withKey key value).
Proof.
  intros Hkey Hvalue. destruct value as [[k v t]|]; simpl in *.
  - apply givenNode_parts in Hvalue as (_ & Ht & Hv). by apply givenNode_parts.
  - apply givenNode_parts. by repeat split.
Qed.

Lemma givenNode_leaf v t :
  valueTokens v = [] → given t → givenNode (MkNode None v (Some t)).
Proof.
  intros Hv Ht. apply givenNode_parts. rewrite Hv. split; [done|]. by split.
Qed.

Lemma valueTokens_literal t : valueTokens (literal t) = [].
Proof. unfold literal. by case_bool_decide. Qed.

(** *** Objects *)

Lemma entries_elem_of {V} (o : list (jstring * V)) entry :
  entry ∈ JsObject.entries o → entry ∈ o.
Proof.
  unfold JsObject.entries. rewrite elem_of_app. intros [Hindexed|Hnamed].
  - apply list_elem_of_fmap in Hindexed as ([i e] & -> & Hin). simpl.
    assert (∀ l, (i, e) ∈ foldr JsObject.insertByIndex [] l → (i, e) ∈ l) as Hsorted.
    { induction l as [|x l IH]; simpl; [done|]. intros Hx.
      assert (∀ y l', (i, e) ∈ JsObject.insertByIndex y l' → (i, e) = y ∨ (i, e) ∈ l')
        as Hinsert.
      { intros y l'. induction l' as [|z l' IH']; simpl.
        - intros ?%list_elem_of_singleton. by left.
        - case_match.
          + intros [->|?]%elem_of_cons; [by left|by right].
          + intros [->|?]%elem_of_cons; [right; by left|].
            destruct IH' as [?|?]; [done|by left|right; by right]. }
      apply Hinsert in Hx as [->|?]; [by left|right; by apply IH]. }
    apply Hsorted in Hin. apply list_elem_of_omap in Hin as (e' & He' & Hsome).
    destruct (JsObject.arrayIndex e'.1); simplify_eq/=. done.
  - by apply list_elem_of_filter in Hnamed as [_ ?].
Qed.

Lemma set_Forall {V} (P : jstring * V → Prop) key v (o : list (jstring * V)) :
  (∀ k, P (k, v)) → Forall P o → Forall P (JsObject.set key v o).
Proof.
  intros Hv. induction 1 as [|[k w] o Hk Ho IH]; simpl; [by repeat constructor|].
  case_bool_decide; constructor; auto.
Qed.

(** *** Validation against a schema *)

Lemma Schema_nested_ind (P : Schema → Prop) :
  (∀ type required structure anyMember member key value,
     from_option (Forall (λ entry : jstring * Schema, P entry.2)) True structure →
     from_option P True anyMember → from_option P True member →
     from_option P True key → from_option P True value →
     P (MkSchema type required structure anyMember member key value)) →
  ∀ schema, P schema.
Proof.
  intros Hstep. fix IH 1.
  intros [type required structure anyMember member key value]. apply Hstep.
  - destruct structure as [fields|]; [|exact I]. simpl.
    induction fields as [|[name s] fields IHfields]; constructor; [apply IH|exact IHfields].
  - destruct anyMember as [s|]; [apply IH|exact I].
  - destruct member as [s|]; [apply IH|exact I].
  - destruct key as [s|]; [apply IH|exact I].
  - destruct value as [s|]; [apply IH|exact I].
Qed.

Lemma forEach_step {A} (f : A → ParsedDocument → option ParsedDocument) l :
  (∀ a d d', a ∈ l → f a d = Some d' → step d d') →
  ∀ d d', forEach f l d = Some d' → step d d'.
Proof.
  unfold forEach. induction l as [|a l IH] using rev_ind; intros Hf d d'.
  - intros [= <-]. apply step_refl.
  - rewrite foldl_app. simpl.
    destruct (foldl (λ acc a, acc ≫= f a) (Some d) l) as [d1|] eqn:Hd1; [|done].
    simpl. intros Hd'. eapply step_trans.
    + apply IH; [|done]. intros a' ? ? Ha'. apply Hf. apply elem_of_app. by left.
    + eapply Hf; [|done]. apply elem_of_app. right. by apply list_elem_of_singleton.
Qed.

Lemma step_addMemberReference value d :
  givenNode value → step d (addMemberReference value d).
Proof.
  destruct value as [k v [t|]]; unfold addMemberReference; simpl; [|intros; apply step_refl].
  intros (_ & Ht & _)%givenNode_parts. simpl in Ht.
  case_match; [by apply step_addReference|by apply step_addMessage].
Qed.

Section WithStringify.
Variable JSON_stringify : option Node → jstring.

Lemma validateAgainstInherited_step identifierToken node d :
  given identifierToken → givenNode node →
  step d (validateAgainstInherited JSON_stringify identifierToken node d).
Proof.
  intros Hid Hnode. unfold validateAgainstInherited.
  destruct node as [k v [t|]]; simpl; [|by apply step_addMessage].
  apply givenNode_parts in Hnode as (_ & Ht & _). by apply step_addMessage.
Qed.

Lemma validateAgainst_step schema : ∀ identifierToken node d d',
  given identifierToken → givenOption givenNode node →
  validateAgainst JSON_stringify schema identifierToken node d = Some d' →
  step d d'.
Proof.
  induction schema as [type required structure anyMember member key value
                         IHstructure IHany IHmember IHkey IHvalue]
    using Schema_nested_ind.
  intros identifierToken node d d' Hid Hnode. cbn [validateAgainst].
  destruct node as [[nodeKey nodeValue [nodeToken|]]|];
    try (intros [= <-]; by apply step_addMessage).
  simpl in Hnode. pose proof Hnode as (_ & Htoken & _)%givenNode_parts. simpl in Htoken.
  assert (∀ (entry : jstring * Node) fields,
    nodeValue = VObject fields → entry ∈ JsObject.entries fields →
    givenNode entry.2
    ∧ given (default identifierToken (Node.token entry.2))
    ∧ given (from_option keyToken identifierToken (Node.key entry.2))) as Hentry.
  { intros entry fields -> Hin%entries_elem_of.
    pose proof (givenNode_field _ _ _ _ Hnode Hin) as Hfield.
    split; [done|]. destruct entry as [name [k v t]]. cbn [fst snd] in *.
    apply givenNode_parts in Hfield as (Hk & Ht & _).
    split; [by destruct t|by destruct k]. }
  destruct (bool_decide (type = js "identifier")).
  { intros [= <-]. branch; [by apply step_addMessage|apply step_refl]. }
  destruct (bool_decide (type = js "member")).
  { intros [= <-]. branch; [by apply step_addMessage|].
    by apply step_addMemberReference. }
  destruct (bool_decide (type = js "structure")).
  { destruct (negb (isBrace "{" nodeToken)); [intros [= <-]; by apply step_addMessage|].
    destruct nodeValue as [| | |fields|]; try done.
    specialize (λ entry, Hentry entry fields eq_refl).
    match goal with
    | |- (?first ≫= ?second) = Some d' → _ =>
        destruct first as [d1|] eqn:Hfirst; [|done]; cbn [mbind option_bind];
        intros Hsecond; apply (step_trans _ d1)
    end.
    + destruct structure as [fieldSchemas|]; [|injection Hfirst as <-; apply step_refl].
      simpl in IHstructure.
      match type of Hfirst with
      | forEach _ _ ?d0 = _ => apply (step_trans _ d0)
      end.
      * clear Hfirst. induction fieldSchemas as [|[name s] fieldSchemas IH]
          using rev_ind; [apply step_refl|].
        rewrite foldl_app. simpl. eapply step_trans.
        { apply IH. by apply Forall_app in IHstructure as [? _]. }
        destruct s. branch; [by apply step_addMessage|apply step_refl].
      * eapply forEach_step; [|done]. intros [fieldName fieldValue] d2 d2' Hin.
        destruct (Hentry _ Hin) as (Hfield & Hft & Hfk). cbn [fst snd] in *.
        destruct anyMember as [s|]; [by apply IHany|].
        destruct (JsObject.get fieldName _) as [validate|] eqn:Hget.
        -- unfold JsObject.get in Hget.
           destruct (list_find _ _) as [[i [name validate']]|] eqn:Hfind; [|done].
           injection Hget as <-.
           apply list_find_Some in Hfind as (Hlookup & _ & _).
           apply list_lookup_fmap_Some in Hlookup as ([name' s] & Heq & Hs).
           cbn [fst snd] in Heq. injection Heq as -> ->.
           eapply (Forall_lookup_1 (λ entry : jstring * Schema, _)) in IHstructure;
             [|done].
           by apply IHstructure.
        -- branch; intros [= <-];
             [by apply validateAgainstInherited_step|by apply step_addMessage].
    + eapply forEach_step; [|done]. intros [fieldName fieldValue] d2 d2' Hin.
      destruct (Hentry _ Hin) as (Hfield & Hft & Hfk). cbn [fst snd] in *.
      destruct anyMember as [s|]; [by apply IHany|]. intros [= <-]. apply step_refl. }
  destruct (bool_decide (type = js "list")).
  { destruct nodeValue as [| | | |items]; try (intros [= <-]; by apply step_addMessage).
    destruct (negb (isBrace "[" nodeToken)); [intros [= <-]; by apply step_addMessage|].
    apply forEach_step. intros [item|] d2 d2' Hin; [|done].
    pose proof (givenNode_item _ _ _ _ Hnode Hin) as Hitem.
    destruct member as [s|]; [|intros [= <-]; apply step_refl].
    apply IHmember; [|done]. destruct item as [k v [t|]]; simpl; [|done].
    by apply givenNode_parts in Hitem as (_ & ? & _). }
  destruct (bool_decide (type = js "map")).
  { destruct (negb (isBrace "{" nodeToken)); [intros [= <-]; by apply step_addMessage|].
    destruct nodeValue as [| | |fields|]; try done.
    specialize (λ entry, Hentry entry fields eq_refl).
    apply forEach_step. intros [fieldName fieldValue] d2 d2' Hin.
    destruct (Hentry _ Hin) as (Hfield & Hft & Hfk). cbn [fst snd] in *.
    match goal with
    | |- (?first ≫= ?second) = Some d2' → _ =>
        destruct first as [d3|] eqn:Hfirst; [|done]; cbn [mbind option_bind];
        intros Hsecond; apply (step_trans _ d3)
    end.
    + destruct key as [s|]; [|injection Hfirst as <-; apply step_refl].
      revert Hfirst. apply IHkey; [done|].
      destruct fieldValue as [[[kv kt]|] v t]; simpl in *; [|done].
      apply givenNode_parts. by repeat split.
    + destruct value as [s|]; [|injection Hsecond as <-; apply step_refl].
      revert Hsecond. by apply IHvalue. }
  destruct (bool_decide (type = js "string")).
  { intros [= <-]. branch; [by apply step_addMessage|apply step_refl]. }
  intros [= <-]. by apply step_addMessage.
Qed.

Lemma validateValueAgainstSchema_step identifierToken node schema d d' :
  given identifierToken → givenOption givenNode node →
  validateValueAgainstSchema JSON_stringify identifierToken node schema d = Some d' →
  step d d'.
Proof.
  intros Hid Hnode. destruct schema as [s|]; simpl.
  - by apply validateAgainst_step.
  - intros [= <-]. apply step_refl.
Qed.

End WithStringify.

Lemma addMember_step identifier value d d' :
  givenNode value → addMember identifier value d = Some d' → step d d'.
Proof.
  destruct value as [[k|] v t]; [|done]. intros (Hk & _)%givenNode_parts. simpl in Hk.
  unfold addMember. simpl.
  destruct (addShape _ _ d) as [d1|] eqn:Hadd; [|done]. simpl. intros [= <-].
  eapply step_trans; [by eapply step_addShape|by apply step_addReference].
Qed.

(** *** Rules for the methods *)

#[local] Abbreviation sound := (ParserRun.sound given kept).

Lemma sound_ret {A} (Q : A → Prop) a : Q a → sound Q (ret a).
Proof. intros Ha p Hp. simpl. split; [done|]. split; [apply step_refl|done]. Qed.

Lemma sound_bind {A B} (Q1 : A → Prop) (Q2 : B → Prop) (m : M A) (k : A → M B) :
  sound Q1 m → (∀ a, Q1 a → sound Q2 (k a)) → sound Q2 (bind m k).
Proof.
  intros Hm Hk p Hp. unfold bind. specialize (Hm p Hp).
  destruct (m p) as [a p1|?|]; [|done..]. destruct Hm as (Hp1 & Hstep & Ha).
  specialize (Hk a Ha p1 Hp1). destruct (k a p1) as [b p2|?|]; [|done..].
  destruct Hk as (Hp2 & Hstep' & Hb). split; [done|]. split; [|done].
  by eapply step_trans.
Qed.

Lemma sound_weaken {A} (Q Q' : A → Prop) (m : M A) :
  sound Q m → (∀ a, Q a → Q' a) → sound Q' m.
Proof.
  intros Hm HQ p Hp. specialize (Hm p Hp). destruct (m p); [|done..].
  destruct Hm as (? & ? & ?). auto.
Qed.

Lemma sound_throw {A} (Q : A → Prop) : sound Q throw.
Proof. by intros p Hp. Qed.

Lemma sound_outOfFuel {A} (Q : A → Prop) : sound Q outOfFuel.
Proof. by intros p Hp. Qed.

Lemma sound_token : sound given token.
Proof.
  intros p Hp. simpl. split; [done|]. split; [apply step_refl|].
  by eapply kept_given.
Qed.

Lemma sound_document : sound always document.
Proof. intros p Hp. simpl. split; [done|]. split; [apply step_refl|done]. Qed.

Lemma keptState_advanced p : keptState p → keptState (advanced p).
Proof.
  unfold ParserRun.keptState, advanced. intros Hp%kept_advanced.
  by destruct (tokens p).
Qed.

Lemma sound_advanceToken : sound always advanceToken.
Proof.
  intros p Hp. simpl. split; [by apply keptState_advanced|].
  split; [|done]. destruct p as [current [|t rest] d]; apply step_refl.
Qed.

Lemma sound_update f : (∀ d, step d (f d)) → sound always (update f).
Proof. intros Hf p Hp. simpl. split; [done|]. split; [apply Hf|done]. Qed.

Lemma sound_updateOrThrow f :
  (∀ d d', f d = Some d' → step d d') → sound always (updateOrThrow f).
Proof.
  intros Hf p Hp. unfold updateOrThrow.
  destruct (f (parsedDocument p)) as [d'|] eqn:Hd'; [|done].
  split; [done|]. split; [by apply Hf|done].
Qed.

Lemma sound_addMessage text t type after :
  given t → sound always (Parser.addMessage text t type after).
Proof. intros Ht. apply sound_update. intros d. by apply step_addMessage. Qed.

Lemma sound_isDelimiter value : sound always (isDelimiter value).
Proof. intros p Hp. simpl. split; [done|]. split; [apply step_refl|done]. Qed.

Lemma sound_expectIdentifier : sound (givenOption given) expectIdentifier.
Proof.
  unfold expectIdentifier. eapply sound_bind; [apply sound_token|].
  intros t Ht. case_bool_decide.
  - eapply sound_bind; [apply sound_advanceToken|]. intros _ _. by apply sound_ret.
  - by apply sound_ret.
Qed.

Lemma sound_storePair pair value :
  givenOption givenNode pair →
  Forall (λ entry : jstring * Node, givenNode entry.2) value →
  sound (Forall (λ entry : jstring * Node, givenNode entry.2)) (storePair pair value).
Proof.
  intros Hpair Hvalue. unfold storePair.
  destruct pair as [[[k|] v t]|]; try by apply sound_ret.
  simpl in Hpair. pose proof Hpair as (Hk & _)%givenNode_parts. simpl in Hk.
  destruct (JsObject.has _ _).
  - eapply sound_bind; [by apply sound_addMessage|]. intros _ _.
    apply sound_ret. by apply set_Forall.
  - apply sound_ret. by apply set_Forall.
Qed.

(** *** The descent *)

Ltac pick :=
  lazymatch goal with
  | |- ParserRun.sound _ _ ?Q ?m =>
      tryif is_evar Q then
        lazymatch type of m with
        | M unit => unify Q (@always unit)
        | M bool => unify Q (@always bool)
        | M Token.t => unify Q given
        | M ParsedDocument => unify Q (@always ParsedDocument)
        | M (option Token.t) => unify Q (givenOption given)
        | M (option Node) => unify Q (givenOption givenNode)
        | M (list (option Node)) => unify Q (Forall (givenOption givenNode))
        | M (list (jstring * Node)) =>
            unify Q (Forall (λ entry : jstring * Node, givenNode entry.2))
        end
      else idtac
  end.

Ltac by_induction :=
  match goal with
  | IH : _ |- ParserRun.sound _ _ _ _ => apply IH
  end.

Ltac soundness_rule :=
  pick;
  lazymatch goal with
  | |- ParserRun.sound _ _ _ (bind _ _) => eapply sound_bind; [|intros ? ?]
  | |- ParserRun.sound _ _ _ (ret _) => apply sound_ret
  | |- ParserRun.sound _ _ _ token => apply sound_token
  | |- ParserRun.sound _ _ _ document => apply sound_document
  | |- ParserRun.sound _ _ _ (update _) => apply sound_update; intros ?
  | |- ParserRun.sound _ _ _ (updateOrThrow _) => apply sound_updateOrThrow; intros ? ?
  | |- ParserRun.sound _ _ _ (Parser.addMessage _ _ _ _) => apply sound_addMessage
  | |- ParserRun.sound _ _ _ advanceToken => apply sound_advanceToken
  | |- ParserRun.sound _ _ _ (isDelimiter _) => apply sound_isDelimiter
  | |- ParserRun.sound _ _ _ expectIdentifier => apply sound_expectIdentifier
  | |- ParserRun.sound _ _ _ (storePair _ _) => apply sound_storePair
  | |- ParserRun.sound _ _ _ throw => apply sound_throw
  | |- ParserRun.sound _ _ _ outOfFuel => apply sound_outOfFuel
  | |- ParserRun.sound _ _ _ (if negb ?b then _ else _) => destruct b eqn:?; cbn [negb]
  | |- ParserRun.sound _ _ _ (if ?b then _ else _) => destruct b eqn:?
  | |- ParserRun.sound _ _ _ (match ?x with _ => _ end) => destruct x eqn:?
  end.

Ltac follow := repeat (soundness_rule; cbv beta zeta).

Ltac side :=
  cbv beta zeta in *;
  repeat match goal with
  | H : givenOption _ (Some _) |- _ => unfold givenOption in H; cbn [from_option] in H
  end;
  lazymatch goal with
  | |- ParserRun.step _ _ (ParsedDocument.addReference _ _ _ _) =>
      apply step_addReference; side
  | |- ParserRun.step _ _ (ParsedDocument.addMessage _ _ _ _ _) =>
      apply step_addMessage; side
  | |- ParsedDocument.addShape _ _ _ = Some _ → ParserRun.step _ _ _ =>
      apply step_addShape; side
  | |- ParserRun.step _ _ (ParsedDocument.enterSection _ _ _) =>
      apply step_enterSection; side
  | |- ParserRun.step _ _ (ParsedDocument.withNamespace _ _) => apply step_withNamespace
  | |- ParserRun.step _ _ (ParsedDocument.withMetadata _ _) => apply step_withMetadata
  | |- ParserRun.step _ _ (ParsedDocument.withControls _ _) => apply step_withControls
  | |- always _ => exact I
  | |- given (if ?b then _ else _) => destruct b; assumption
  | |- given (default _ ?o) => destruct o; cbn [default from_option id]; assumption
  | |- givenOption _ (Some (MkNode None VUndefined (Some _))) =>
      apply givenNode_leaf; [done|side]
  | |- givenOption _ (Some (MkNode None (literal _) (Some _))) =>
      apply givenNode_leaf; [apply valueTokens_literal|side]
  | |- givenOption _ (Some (MkNode None (VArray _) (Some _))) =>
      apply givenNode_array; side
  | |- givenOption _ (Some (MkNode None (VObject _) (Some _))) =>
      apply givenNode_object; side
  | |- givenOption _ (Some (withKey _ _)) =>
      apply givenNode_withKey; [|done]; branch; side
  | |- Forall _ (_ ++ [_]) => apply Forall_app; split; [done|by constructor]
  | |- _ = Some _ → _ => idtac
  | |- _ => try done
  end.

Lemma sounds_step fuel : sounds given kept fuel → sounds given kept (S fuel).
Proof.
  intros (IHET & IHTA & IHLT & IHKVP & IHEV & IHEAO & IHAI & IHENO & IHOP).
  repeat split.
  - intros previousToken Hprevious. cbn [expectTrait]. follow. all: try by_induction. all: side.
  - cbn [traitArguments]. follow. all: try by_induction. all: side.
  - cbn [leadingTraits]. follow. all: try by_induction. all: side.
  - intros optionalKey delimiter. cbn [expectKeyValuePair]. follow.
    all: try by_induction. all: side.
  - cbn [expectValue]. follow. all: try by_induction. all: side.
  - cbn [expectArrayObject]. follow. all: try by_induction. all: side.
  - intros value Hvalue. cbn [arrayItems]. follow. all: try by_induction. all: side.
  - intros afterToken Hafter. cbn [expectNodeObject]. follow. all: try by_induction. all: side.
  - intros value Hvalue. cbn [objectPairs]. follow. all: try by_induction. all: side.
Qed.

Lemma sounds_all fuel : sounds given kept fuel.
Proof.
  induction fuel as [|fuel IH]; [|by apply sounds_step].
  repeat split; intros; apply sound_outOfFuel.
Qed.

Lemma given_key_token node cur :
  givenOption givenNode node → given cur →
  given (from_option keyToken cur (node ≫= Node.key)).
Proof.
  destruct node as [[[k|] v t]|]; simpl; try done.
  by intros (Hk & _)%givenNode_parts _.
Qed.

Lemma given_node_token node cur :
  givenOption givenNode node → given cur →
  given (default cur (node ≫= Node.token)).
Proof.
  destruct node as [[k v [t|]]|]; simpl; try done.
  by intros (_ & Ht & _)%givenNode_parts _.
Qed.

Section WithBuiltins.
Variable numberIsTruthy : jstring → bool.
Variable JSON_stringify : option Node → jstring.
Variable encodeURIComponent : jstring → option jstring.
Variable arrayMethod : jstring → bool.

Lemma sound_statement fuel :
  sound always
    (statement numberIsTruthy JSON_stringify encodeURIComponent arrayMethod fuel).
Proof.
  destruct (sounds_all fuel)
    as (IHET & IHTA & IHLT & IHKVP & IHEV & IHEAO & IHAI & IHENO & IHOP).
  unfold statement, expectControlStatement. follow.
  all: try by_induction.
  all: try (by apply given_key_token).
  all: try (by apply given_node_token).
  all: try (apply validateValueAgainstSchema_step; side).
  all: side.
  destruct n as [k [| | |fields|] tk]; try done. simpl.
  apply forEach_step. intros entry ? ? Hin%entries_elem_of.
  apply addMember_step. by eapply givenNode_field.
Qed.

Lemma parse_sound fuel p p' :
  keptState p →
  parse numberIsTruthy JSON_stringify encodeURIComponent arrayMethod fuel p
  = Done () p' →
  keptState p'
  ∧ Token.type (currentToken p') = TokenType.End
  ∧ ∃ d, step (parsedDocument p) d ∧ parsedDocument p' = finishParsing d.
Proof.
  revert p. induction fuel as [|fuel IH]; intros p Hp; [done|].
  cbn [parse]. unfold bind at 1. cbn [token].
  case_bool_decide as Hend.
  - unfold bind. pose proof (sound_statement fuel p Hp) as Hstatement.
    destruct (statement _ _ _ _ fuel p) as [[] p1|?|]; [|done..].
    destruct Hstatement as (Hp1 & Hstep & _).
    intros Hrest. destruct (IH p1 Hp1 Hrest) as (Hp' & Htype & d & Hd & Heq).
    split; [done|]. split; [done|]. exists d. split; [by eapply step_trans|done].
  - intros [= <-]. simpl. split; [done|].
    split; [by destruct (decide (Token.type (currentToken p) = TokenType.End))|].
    exists (parsedDocument p). split; [apply step_refl|done].
Qed.

End WithBuiltins.

End WithTokens.
End ParserRunFacts.

(** ** Facts about a run of lexer and parser *)

Module RunFacts.
Import Lexer LexerSpec LexerRun LexerRunFacts ParsedDocument DocumentSpec Parser ParserRun
  ParserRunFacts RunSpec.

(** *** From the lexer to the parser *)

Lemma lexed_not_End source t : lexed source t → Token.type t ≠ TokenType.End.
Proof. intros (_ & _ & _ & _ & Htype) Hend. by rewrite Hend in Htype. Qed.

Lemma among_range tokens t :
  among tokens t → ∃ t', t' ∈ tokens ∧ Token.range t = Token.range t'.
Proof. intros (t' & Hin & [->| ->]); by exists t'. Qed.

Lemma among_extent source p tokens t :
  chain source p tokens → among tokens t →
  index (start (Token.range t)) < index (end_ (Token.range t))
  ∧ index (end_ (Token.range t)) ≤ length source.
Proof.
  intros Hchain (t' & Hin & ->)%among_range.
  by destruct (chain_elem_of _ _ _ _ Hchain Hin) as [_ (_ & ? & ? & _)].
Qed.

Lemma among_asEnd tokens t : among tokens t → among tokens (asEnd t).
Proof. intros (t' & Hin & [->| ->]); exists t'; (split; [done|by right]). Qed.

Lemma kept_given tokens current rest :
  keptOf tokens current rest → among tokens current.
Proof. by intros (? & _). Qed.

Lemma kept_advanced tokens current rest :
  keptOf tokens current rest →
  match rest with
  | t :: rest' => keptOf tokens t rest'
  | [] => keptOf tokens (asEnd current) []
  end.
Proof.
  intros (Hcurrent & Hrest & Hlive & Hend). destruct rest as [|t rest].
  - split; [by apply among_asEnd|done].
  - apply Forall_cons in Hrest as [Ht Hrest]. apply Forall_cons in Hlive as [Htype Hlive].
    by repeat split.
Qed.

Lemma keptState_new source p tokens t rest d :
  chain source p tokens → tokens = t :: rest →
  keptState (keptOf tokens) (Parser.new tokens d).
Proof.
  intros Hchain ->. unfold keptState, Parser.new, advanced. simpl.
  pose proof (chain_Forall _ _ _ Hchain) as Hlexed.
  assert (Forall (among (t :: rest)) (t :: rest)) as Hamong.
  { apply Forall_forall. intros x Hx. exists x. by split; [|left]. }
  apply Forall_cons in Hamong as [Ht Hrest].
  apply Forall_cons in Hlexed as [Hlt Hlrest].
  split; [done|]. split; [done|]. split.
  - eapply Forall_impl; [exact Hlrest|]. intros x. apply lexed_not_End.
  - intros Hend. by apply lexed_not_End in Hlt.
Qed.

Section WithBuiltins.
Variable numberIsTruthy : jstring → bool.
Variable JSON_stringify : option Node → jstring.
Variable encodeURIComponent : jstring → option jstring.
Variable arrayMethod : jstring → bool.

Lemma parse_of_run source fuelOfLexer stream fuel d0 p' :
  getTokens source fuelOfLexer = Some stream →
  parse numberIsTruthy JSON_stringify encodeURIComponent arrayMethod fuel
    (Parser.new stream d0)
  = Done () p' →
  tokens p' = []
  ∧ Token.type (currentToken p') = TokenType.End
  ∧ ∃ d, step (among stream) d0 d ∧ parsedDocument p' = finishParsing d.
Proof.
  intros Hchain%getTokens_chain Hparse. destruct stream as [|t rest] eqn:Htokens.
  - destruct fuel as [|fuel]; [discriminate Hparse|].
    injection Hparse as <-. simpl.
    split; [done|]. split; [done|]. exists d0. split; [|done].
    apply step_refl.
  - rewrite <- Htokens in *.
    pose proof (keptState_new _ _ _ _ _ d0 Hchain Htokens) as Hkept.
    destruct (parse_sound (among stream) (keptOf stream)
                (kept_given stream) (kept_advanced stream)
                numberIsTruthy JSON_stringify encodeURIComponent arrayMethod
                fuel _ _ Hkept Hparse)
      as ((_ & _ & _ & Hend) & Htype & Hstep).
    split; [by apply Hend|]. split; [exact Htype|]. subst stream. exact Hstep.
Qed.

End WithBuiltins.

(** *** What a parsed document holds *)

Section WithGiven.
Variable given : Token.t → Prop.

Lemma givenDocument_new uri : givenDocument given (ParsedDocument.new uri).
Proof.
  unfold givenDocument. simpl. split; [constructor|]. split; [constructor|].
  split; [by intros []|]. intros key ts. by rewrite lookup_empty.
Qed.

Lemma givenDocument_sorted d :
  givenDocument given d →
  givenDocument given (withReferences (sort compareReferences (references d)) d).
Proof.
  intros (Hm & Hr & Hs & Hsh). destruct d. unfold givenDocument. simpl in *.
  split; [done|]. split; [|done].
  by rewrite DocumentFacts.sort_Permutation.
Qed.

Lemma givenDocument_finishParsing d :
  givenDocument given d → givenDocument given (finishParsing d).
Proof.
  intros (Hm & Hr & Hs & Hsh). destruct d. unfold givenDocument. simpl in *.
  split; [done|]. split; [|done].
  by rewrite DocumentFacts.sort_Permutation.
Qed.

Lemma givenDocument_validateReferences parsedFiles rs d :
  Forall (λ r, given (Reference.token r)) rs →
  givenDocument given d →
  givenDocument given (foldl (λ d r, validateReference parsedFiles r d) d rs).
Proof.
  intros Hrs. revert d. induction Hrs as [|r rs Hr _ IH]; intros d Hd; [done|].
  simpl. apply IH. unfold validateReference. case_match; [|done].
  by apply (step_addMessage given).
Qed.

Lemma givenDocument_validate parsedFiles d :
  givenDocument given d → givenDocument given (validate parsedFiles d).
Proof.
  intros Hd. unfold validate, validateReferences.
  assert (givenDocument given
            (withMessages (take (parsedMessageCount d) (messages d)) d)) as Hcut.
  { destruct Hd as (Hm & Hrest). destruct d. split; [|done]. simpl in *.
    by apply Forall_take. }
  assert (givenDocument given
            (validateNamespace
               (withMessages (take (parsedMessageCount d) (messages d)) d))) as Hns.
  { unfold validateNamespace. case_match eqn:Hshape; [|done]. case_match; [|done].
    apply (step_addMessage given); [|done].
    destruct Hcut as (_ & _ & Hs & _). by apply (Hs Section_.Shape). }
  apply givenDocument_sorted in Hns.
  apply givenDocument_validateReferences; [|done]. apply Hns.
Qed.

End WithGiven.

Lemma givenMessage_withinText source p stream m :
  chain source p stream → givenMessage (among stream) m →
  withinText (length source) m.
Proof.
  intros Hchain (t & Ht & Hend & Hstart).
  destruct (among_extent _ _ _ _ Hchain Ht) as [Hlt Hle].
  unfold withinText. lia.
Qed.

Lemma sorted_references_ordered source p stream rs :
  chain source p stream →
  Forall (λ r, among stream (Reference.token r)) rs →
  sortedByStart (sort compareReferences rs)
  ∧ sortedByEnd (sort compareReferences rs)
  ∧ wellFormedRanges (sort compareReferences rs).
Proof.
  intros Hchain Hrs.
  assert (Forall (λ r, among stream (Reference.token r)) (sort compareReferences rs))
    as Hsorted by (by rewrite DocumentFacts.sort_Permutation).
  rewrite Forall_forall in Hsorted.
  pose proof (FindSymbolFacts.sort_sortedByStart rs) as Hstart.
  split; [done|]. split.
  - intros i j a b Hij Ha Hb.
    destruct (among_range _ _ (Hsorted a ltac:(by eapply list_elem_of_lookup_2)))
      as (ta & Hta & Hsame_a).
    destruct (among_range _ _ (Hsorted b ltac:(by eapply list_elem_of_lookup_2)))
      as (tb & Htb & Hsame_b).
    rewrite Hsame_a, Hsame_b.
    apply (chain_ordered _ _ _ ta tb Hchain Hta Htb).
    rewrite <- Hsame_a, <- Hsame_b. by eapply Hstart.
  - intros r Hr. destruct (among_range _ _ (Hsorted r Hr)) as (t & Ht & ->).
    apply (chain_ordered _ _ _ t t Hchain Ht Ht).
Qed.

Section WithBuiltins.
Variable numberIsTruthy : jstring → bool.
Variable JSON_stringify : option Node → jstring.
Variable encodeURIComponent : jstring → option jstring.
Variable arrayMethod : jstring → bool.

#[local] Abbreviation parseDocument :=
  (Model.parseDocument numberIsTruthy JSON_stringify encodeURIComponent arrayMethod).

Lemma parseDocument_Returned uri text fuel d :
  (parseDocument uri text fuel).2 = Model.Returned d →
  ∃ stream p' d0,
    getTokens text fuel = Some stream
    ∧ parse numberIsTruthy JSON_stringify encodeURIComponent arrayMethod fuel
        (Parser.new stream (ParsedDocument.new uri)) = Done () p'
    ∧ tokens p' = []
    ∧ step (among stream) (ParsedDocument.new uri) d0
    ∧ d = finishParsing d0.
Proof.
  unfold Model.parseDocument. cbn [snd].
  pose proof (yieldedWithin_finished text fuel) as Hlex.
  destruct (yieldedWithin text fuel) as [stream finished]. cbn [fst snd] in Hlex.
  destruct (parse _ _ _ _ _ _) as [[] p'|p'|] eqn:Hparse; [|by case_match|done].
  destruct finished; [|done]. specialize (Hlex eq_refl). intros [= <-].
  destruct (parse_of_run numberIsTruthy JSON_stringify encodeURIComponent arrayMethod
              _ _ _ _ _ _ Hlex Hparse) as (Hread & _ & d0 & Hstep & Hdone).
  by exists stream, p', d0.
Qed.

Lemma parseDocument_given uri text fuel d :
  (parseDocument uri text fuel).2 = Model.Returned d →
  ∃ stream, getTokens text fuel = Some stream ∧ givenDocument (among stream) d.
Proof.
  intros (stream & p' & d0 & Hlex & _ & _ & [_ Hstep] & ->)%parseDocument_Returned.
  exists stream. split; [done|].
  apply givenDocument_finishParsing, Hstep, givenDocument_new.
Qed.

(** X16.  Every diagnostic of a document that [parseDocument] returns,
    before and after [validate], covers at least one character and lies
    within the text: its start is not negative and is below its end, and
    its end is not beyond the length of the text. *)
Theorem parseDocument_diagnostics_within_text uri text fuel d parsedFiles :
  (parseDocument uri text fuel).2 = Model.Returned d →
  Forall (withinText (length text)) (messages d)
  ∧ Forall (withinText (length text)) (messages (validate parsedFiles d)).
Proof.
  intros (stream & Hlex%getTokens_chain & Hd)%parseDocument_given.
  split.
  - destruct Hd as (Hm & _). eapply Forall_impl; [exact Hm|].
    intros m. by eapply givenMessage_withinText.
  - apply (givenDocument_validate _ parsedFiles) in Hd. destruct Hd as (Hm & _).
    eapply Forall_impl; [exact Hm|]. intros m. by eapply givenMessage_withinText.
Qed.

(** X17.  [parse] returns only when it has read every token of the
    lexer: no token is left, and the look-ahead is the End token made of
    the last one. *)
Theorem parse_reads_every_token source fuelOfLexer stream fuel d p' :
  getTokens source fuelOfLexer = Some stream →
  parse numberIsTruthy JSON_stringify encodeURIComponent arrayMethod fuel
    (Parser.new stream d)
  = Done () p' →
  tokens p' = [] ∧ Token.type (currentToken p') = TokenType.End.
Proof.
  intros Hlex Hparse.
  destruct (parse_of_run numberIsTruthy JSON_stringify encodeURIComponent arrayMethod
              _ _ _ _ _ _ Hlex Hparse) as (Hread & Hend & _).
  done.
Qed.

(** X18.  Every token that a document returned by [parseDocument] holds,
    in its references, under its shapes and for its sections, is a token of
    the text or the End token made of one. *)
Theorem parseDocument_tokens_of_text uri text fuel d :
  (parseDocument uri text fuel).2 = Model.Returned d →
  ∃ stream,
    getTokens text fuel = Some stream
    ∧ (∀ r, r ∈ references d → among stream (Reference.token r))
    ∧ (∀ key ts t, shapes d !! key = Some ts → t ∈ ts → among stream t)
    ∧ (∀ s t, Section_.get s (sections d) = Some t → among stream t).
Proof.
  intros (stream & Hlex & _ & Hr & Hs & Hsh)%parseDocument_given.
  exists stream. split; [done|]. split; [by apply Forall_forall|]. split; [|done].
  intros key ts t Hts. by apply Forall_forall, (Hsh key).
Qed.

(** X19.  On a document that [parseDocument] returns, validated or not,
    [findSymbol] is complete: it answers with a reference whose range
    contains the position whenever the document has one, and with nothing
    only when it has none. *)
Theorem parseDocument_findSymbol_complete uri text fuel d parsedFiles d' line_ column_ :
  (parseDocument uri text fuel).2 = Model.Returned d →
  d' = d ∨ d' = validate parsedFiles d →
  ∃ found,
    findSymbol line_ column_ d' = Some found
    ∧ match found with
      | Some r => r ∈ references d' ∧ containsPosition (line_, column_) r = true
      | None => ∀ r, r ∈ references d' → containsPosition (line_, column_) r = false
      end.
Proof.
  intros (stream & p' & d0 & Hlex%getTokens_chain & _ & _ & [_ Hstep] & ->)%parseDocument_Returned
    Hd'.
  destruct (Hstep (givenDocument_new _ _)) as (_ & Hr & _).
  assert (∃ rs, references d' = sort compareReferences rs
                ∧ Forall (λ r, among stream (Reference.token r)) rs)
    as (rs & Hrs & Hgiven).
  { destruct Hd' as [->| ->].
    - exists (references d0). split; [by destruct d0|done].
    - exists (sort compareReferences (references d0)).
      rewrite DocumentFacts.validate_eq. split; [by destruct d0|].
      by rewrite DocumentFacts.sort_Permutation. }
  destruct (sorted_references_ordered _ _ _ _ Hlex Hgiven) as (Hstart & Hend & Hwf).
  rewrite <- Hrs in *. by apply FindSymbolFacts.findSymbol_spec.
Qed.


(** X20.  Whatever the tokens and the document it starts from, [parse]
    only adds: the document it returns is [finishParsing] of one that has
    the messages and the references of the first at the start of its own,
    every list of tokens and of ids under a shape with more at its end at
    most, the tokens of the sections, the keys of the metadata and of the
    controls, and the URI. *)
Theorem parse_only_adds fuel p p' :
  parse numberIsTruthy JSON_stringify encodeURIComponent arrayMethod fuel p
  = Done () p' →
  ∃ d, extends (parsedDocument p) d ∧ parsedDocument p' = finishParsing d.
Proof.
  intros Hparse.
  destruct (parse_sound (λ _, True) (λ _ _, True)
              (λ _ _ _, I)
              (λ _ rest _, match rest with [] => I | _ :: _ => I end)
              numberIsTruthy JSON_stringify encodeURIComponent arrayMethod
              fuel p p' I Hparse)
    as (_ & _ & d & [Hextends _] & Hdone).
  by exists d.
Qed.

(** X21.  [parseDocument] returns or throws when every pair of slashes in
    the text has a line feed somewhere after it, with fuel for four times
    the length of the text and five more. *)
Theorem parseDocument_terminates uri text fuel :
  commentsClosed text = true →
  4 * length text + 5 ≤ fuel →
  (∃ d, (parseDocument uri text fuel).2 = Model.Returned d)
  ∨ (parseDocument uri text fuel).2 = Model.Threw.
Proof.
  intros Hclosed Hfuel. unfold Model.parseDocument. cbn [snd].
  destruct (getTokensFrom_total text fuel initialPosition Hclosed) as [pieces Hrun];
    [simpl; lia|].
  assert (getTokens text fuel = Some (yielded pieces)) as Hlex
    by (unfold getTokens, run; by rewrite Hrun).
  rewrite (getTokens_yieldedWithin _ _ _ Hlex).
  pose proof (chain_length _ _ _ (getTokens_chain _ _ _ Hlex)) as Hcount.
  pose proof (ParserFacts.remaining_new (yielded pieces) (ParsedDocument.new uri)) as Hnew.
  pose proof (ParserFacts.parse_ends numberIsTruthy JSON_stringify encodeURIComponent
                arrayMethod fuel (Parser.new (yielded pieces) (ParsedDocument.new uri)))
    as Hends.
  unfold ParserSpec.ends in Hends.
  destruct (parse _ _ _ _ _ _) as [[] p'|p'|]; [by left; eexists|by right|].
  exfalso. apply Hends. simpl in Hcount. lia.
Qed.

End WithBuiltins.

(** *** The statements at a sample *)

Lemma parseDocument_diagnostics_within_text_witness :
  ∃ d, (Model.parseDocument Samples.numberIsTruthy Samples.JSON_stringify
          Samples.encodeURIComponent Samples.arrayMethod Samples.uri Samples.model 229).2
       = Model.Returned d
       ∧ length (messages (validate [d] d)) = 2
       ∧ Forall (withinText (length Samples.model)) (messages (validate [d] d)).
Proof.
  eexists. split; [vm_compute; reflexivity|]. split; [by vm_compute|].
  refine (proj2 (parseDocument_diagnostics_within_text Samples.numberIsTruthy
                   Samples.JSON_stringify Samples.encodeURIComponent
                   Samples.arrayMethod Samples.uri Samples.model 229 _ _ _)).
  vm_compute; reflexivity.
Defined.

Lemma parse_reads_every_token_witness :
  ∃ stream p',
    getTokens Samples.model 58 = Some stream
    ∧ parse Samples.numberIsTruthy Samples.JSON_stringify Samples.encodeURIComponent
        Samples.arrayMethod 45 (Parser.new stream (ParsedDocument.new Samples.uri)) = Done () p'
    ∧ tokens p' = []
    ∧ Token.type (currentToken p') = TokenType.End.
Proof.
  eexists _, _. split; [vm_compute; reflexivity|]. split; [vm_compute; reflexivity|].
  eapply (parse_reads_every_token Samples.numberIsTruthy Samples.JSON_stringify
            Samples.encodeURIComponent Samples.arrayMethod Samples.model 58 _ 45
            (ParsedDocument.new Samples.uri));
    [vm_compute; reflexivity|vm_compute; reflexivity].
Defined.

Lemma parseDocument_tokens_of_text_witness :
  ∃ d,
    (Model.parseDocument Samples.numberIsTruthy Samples.JSON_stringify
       Samples.encodeURIComponent Samples.arrayMethod Samples.uri Samples.model 229).2
    = Model.Returned d
    ∧ length (references d) = 3
    ∧ ∃ stream,
        getTokens Samples.model 229 = Some stream
        ∧ ∀ r, r ∈ references d → among stream (Reference.token r).
Proof.
  eexists. split; [vm_compute; reflexivity|]. split; [by vm_compute|].
  destruct (parseDocument_tokens_of_text Samples.numberIsTruthy Samples.JSON_stringify
              Samples.encodeURIComponent Samples.arrayMethod Samples.uri Samples.model 229 _
              ltac:(vm_compute; reflexivity)) as (stream & Hlex & Hreferences & _).
  exists stream. split; [exact Hlex|exact Hreferences].
Defined.

Lemma parseDocument_findSymbol_complete_witness :
  ∃ d,
    (Model.parseDocument Samples.numberIsTruthy Samples.JSON_stringify
       Samples.encodeURIComponent Samples.arrayMethod Samples.uri Samples.model 229).2
    = Model.Returned d
    ∧ ∃ found,
        findSymbol 2 23 d = Some found
        ∧ match found with
          | Some r => r ∈ references d ∧ containsPosition (2, 23) r = true
          | None => ∀ r, r ∈ references d → containsPosition (2, 23) r = false
          end.
Proof.
  eexists. split; [vm_compute; reflexivity|].
  eapply (parseDocument_findSymbol_complete Samples.numberIsTruthy
            Samples.JSON_stringify Samples.encodeURIComponent
            Samples.arrayMethod Samples.uri Samples.model 229 _ []);
    [vm_compute; reflexivity|left; reflexivity].
Defined.

Lemma parse_only_adds_witness :
  ∃ p',
    parse Samples.numberIsTruthy Samples.JSON_stringify Samples.encodeURIComponent
      Samples.arrayMethod 45
      (Parser.new Examples.sampleTokens Examples.sampleDocument) = Done () p'
    ∧ ∃ d, extends Examples.sampleDocument d ∧ parsedDocument p' = finishParsing d.
Proof.
  eexists. split; [vm_compute; reflexivity|].
  eapply (parse_only_adds Samples.numberIsTruthy Samples.JSON_stringify
            Samples.encodeURIComponent Samples.arrayMethod 45
            (Parser.new Examples.sampleTokens Examples.sampleDocument)).
  vm_compute; reflexivity.
Defined.

Lemma parseDocument_terminates_witness :
  (∃ d, (Model.parseDocument Samples.numberIsTruthy Samples.JSON_stringify
           Samples.encodeURIComponent Samples.arrayMethod Samples.uri Samples.model 229).2
        = Model.Returned d)
  ∨ (Model.parseDocument Samples.numberIsTruthy Samples.JSON_stringify
       Samples.encodeURIComponent Samples.arrayMethod Samples.uri Samples.model 229).2
    = Model.Threw.
Proof.
  apply (parseDocument_terminates Samples.numberIsTruthy Samples.JSON_stringify
           Samples.encodeURIComponent Samples.arrayMethod Samples.uri Samples.model 229);
    [by vm_compute|vm_compute; lia].
Defined.

(** The parser is handed the tokens as the lexer yields them.  On a
    source whose first token makes the parser throw and whose last line is
    a comment with no line feed after it, [parseDocument] throws, though
    the lexer would never come to its end; on the shape name before such a
    comment the parser asks for the token after it, and gets no answer. *)
Lemma parseDocument_throws_before_endless_comment :
  (Lexer.yieldedWithin Samples.loneSurrogateBeforeComment 20).2 = false
  ∧ (Model.parseDocument Samples.numberIsTruthy Samples.JSON_stringify
       Samples.encodeOrThrow Samples.arrayMethod Samples.uri
       Samples.loneSurrogateBeforeComment 20).2 = Model.Threw
  ∧ (Model.parseDocument Samples.numberIsTruthy Samples.JSON_stringify
       Samples.encodeOrThrow Samples.arrayMethod Samples.uri
       Samples.beforeComment 20).2 = Model.Unfinished.
Proof. split; [|split]; vm_compute; reflexivity. Qed.

End RunFacts.

(** ** Facts about the client *)

Module ExtensionFacts.
Import Extension.

Lemma appendTrailingSlash_last text : last (appendTrailingSlash text) = Some Ch.slash.
Proof.
  unfold appendTrailingSlash. case_bool_decide as Hlast; [by rewrite last_snoc|].
  by destruct (decide (last text = Some Ch.slash)).
Qed.

Section WithOrder.
Context {A : Type}.
Variable compare : A → A → Z.
Variable key : A → Z.
Hypothesis compare_key : ∀ a b, compare a b = (key a - key b)%Z.

Lemma insertSorted_by_key x l :
  StronglySorted (λ a b, (key a ≤ key b)%Z) l →
  StronglySorted (λ a b, (key a ≤ key b)%Z) (ParsedDocument.insertSorted compare x l).
Proof.
  induction 1 as [|y l Hsorted IH Hall]; simpl; [by repeat constructor|].
  rewrite compare_key. destruct (Z.leb_spec (key x - key y) 0) as [Hle|Hgt].
  - constructor; [by constructor|]. constructor; [lia|].
    eapply Forall_impl; [exact Hall|]. simpl. lia.
  - constructor; [done|].
    assert (ParsedDocument.insertSorted compare x l ≡ₚ x :: l) as ->
      by apply DocumentFacts.insertSorted_Permutation.
    constructor; [lia|done].
Qed.

Lemma sort_by_key l :
  StronglySorted (λ a b, (key a ≤ key b)%Z) (ParsedDocument.sort compare l).
Proof.
  induction l as [|x l IH]; simpl; [constructor|]. by apply insertSorted_by_key.
Qed.

End WithOrder.

Lemma outerMost_first uri elements :
  match outerMost uri elements with
  | Some element =>
      ∃ before after,
        elements = before ++ element :: after
        ∧ element `prefix_of` uri
        ∧ Forall (λ e, ¬ e `prefix_of` uri) before
  | None => Forall (λ e, ¬ e `prefix_of` uri) elements
  end.
Proof.
  induction elements as [|e elements IH]; simpl; [constructor|].
  case_bool_decide as Hprefix.
  - exists [], elements. by repeat split.
  - destruct (outerMost uri elements) as [element|].
    + destruct IH as (before & after & -> & Hp & Hnone).
      exists (e :: before), after. split; [done|]. split; [done|]. by constructor.
    + by constructor.
Qed.

Section WithWorkspace.
Variable WorkspaceFolder : Type.
Variable uriToString : WorkspaceFolder → jstring.
Variable getWorkspaceFolder : jstring → option WorkspaceFolder.

(** X22.  [getOuterMostWorkspaceFolder] answers with the folder the
    editor has for the shortest URI of a workspace folder that the URI of
    the given folder starts with, trailing slashes added; when the URI
    starts with none of them it gives the folder back. *)
Theorem getOuterMostWorkspaceFolder_shortest folders folder :
  let slashed f := appendTrailingSlash (uriToString f) in
  (getOuterMostWorkspaceFolder WorkspaceFolder uriToString getWorkspaceFolder
     (Some folders) folder = Some folder
   ∧ ∀ f, f ∈ folders → ¬ slashed f `prefix_of` slashed folder)
  ∨ ∃ f, f ∈ folders
         ∧ slashed f `prefix_of` slashed folder
         ∧ getOuterMostWorkspaceFolder WorkspaceFolder uriToString getWorkspaceFolder
             (Some folders) folder = getWorkspaceFolder (slashed f)
         ∧ ∀ f', f' ∈ folders → slashed f' `prefix_of` slashed folder →
                 length (slashed f) ≤ length (slashed f').
Proof.
  intros slashed. unfold getOuterMostWorkspaceFolder, sortedWorkspaceFolders.
  fold slashed. set (compare := λ a b : jstring, _).
  pose proof (sort_by_key compare (λ a, Z.of_nat (length a)) (λ _ _, eq_refl)
                (slashed <$> folders)) as Hsorted.
  pose proof (DocumentFacts.sort_Permutation compare (slashed <$> folders)) as Hperm.
  pose proof (outerMost_first (slashed folder)
                (ParsedDocument.sort compare (slashed <$> folders))) as Hfirst.
  destruct (outerMost _ _) as [element|].
  - right. destruct Hfirst as (before & after & Hsplit & Hprefix & Hnone).
    assert (element ∈ slashed <$> folders) as (f & -> & Hf)%list_elem_of_fmap.
    { rewrite <- Hperm, Hsplit. set_solver. }
    exists f. split; [done|]. split; [done|]. split; [done|].
    intros f' Hf' Hprefix'.
    assert (slashed f' ∈ before ++ slashed f :: after) as Hin.
    { rewrite <- Hsplit, Hperm. apply list_elem_of_fmap. by exists f'. }
    rewrite Hsplit in Hsorted. apply StronglySorted_app in Hsorted as (Hcross & _ & Hrest).
    apply elem_of_app in Hin as [Hin|Hin].
    + rewrite Forall_forall in Hnone. by destruct (Hnone _ Hin).
    + apply elem_of_cons in Hin as [->|Hin]; [done|].
      apply StronglySorted_inv in Hrest as [_ Hall].
      rewrite Forall_forall in Hall. specialize (Hall _ Hin). simpl in Hall. lia.
  - left. split; [done|]. intros f Hf. rewrite Forall_forall in Hfirst.
    apply Hfirst. rewrite Hperm. apply list_elem_of_fmap. by exists f.
Qed.

End WithWorkspace.
End ExtensionFacts.

